(** * SECL expression compiler: field resolution, variable interpolation,
      operator overrides and the operand-type dispatch of [nodeToEvaluator]

    Shallow embedding of the [eval] package kept in
    [pkg/security/rconfig/rconfig.go] (functions [extractField],
    [identToEvaluator], [arrayToEvaluator], [isVariableName],
    [evaluatorFromVariable], [stringEvaluatorFromVariable], the four
    [*Wrapper] functions and [nodeToEvaluator]), and of the two packages
    kept in the same file: [rconfig] (functions [normalize] and
    [LoadPolicies]) and [activity_dump] (the storage formats and the storage
    requests).

    Conventions.
    - Go strings are byte strings: [string] (a list of [ascii]).
    - Go [int] is 64 bits on the linux build; the compiler itself performs no
      arithmetic on it, so integers are [Z].
    - A Go function value may be [nil]: function-valued fields are [option].
      Calling a closure may panic (a nil function call): closures are
      [Context -> option A], [None] being the panic.
    - Compilation mutates [*State]: every compiling function is a state
      transformer [State -> result * State]; the state is returned on errors
      too, as the mutations done before the error stay in the Go object.
    - Go maps are [gmap]; a nil map and an empty map answer lookups alike.
    - Evaluators are handled through pointers.  The compiler writes through
      one pointer only, that of the right operand of [=~] and [!~]; the
      objects that outlive the call that returns them (the constants of the
      options and the macros of the state) are named by a [Ref]; a write
      to a macro updates the macros of the state, a write to a constant is
      recorded in the state. *)

From Stdlib Require Import String Ascii ZArith DecimalString Lia.
From stdpp Require Import gmap strings list.

Open Scope string_scope.

(** ** Source positions, kinds and errors *)

(** [lexer.Position] of the participle library. *)
Record Position := mkPosition {
  Filename : string;
  Offset : Z;
  Line : Z;
  Column : Z
}.

(** The zero value [lexer.Position{}]. *)
Definition Position_zero : Position := mkPosition "" 0 0 0.

(** The [reflect.Kind] values the compiler names in its type errors. *)
Inductive Kind := KBool | KInt | KString | KArray | KStruct.

Definition Field := string.
Definition RegisterID := string.
Definition MacroID := string.

(** The errors the compiler builds, one constructor per constructor function
    of the source; [ErrHost] stands for the errors that the model, an
    operator override or an operator combinator hands back. *)
Inductive error :=
| ErrTypeError (pos : Position) (k : Kind)
| ErrArrayTypeError (pos : Position) (k elem : Kind)
| ErrCIDRTypeError (pos : Position) (k : Kind) (got : string)
| ErrOpUnknown (pos : Position) (op : string)
| ErrRegisterNameNotAllowed (pos : Position) (regID : RegisterID) (msg : string)
| ErrRegisterMultipleFields (pos : Position) (regID : RegisterID) (msg : string)
| ErrNonStaticPattern (field : Field)
| ErrAstToEval (pos : Position) (msg : string)
| ErrWrongRegisterFormat (field : string)
| ErrHost (msg : string).

(** ** The part of Go's [regexp] package that the compiler uses

    The three patterns of the compiler are built from literal bytes, byte
    classes, greedy repetitions of a class and capture groups.  Matching is
    leftmost-first: [run] lists the ways a pattern can match at a position in
    the order of Go's preference (a greedy repetition tries the longest run
    first), and the first one that lets the rest of the pattern match is the
    one Go reports.  Go matches runes; the delimiters of the three patterns
    are ASCII and no byte of a multi-byte rune is ASCII, so the byte offsets
    are those of a byte-wise match. *)
Module Regexp.

Inductive regex :=
| Lit (c : ascii)
| Class (p : ascii -> bool)
| Star (p : ascii -> bool)
| Plus (p : ascii -> bool)
| Seq (r1 r2 : regex)
| Group (i : nat) (r : regex).

(** A matching thread: the offset reached, the input left, and the
    capture groups closed so far (latest first). *)
Record thread := mkThread {
  t_pos : nat;
  t_rest : list ascii;
  t_caps : list (nat * (nat * nat))
}.

Definition step (p : ascii -> bool) (t : thread) : list thread :=
  match t_rest t with
  | c :: rest => if p c then [mkThread (S (t_pos t)) rest (t_caps t)] else []
  | [] => []
  end.

(** Greedy repetition of a class: the longest run first. *)
Fixpoint star (p : ascii -> bool) (pos : nat) (rest : list ascii)
         (caps : list (nat * (nat * nat))) : list thread :=
  match rest with
  | c :: rest' =>
      if p c then star p (S pos) rest' caps ++ [mkThread pos rest caps]
      else [mkThread pos rest caps]
  | [] => [mkThread pos rest caps]
  end.

Fixpoint run (r : regex) (t : thread) : list thread :=
  match r with
  | Lit c => step (Ascii.eqb c) t
  | Class p => step p t
  | Star p => star p (t_pos t) (t_rest t) (t_caps t)
  | Plus p =>
      flat_map (fun t' => star p (t_pos t') (t_rest t') (t_caps t')) (step p t)
  | Seq r1 r2 => flat_map (run r2) (run r1 t)
  | Group i r1 =>
      map (fun t' => mkThread (t_pos t') (t_rest t')
                       ((i, (t_pos t, t_pos t')) :: t_caps t'))
          (run r1 t)
  end.

(** Number of capture groups ([NumSubexp]). *)
Fixpoint numSubexp (r : regex) : nat :=
  match r with
  | Seq r1 r2 => numSubexp r1 + numSubexp r2
  | Group _ r1 => S (numSubexp r1)
  | _ => 0
  end.

(** Leftmost match at or after offset [pos], [rest] being the input from
    [pos] on: the start offset and the winning thread. *)
Fixpoint search (r : regex) (pos : nat) (rest : list ascii)
  : option (nat * thread) :=
  match head (run r (mkThread pos rest [])) with
  | Some t => Some (pos, t)
  | None =>
      match rest with
      | [] => None
      | _ :: rest' => search r (S pos) rest'
      end
  end.

Definition capture (t : thread) (i : nat) : option (nat * nat) :=
  snd <$> List.find (fun c => Nat.eqb (fst c) i) (t_caps t).

Definition slice (s : list ascii) (lo hi : nat) : list ascii :=
  firstn (hi - lo) (skipn lo s).

(** Text of group [i]; a group that took no part in the match is empty. *)
Definition groupText (s : list ascii) (t : thread) (i : nat) : list ascii :=
  match capture t i with
  | Some (lo, hi) => slice s lo hi
  | None => []
  end.

(** [FindStringSubmatch]: nil when nothing matches, else the text of the
    match followed by the text of each group. *)
Definition FindStringSubmatch (r : regex) (s : string) : list string :=
  let l := list_ascii_of_string s in
  match search r 0 l with
  | None => []
  | Some (start, t) =>
      string_of_list_ascii (slice l start (t_pos t))
      :: map (fun i => string_of_list_ascii (groupText l t i))
             (seq 1 (numSubexp r))
  end.

(** A replacement template: text and [$n] references. *)
Inductive titem := TText (s : string) | TGroup (i : nat).

Definition expand (s : list ascii) (t : thread) (tpl : list titem)
  : list ascii :=
  flat_map (fun it => match it with
                      | TText x => list_ascii_of_string x
                      | TGroup i => groupText s t i
                      end) tpl.

(** The loop of [ReplaceAllString]: [searchPos] is where the next match is
    looked for, [lastMatchEnd] the end of the previous one. *)
Fixpoint replaceAll (fuel : nat) (r : regex) (tpl : list titem)
         (s : list ascii) (searchPos lastMatchEnd : nat) : list ascii :=
  match fuel with
  | O => slice s lastMatchEnd (length s)
  | S fuel' =>
      match search r searchPos (skipn searchPos s) with
      | None => slice s lastMatchEnd (length s)
      | Some (a0, t) =>
          let a1 := t_pos t in
          slice s lastMatchEnd a0
          ++ (if Nat.ltb lastMatchEnd a1 || Nat.eqb a0 0
              then expand s t tpl else [])
          ++ (if Nat.ltb (length s)
                   (if Nat.ltb a1 (searchPos + 1) then searchPos + 1 else a1)
              then slice s a1 (length s)
              else replaceAll fuel' r tpl s
                     (if Nat.ltb a1 (searchPos + 1) then searchPos + 1 else a1)
                     a1)
      end
  end.

Definition ReplaceAllString (r : regex) (s : string) (tpl : list titem)
  : string :=
  let l := list_ascii_of_string s in
  string_of_list_ascii (replaceAll (S (length l)) r tpl l 0 0).

(** The loop of [FindAllIndex] with [n = -1]: successive matches, an empty
    match right after the previous match being dropped. *)
Fixpoint allMatches (fuel : nat) (r : regex) (s : list ascii)
         (pos : nat) (prevMatchEnd : option nat) : list (nat * nat) :=
  match fuel with
  | O => []
  | S fuel' =>
      match search r pos (skipn pos s) with
      | None => []
      | Some (a0, t) =>
          let a1 := t_pos t in
          let accept :=
            negb (Nat.eqb a1 pos && bool_decide (Some a0 = prevMatchEnd)) in
          let pos' := if Nat.eqb a1 pos then S pos else a1 in
          (if accept then [(a0, a1)] else [])
          ++ (if Nat.ltb (length s) pos' then []
              else allMatches fuel' r s pos' (Some a1))
      end
  end.

Definition FindAllIndex (r : regex) (s : string) : list (nat * nat) :=
  let l := list_ascii_of_string s in
  allMatches (S (length l)) r l 0 None.

End Regexp.

Definition notByte (c : ascii) : ascii -> bool := fun x => negb (Ascii.eqb x c).

(** The pattern of [arraySubscriptFindRE]: an opening bracket, group 1 made
    of any number of bytes other than the closing bracket, and a closing
    bracket. *)
Definition arraySubscriptFindRE_pattern : Regexp.regex :=
  Regexp.Seq (Regexp.Lit "[")
    (Regexp.Seq (Regexp.Group 1 (Regexp.Star (notByte "]"))) (Regexp.Lit "]")).

(** The pattern of [arraySubscriptReplaceRE]: group 1 made of one or more
    bytes (the dot: any byte but the newline), an opening bracket, one or more
    bytes other than the closing bracket, a closing bracket, and group 2 made
    of any number of bytes (but the newline). *)
Definition arraySubscriptReplaceRE_pattern : Regexp.regex :=
  Regexp.Seq (Regexp.Group 1 (Regexp.Plus (notByte "010"%char)))
    (Regexp.Seq (Regexp.Lit "[")
       (Regexp.Seq (Regexp.Plus (notByte "]"))
          (Regexp.Seq (Regexp.Lit "]")
             (Regexp.Group 2 (Regexp.Star (notByte "010"%char)))))).

(** Modelled from the spec: [variableRegex] is declared in a file that is not
    among the sources; a variable reference is [${], a name without [}], and
    [}]. *)
Definition variableRegex : Regexp.regex :=
  Regexp.Seq (Regexp.Lit "$")
    (Regexp.Seq (Regexp.Lit "{")
       (Regexp.Seq (Regexp.Star (notByte "}")) (Regexp.Lit "}"))).

(** ** The part of [strings] and [strconv] that the compiler uses *)

(** [strings.Split(s, sep)] for a one-byte separator. *)
Fixpoint Split (sep : ascii) (s : string) : list string :=
  match s with
  | EmptyString => [""]
  | String c s' =>
      if Ascii.eqb c sep then "" :: Split sep s'
      else match Split sep s' with
           | h :: t => String c h :: t
           | [] => [String c ""]
           end
  end.

(** [strings.Join(l, sep)] *)
Definition Join (l : list string) (sep : string) : string := String.concat sep l.

Definition HasPrefix (s p : string) : bool := String.prefix p s.

Definition HasSuffix (s p : string) : bool :=
  Nat.leb (String.length p) (String.length s)
  && String.eqb (substring (String.length s - String.length p) (String.length p) s) p.

(** [s[lo:hi]] *)
Definition strSlice (s : string) (lo hi : nat) : string := substring lo (hi - lo) s.

(** [strconv.FormatInt(x, 10)] *)
Definition FormatInt (x : Z) : string := NilZero.string_of_int (Z.to_int x).

(** ** The syntax tree handed over by the parser

    Modelled from the spec: the [ast] package is not among the sources.  Each
    node carries the fields that the compiler reads.  A pointer that the
    grammar always fills is a plain field; a pointer that may be nil is an
    [option]. *)
Record StringMember := mkStringMember {
  sm_String : option string;
  sm_Pattern : option string;
  sm_Regexp : option string
}.

Record CIDRMember := mkCIDRMember {
  cm_IP : option string;
  cm_CIDR : option string
}.

Record Array := mkArray {
  arr_Pos : Position;
  arr_CIDR : option string;
  arr_Variable : option string;
  arr_Ident : option string;
  arr_StringMembers : list StringMember;
  arr_CIDRMembers : list CIDRMember;
  arr_Numbers : list Z
}.

Record ArrayComparison := mkArrayComparison {
  ac_Pos : Position;
  ac_Op : string;
  ac_Array : Array
}.

Unset Elimination Schemes.

Inductive BooleanExpression :=
| mkBooleanExpression (be_Expression : Expression)
with Expression :=
| mkExpression (e_Pos : Position) (e_Comparison : Comparison)
    (e_Op : option string) (e_Next : option BooleanExpression)
with Comparison :=
| mkComparison (c_Pos : Position) (c_BitOperation : BitOperation)
    (c_ScalarComparison : option ScalarComparison)
    (c_ArrayComparison : option ArrayComparison)
with ScalarComparison :=
| mkScalarComparison (sc_Pos : Position) (sc_Op : string) (sc_Next : Comparison)
with BitOperation :=
| mkBitOperation (bo_Pos : Position) (bo_Unary : Unary)
    (bo_Op : option string) (bo_Next : option BitOperation)
with Unary :=
| mkUnary (u_Pos : Position) (u_Op : option string) (u_Unary : option Unary)
    (u_Primary : option Primary)
with Primary :=
| mkPrimary (p_Pos : Position) (p_Ident : option string)
    (p_CIDR : option string) (p_IP : option string) (p_Number : option Z)
    (p_Variable : option string) (p_String : option string)
    (p_Pattern : option string) (p_Regexp : option string)
    (p_Duration : option Z) (p_SubExpression : option Expression).

Set Elimination Schemes.

(** What [nodeToEvaluator] receives in its [interface{}] argument. *)
Inductive Node :=
| NBooleanExpression (n : BooleanExpression)
| NExpression (n : Expression)
| NBitOperation (n : BitOperation)
| NComparison (n : Comparison)
| NArrayComparison (n : ArrayComparison)
| NScalarComparison (n : ScalarComparison)
| NUnary (n : Unary)
| NPrimary (n : Primary)
| NArray (n : Array).

(** ** Evaluators, model and compilation state *)

(** The value types of the specification; [UnsetValueType] is the zero value
    of the Go type, which a struct literal that leaves the field out
    holds. *)
Inductive FieldValueType :=
| UnsetValueType
| ScalarValueType
| PatternValueType
| RegexpValueType
| VariableValueType
| IPNetValueType.

Global Instance FieldValueType_eq_dec : EqDecision FieldValueType.
Proof. solve_decision. Defined.

(** A Go function stored in an [OpOverrides] table takes the evaluators that
    carry the table: it is kept as the name of a host function, resolved in
    the [Overrides] table of the host. *)
Definition FnPtr := string.

Record OpOverrides := mkOpOverrides {
  ov_StringEquals : option FnPtr;
  ov_StringArrayContains : option FnPtr;
  ov_StringValuesContains : option FnPtr;
  ov_StringArrayMatches : option FnPtr
}.

(** The compiler handles a string evaluator through a pointer, and writes
    through it (the force-pattern step of [=~] and [!~]).  Two tables hand
    out the pointer they hold, so that what is written through it is seen by
    every later reader of the table: the constants of the options
    ([replCtx.Opts.Constants]) and the macros of the state ([state.macros]).
    A [Ref] names an entry of one of them. *)
Inductive Ref :=
| RConstant (name : string)
| RMacro (id : MacroID).

Global Instance Ref_eq_dec : EqDecision Ref.
Proof. solve_decision. Defined.

Section Eval.

Context {Context Iterator IPNet StringValues CIDRValues MacroStore : Type}.

(** Modelled from the spec: the evaluator types are declared in files that
    are not among the sources.  Each carries a constant, or a function of
    the evaluation context ([EvalFnc], nil for a constant); string and
    string-array evaluators may carry an override table; string-values and
    CIDR-values evaluators carry none.

    [s_Ref] is not a field of the Go structure: it is the identity of the
    object that a [*StringEvaluator] points to, [Some r] for the object held
    by the entry [r] of the constants or of the macros, [None] for an object
    that the call at hand has allocated (a literal, an interpolated string)
    or that the host has handed out ([GetEvaluator] of the model and of a
    variable, whose code is not among the sources, are taken to answer with
    an object of their own).  The other fields are what the object holds
    when the pointer is handed out. *)
Record BoolEvaluator := mkBoolEvaluator {
  b_EvalFnc : option (Context -> option bool);
  b_Value : bool
}.

Record IntEvaluator := mkIntEvaluator {
  i_EvalFnc : option (Context -> option Z);
  i_Value : Z;
  i_isDuration : bool
}.

Record StringEvaluator := mkStringEvaluator {
  s_EvalFnc : option (Context -> option string);
  s_Value : string;
  s_ValueType : FieldValueType;
  s_Field : Field;
  s_OpOverrides : option OpOverrides;
  s_Ref : option Ref
}.

Record CIDREvaluator := mkCIDREvaluator {
  c_EvalFnc : option (Context -> option IPNet);
  c_Value : option IPNet;
  c_ValueType : FieldValueType
}.

Record BoolArrayEvaluator := mkBoolArrayEvaluator {
  ba_EvalFnc : option (Context -> option (list bool));
  ba_Values : list bool
}.

Record IntArrayEvaluator := mkIntArrayEvaluator {
  ia_EvalFnc : option (Context -> option (list Z));
  ia_Values : list Z
}.

Record StringArrayEvaluator := mkStringArrayEvaluator {
  sa_EvalFnc : option (Context -> option (list string));
  sa_Values : list string;
  sa_OpOverrides : option OpOverrides
}.

Record CIDRArrayEvaluator := mkCIDRArrayEvaluator {
  ca_EvalFnc : option (Context -> option (list IPNet));
  ca_Value : list IPNet
}.

Record StringValuesEvaluator := mkStringValuesEvaluator {
  sv_Values : StringValues
}.

Record CIDRValuesEvaluator := mkCIDRValuesEvaluator {
  cv_Value : CIDRValues;
  cv_ValueType : FieldValueType
}.

(** The dynamic type of a compiled value; [EOther] is any other value that
    a host table may hold. *)
Inductive Evaluator :=
| EBool (e : BoolEvaluator)
| EInt (e : IntEvaluator)
| EString (e : StringEvaluator)
| ECIDR (e : CIDREvaluator)
| EBoolArray (e : BoolArrayEvaluator)
| EIntArray (e : IntArrayEvaluator)
| EStringArray (e : StringArrayEvaluator)
| ECIDRArray (e : CIDRArrayEvaluator)
| EStringValues (e : StringValuesEvaluator)
| ECIDRValues (e : CIDRValuesEvaluator)
| EOther (dyn : string).

Definition typeName (e : Evaluator) : string :=
  match e with
  | EBool _ => "*eval.BoolEvaluator"
  | EInt _ => "*eval.IntEvaluator"
  | EString _ => "*eval.StringEvaluator"
  | ECIDR _ => "*eval.CIDREvaluator"
  | EBoolArray _ => "*eval.BoolArrayEvaluator"
  | EIntArray _ => "*eval.IntArrayEvaluator"
  | EStringArray _ => "*eval.StringArrayEvaluator"
  | ECIDRArray _ => "*eval.CIDRArrayEvaluator"
  | EStringValues _ => "*eval.StringValuesEvaluator"
  | ECIDRValues _ => "*eval.CIDRValuesEvaluator"
  | EOther dyn => dyn
  end.

(** Calling a function field: a nil function panics. *)
Definition call {A} (f : option (Context -> option A)) (ctx : Context)
  : option A :=
  match f with
  | Some g => g ctx
  | None => None
  end.

(** The value of an evaluator at a context: its function when it has one,
    its constant otherwise (as the closure of [stringEvaluatorFromVariable]
    reads a string evaluator). *)
Definition evalBool (e : BoolEvaluator) (ctx : Context) : option bool :=
  match b_EvalFnc e with
  | Some f => f ctx
  | None => Some (b_Value e)
  end.

Definition evalString (e : StringEvaluator) (ctx : Context) : option string :=
  match s_EvalFnc e with
  | Some f => f ctx
  | None => Some (s_Value e)
  end.




(** The host model: [GetIterator] and [GetEvaluator] answer with a value or
    with an error. *)
Record Model := mkModel {
  GetIterator : Field -> Iterator + error;
  GetEvaluator : Field -> RegisterID -> Evaluator + error
}.

Record registerInfo := mkRegisterInfo {
  ri_field : Field;
  ri_iterator : Iterator;
  ri_subFields : gmap Field bool
}.

Record regexpCache := mkRegexpCache {
  arraySubscriptFindRE : option Regexp.regex;
  arraySubscriptReplaceRE : option Regexp.regex
}.

(** The compilation state.  [fields] is modelled from the spec (the set of
    the fields the rule refers to, fed by [UpdateFields], whose code is not
    among the sources).  [randDraws] counts the identifiers drawn from
    [RandString] so far: the generator is a global of the program.

    [macros] holds the evaluators of the macros as they are now: a write
    through the pointer of a macro updates its entry.  The constants are
    held by the options, which the compiling functions receive through
    another pointer ([replCtx.Opts]) and which the embedding hands them as a
    value: [promotedConstants] is the part of that object that the compiler
    writes, the names of the constants whose string evaluator has had its
    [ValueType] overwritten with [PatternValueType]; what a constant holds
    now is read with [constantAt]. *)
Record State := mkState {
  model : Model;
  macros : gmap MacroID Evaluator;
  registersInfo : gmap RegisterID registerInfo;
  regexpCache_ : regexpCache;
  fields : gset Field;
  randDraws : nat;
  promotedConstants : gset string
}.

(** [Opts]: [Variables] maps a name to what [GetEvaluator()] of the variable
    returns. *)
Record Opts := mkOpts {
  Constants : gmap string Evaluator;
  LegacyFields : gmap Field Field;
  Variables : gmap string Evaluator
}.

Record EvalReplacementContext := mkEvalReplacementContext {
  Opts_ : Opts;
  MacroStore_ : MacroStore
}.

(** The result triple [(interface{}, lexer.Position, error)] of the
    compiling functions; [Panicked] is a nil-pointer dereference. *)
Inductive Compiled :=
| Done (ev : Evaluator) (pos : Position)
| Failed (pos : Position) (err : error)
| Panicked.

(** Functions of the [eval] package and of its imports whose code is not
    among the sources, taken as they are. [RandString n k] is the [k]-th
    identifier of length [n] that the generator hands out. *)
Record Externals := mkExternals {
  RandString : nat -> nat -> RegisterID;
  ParseCIDR : string -> option IPNet;
  AppendMembers : list StringMember -> StringValuesEvaluator;
  CIDRValues_zero : CIDRValues;
  AppendCIDR : CIDRValues -> string -> option CIDRValues;
  AppendIP : CIDRValues -> string -> option CIDRValues
}.

Context (ext : Externals).

Definition set_macros (st : State) (m : gmap MacroID Evaluator) : State :=
  mkState (model st) m (registersInfo st) (regexpCache_ st) (fields st)
    (randDraws st) (promotedConstants st).

Definition set_regexpCache (st : State) (c : regexpCache) : State :=
  mkState (model st) (macros st) (registersInfo st) c (fields st) (randDraws st)
    (promotedConstants st).

Definition set_registersInfo (st : State) (r : gmap RegisterID registerInfo)
  : State :=
  mkState (model st) (macros st) r (regexpCache_ st) (fields st) (randDraws st)
    (promotedConstants st).

Definition set_randDraws (st : State) (n : nat) : State :=
  mkState (model st) (macros st) (registersInfo st) (regexpCache_ st)
    (fields st) n (promotedConstants st).

Definition set_promotedConstants (st : State) (p : gset string) : State :=
  mkState (model st) (macros st) (registersInfo st) (regexpCache_ st)
    (fields st) (randDraws st) p.

(** Modelled from the spec: [UpdateFields] adds the field to the set of the
    fields of the rule. *)
Definition UpdateFields (st : State) (field : Field) : State :=
  mkState (model st) (macros st) (registersInfo st) (regexpCache_ st)
    ({[field]} ∪ fields st) (randDraws st) (promotedConstants st).

(** *** Reading and writing through a shared pointer *)

(** [nextString.ValueType = PatternValueType] *)
Definition promote (e : StringEvaluator) : StringEvaluator :=
  mkStringEvaluator (s_EvalFnc e) (s_Value e) PatternValueType (s_Field e)
    (s_OpOverrides e) (s_Ref e).

(** The pointer to the object of the entry [r], the object holding [e]. *)
Definition pointTo (r : Ref) (e : StringEvaluator) : StringEvaluator :=
  mkStringEvaluator (s_EvalFnc e) (s_Value e) (s_ValueType e) (s_Field e)
    (s_OpOverrides e) (Some r).

(** What a look-up of the constant [name] returns, [accessor] being what
    the options hold under that name: the pointer to the object, which holds
    what the options hold but for the type written since, if any (the
    compiler writes to scalar evaluators only).  The evaluators of the other
    types are never written to. *)
Definition constantAt (name : string) (accessor : Evaluator) (st : State)
  : Evaluator :=
  match accessor with
  | EString e =>
      EString
        (pointTo (RConstant name)
           (if decide (name ∈ promotedConstants st) then
              if decide (s_ValueType e = ScalarValueType) then promote e
              else e
            else e))
  | _ => accessor
  end.

(** What a look-up of the macro [id] returns, [macro] being its entry in
    the state. *)
Definition macroAt (id : MacroID) (macro : Evaluator) : Evaluator :=
  match macro with
  | EString e => EString (pointTo (RMacro id) e)
  | _ => macro
  end.

(** The write of [PatternValueType] through a pointer to a scalar string
    evaluator, as the tables see it: the entry of the macro is updated (it
    holds the scalar evaluator that the pointer points to), the constant is
    recorded as written; nothing else points to an object that no entry
    holds. *)
Definition recordWrite (r : option Ref) (st : State) : State :=
  match r with
  | Some (RConstant name) =>
      set_promotedConstants st ({[name]} ∪ promotedConstants st)
  | Some (RMacro id) =>
      match macros st !! id with
      | Some (EString e) =>
          if decide (s_ValueType e = ScalarValueType) then
            set_macros st (<[id := EString (promote e)]> (macros st))
          else st
      | _ => st
      end
  | None => st
  end.

(** *** [extractField] *)
Definition extractField (field : string) (st : State)
  : (Field * Field * RegisterID + error) * State :=
  let findRE :=
    match arraySubscriptFindRE (regexpCache_ st) with
    | Some r => r
    | None => arraySubscriptFindRE_pattern
    end in
  let replaceRE :=
    match arraySubscriptReplaceRE (regexpCache_ st) with
    | Some r => r
    | None => arraySubscriptReplaceRE_pattern
    end in
  let st := set_regexpCache st (mkRegexpCache (Some findRE) (Some replaceRE)) in
  let ids := Regexp.FindStringSubmatch findRE field in
  match ids with
  | [] => (inl (field, "", ""), st)
  | [_; regID] =>
      let resField :=
        Regexp.ReplaceAllString replaceRE field
          [Regexp.TGroup 1; Regexp.TGroup 2] in
      let itField :=
        Regexp.ReplaceAllString replaceRE field [Regexp.TGroup 1] in
      (inl (resField, itField, regID), st)
  | _ => (inr (ErrWrongRegisterFormat field), st)
  end.

(** The loop of [identToEvaluator] that looks for an iterator along the
    path: [candidate] grows by one dotted segment per round, the loop stops
    at the first candidate for which the model answers without an error,
    and [iterator] holds the answer of the last call. *)
Fixpoint detectIterator (m : Model) (candidate : string)
         (nodes : list string) (iterator : option Iterator)
  : option Iterator :=
  match nodes with
  | [] => iterator
  | node :: nodes' =>
      let candidate :=
        if String.eqb candidate "" then node else candidate ++ "." ++ node in
      match GetIterator m candidate with
      | inl it => Some it
      | inr _ => detectIterator m candidate nodes' None
      end
  end.

(** The two look-ups of the legacy table, in the order of the source. *)
Definition legacyRewrite (legacy : gmap Field Field) (field itField : Field)
  : Field * Field :=
  let field :=
    match legacy !! field with
    | Some newField => newField
    | None => field
    end in
  let itField :=
    match legacy !! field with
    | Some newField => newField
    | None => itField
    end in
  (field, itField).

(** The register bookkeeping of [identToEvaluator], entered when an
    iterator was found. *)
Definition bindRegister (pos : Position) (field itField : Field)
           (regID : RegisterID) (iterator : Iterator) (st : State)
  : (RegisterID + error) * State :=
  if negb (String.eqb regID "") && negb (String.eqb regID "_") then
    (inr (ErrRegisterNameNotAllowed pos regID "only `_` is supported"), st)
  else
    let '(regID, st) :=
      if String.eqb regID "" || String.eqb regID "_" then
        (RandString ext 8 (randDraws st), set_randDraws st (S (randDraws st)))
      else (regID, st) in
    match registersInfo st !! regID with
    | Some info =>
        if negb (String.eqb (ri_field info) itField) then
          (inr (ErrRegisterMultipleFields pos regID "used by multiple fields"),
           st)
        else
          (inl regID,
           set_registersInfo st
             (<[regID := mkRegisterInfo (ri_field info) (ri_iterator info)
                           (<[field := true]> (ri_subFields info))]>
                (registersInfo st)))
    | None =>
        (inl regID,
         set_registersInfo st
           (<[regID := mkRegisterInfo itField iterator {[field := true]}]>
              (registersInfo st)))
    end.

(** *** [identToEvaluator] *)
Definition identToEvaluator (pos : Position) (ident : string)
           (replCtx : EvalReplacementContext) (st : State)
  : Compiled * State :=
  match Constants (Opts_ replCtx) !! ident with
  | Some accessor => (Done (constantAt ident accessor st) pos, st)
  | None =>
  match macros st !! ident with
  | Some macro => (Done (macroAt ident macro) pos, st)
  | None =>
  match extractField ident st with
  | (inr err, st) => (Failed pos err, st)
  | (inl (field, itField, regID), st) =>
      let '(field, itField) :=
        legacyRewrite (LegacyFields (Opts_ replCtx)) field itField in
      let found : option Iterator + error :=
        if negb (String.eqb itField "") then
          match GetIterator (model st) itField with
          | inl it => inl (Some it)
          | inr err => inr err
          end
        else inl (detectIterator (model st) "" (Split "." field) None) in
      match found with
      | inr err => (Failed pos err, st)
      | inl iterator =>
          let bound : (RegisterID + error) * State :=
            match iterator with
            | Some it => bindRegister pos field itField regID it st
            | None => (inl regID, st)
            end in
          match bound with
          | (inr err, st) => (Failed pos err, st)
          | (inl regID, st) =>
              match GetEvaluator (model st) field regID with
              | inr err => (Failed pos err, st)
              | inl accessor => (Done accessor pos, UpdateFields st field)
              end
          end
      end
  end
  end
  end.

(** *** Variables *)

(** [isVariableName] *)
Definition isVariableName (str : string) : string * bool :=
  if HasPrefix str "${" && HasSuffix str "}" then
    (strSlice str 2 (String.length str - 1), true)
  else ("", false).

(** [evaluatorFromVariable] *)
Definition evaluatorFromVariable (varname : string) (pos : Position)
           (replCtx : EvalReplacementContext) : Compiled :=
  match Variables (Opts_ replCtx) !! varname with
  | None =>
      Failed pos (ErrAstToEval pos ("variable '" ++ varname ++ "' doesn't exist"))
  | Some value => Done value pos
  end.

(** A string evaluator made of a function only: the other fields keep their
    zero value. *)
Definition funString (f : Context -> option string) : StringEvaluator :=
  mkStringEvaluator (Some f) "" UnsetValueType "" None None.

(** The loop that renders an integer array: a comma before every element
    but the first. *)
Fixpoint joinInts (i : nat) (result : string) (numbers : list Z) : string :=
  match numbers with
  | [] => result
  | number :: numbers' =>
      joinInts (S i)
        ((if Nat.eqb i 0 then result else result ++ ",") ++ FormatInt number)
        numbers'
  end.

(** The closure [doLoc] of [stringEvaluatorFromVariable]: [evaluators] is
    the slice it appends to. *)
Definition doLoc (pos : Position) (replCtx : EvalReplacementContext)
           (sub : string) (evaluators : list StringEvaluator)
  : list StringEvaluator + error :=
  match isVariableName sub with
  | (varname, true) =>
      match Variables (Opts_ replCtx) !! varname with
      | None =>
          inr (ErrAstToEval pos
                 ("variable '" ++ varname ++ "' doesn't exist"))
      | Some evaluator =>
          match evaluator with
          | EStringArray e =>
              inl (evaluators ++
                   [funString (fun ctx =>
                      (fun l => Join l ",") <$> call (sa_EvalFnc e) ctx)])%list
          | EIntArray e =>
              inl (evaluators ++
                   [funString (fun ctx =>
                      joinInts 0 "" <$> call (ia_EvalFnc e) ctx)])%list
          | EString e => inl (evaluators ++ [e])%list
          | EInt e =>
              inl (evaluators ++
                   [funString (fun ctx =>
                      FormatInt <$> call (i_EvalFnc e) ctx)])%list
          | _ =>
              inr (ErrAstToEval pos
                     ("variable type not supported '" ++ varname ++ "'"))
          end
      end
  | (_, false) =>
      inl (evaluators ++
           [mkStringEvaluator None sub UnsetValueType "" None None])%list
  end.

(** The loop over the locations of the variable references; [last] is the
    end of the previous reference.  The slices are in range for the
    locations that [FindAllIndex] returns. *)
Fixpoint locLoop (pos : Position) (replCtx : EvalReplacementContext)
         (str : string) (locs : list (nat * nat)) (last : nat)
         (evaluators : list StringEvaluator)
  : nat * list StringEvaluator + error :=
  match locs with
  | [] => inl (last, evaluators)
  | (loc0, loc1) :: locs' =>
      let before :=
        if Nat.ltb 0 loc0 then
          doLoc pos replCtx (strSlice str last loc0) evaluators
        else inl evaluators in
      match before with
      | inr err => inr err
      | inl evaluators =>
          match doLoc pos replCtx (strSlice str loc0 loc1) evaluators with
          | inr err => inr err
          | inl evaluators => locLoop pos replCtx str locs' loc1 evaluators
          end
      end
  end.

(** The closure that [stringEvaluatorFromVariable] returns. *)
Fixpoint concatParts (evaluators : list StringEvaluator) (ctx : Context)
         (result : string) : option string :=
  match evaluators with
  | [] => Some result
  | evaluator :: evaluators' =>
      match evalString evaluator ctx with
      | Some s => concatParts evaluators' ctx (result ++ s)
      | None => None
      end
  end.

(** [stringEvaluatorFromVariable] *)
Definition stringEvaluatorFromVariable (str : string) (pos : Position)
           (replCtx : EvalReplacementContext) : Compiled :=
  match locLoop pos replCtx str (Regexp.FindAllIndex variableRegex str) 0 []
  with
  | inr err => Failed pos err
  | inl (last, evaluators) =>
      let tail :=
        if Nat.ltb last (String.length str) then
          doLoc pos replCtx (strSlice str last (String.length str)) evaluators
        else inl evaluators in
      match tail with
      | inr err => Failed pos err
      | inl evaluators =>
          Done (EString
                  (mkStringEvaluator
                     (Some (fun ctx => concatParts evaluators ctx ""))
                     "" VariableValueType "" None None))
               pos
      end
  end.

(** *** [arrayToEvaluator] *)

(** Modelled from the spec: [AppendValues] is not among the sources; the
    numbers of the literal become the values of the array evaluator. *)
Definition AppendValues (e : IntArrayEvaluator) (values : list Z)
  : IntArrayEvaluator :=
  mkIntArrayEvaluator (ia_EvalFnc e) (ia_Values e ++ values).

Fixpoint appendCIDRMembers (pos : Position) (members : list CIDRMember)
         (values : CIDRValues) : CIDRValues + error :=
  match members with
  | [] => inl values
  | member :: members' =>
      match cm_CIDR member with
      | Some cidr =>
          match AppendCIDR ext values cidr with
          | Some values => appendCIDRMembers pos members' values
          | None => inr (ErrAstToEval pos ("invalid CIDR '" ++ cidr ++ "'"))
          end
      | None =>
          match cm_IP member with
          | Some ip =>
              match AppendIP ext values ip with
              | Some values => appendCIDRMembers pos members' values
              | None => inr (ErrAstToEval pos ("invalid IP '" ++ ip ++ "'"))
              end
          | None => appendCIDRMembers pos members' values
          end
      end
  end.

Definition arrayToEvaluator (array : Array)
           (replCtx : EvalReplacementContext) (st : State)
  : Compiled * State :=
  let pos := arr_Pos array in
  if negb (Nat.eqb (length (arr_Numbers array)) 0) then
    (Done (EIntArray (AppendValues (mkIntArrayEvaluator None [])
                        (arr_Numbers array))) pos, st)
  else if negb (Nat.eqb (length (arr_StringMembers array)) 0) then
    (Done (EStringValues (AppendMembers ext (arr_StringMembers array))) pos, st)
  else
  match arr_Ident array with
  | Some ident =>
      match macros st !! ident with
      | Some macro => (Done (macroAt ident macro) pos, st)
      | None => identToEvaluator pos ident replCtx st
      end
  | None =>
  match arr_Variable array with
  | Some variable =>
      match isVariableName variable with
      | (varName, true) => (evaluatorFromVariable varName pos replCtx, st)
      | (_, false) =>
          (Failed pos
             (ErrAstToEval pos ("invalid variable name '" ++ variable ++ "'")),
           st)
      end
  | None =>
  match arr_CIDR array with
  | Some cidr =>
      match AppendCIDR ext (CIDRValues_zero ext) cidr with
      | None =>
          (Failed pos (ErrAstToEval pos ("invalid CIDR '" ++ cidr ++ "'")), st)
      | Some values =>
          (Done (ECIDRValues (mkCIDRValuesEvaluator values IPNetValueType))
             pos, st)
      end
  | None =>
      if negb (Nat.eqb (length (arr_CIDRMembers array)) 0) then
        match appendCIDRMembers pos (arr_CIDRMembers array)
                (CIDRValues_zero ext) with
        | inr err => (Failed pos err, st)
        | inl values =>
            (Done (ECIDRValues (mkCIDRValuesEvaluator values IPNetValueType))
               pos, st)
        end
      else (Failed pos (ErrAstToEval pos "unknown array element type"), st)
  end
  end
  end.

(** *** Operator combinators and overrides *)

Definition Combinator (A B : Type) : Type :=
  A -> B -> EvalReplacementContext -> State -> (BoolEvaluator + error) * State.

Definition IntCombinator : Type :=
  IntEvaluator -> IntEvaluator -> EvalReplacementContext -> State ->
  (IntEvaluator + error) * State.

(** The operator combinators, whose code is not among the sources, taken
    as they are declared: each receives the state and may fail. *)
Record Operators := mkOperators {
  Or : Combinator BoolEvaluator BoolEvaluator;
  And : Combinator BoolEvaluator BoolEvaluator;
  IntAnd : IntCombinator;
  IntOr : IntCombinator;
  IntXor : IntCombinator;
  Minus : IntEvaluator -> EvalReplacementContext -> State -> IntEvaluator * State;
  IntNot : IntEvaluator -> EvalReplacementContext -> State -> IntEvaluator * State;
  BoolEquals : Combinator BoolEvaluator BoolEvaluator;
  BoolArrayEquals : Combinator BoolEvaluator BoolArrayEvaluator;
  ArrayBoolContains : Combinator BoolEvaluator BoolArrayEvaluator;
  StringEquals : Combinator StringEvaluator StringEvaluator;
  StringArrayContains : Combinator StringEvaluator StringArrayEvaluator;
  StringValuesContains : Combinator StringEvaluator StringValuesEvaluator;
  StringArrayMatches : Combinator StringArrayEvaluator StringValuesEvaluator;
  IntEquals : Combinator IntEvaluator IntEvaluator;
  LesserThan : Combinator IntEvaluator IntEvaluator;
  LesserOrEqualThan : Combinator IntEvaluator IntEvaluator;
  GreaterThan : Combinator IntEvaluator IntEvaluator;
  GreaterOrEqualThan : Combinator IntEvaluator IntEvaluator;
  DurationLesserThan : Combinator IntEvaluator IntEvaluator;
  DurationLesserOrEqualThan : Combinator IntEvaluator IntEvaluator;
  DurationGreaterThan : Combinator IntEvaluator IntEvaluator;
  DurationGreaterOrEqualThan : Combinator IntEvaluator IntEvaluator;
  IntArrayEquals : Combinator IntEvaluator IntArrayEvaluator;
  IntArrayLesserThan : Combinator IntEvaluator IntArrayEvaluator;
  IntArrayLesserOrEqualThan : Combinator IntEvaluator IntArrayEvaluator;
  IntArrayGreaterThan : Combinator IntEvaluator IntArrayEvaluator;
  IntArrayGreaterOrEqualThan : Combinator IntEvaluator IntArrayEvaluator;
  IntArrayMatches : Combinator IntArrayEvaluator IntArrayEvaluator;
  CIDREquals : Combinator CIDREvaluator CIDREvaluator;
  CIDRValuesContains : Combinator CIDREvaluator CIDRValuesEvaluator;
  CIDRArrayContains : Combinator CIDREvaluator CIDRArrayEvaluator;
  CIDRArrayMatches : Combinator CIDRArrayEvaluator CIDRValuesEvaluator;
  CIDRArrayMatchesAll : Combinator CIDRArrayEvaluator CIDRValuesEvaluator
}.

(** The code of the host functions that override tables point to. *)
Record Overrides := mkOverrides {
  code_StringEquals : FnPtr -> Combinator StringEvaluator StringEvaluator;
  code_StringArrayContains :
    FnPtr -> Combinator StringEvaluator StringArrayEvaluator;
  code_StringValuesContains :
    FnPtr -> Combinator StringEvaluator StringValuesEvaluator;
  code_StringArrayMatches :
    FnPtr -> Combinator StringArrayEvaluator StringValuesEvaluator
}.

Context (ops : Operators) (host : Overrides).

(** Modelled from the spec: [Not] is not among the sources; it negates the
    constant of a constant evaluator and the result of the function of a
    function evaluator. *)
Definition Not (a : BoolEvaluator) (replCtx : EvalReplacementContext)
           (st : State) : BoolEvaluator :=
  match b_EvalFnc a with
  | Some ea => mkBoolEvaluator (Some (fun ctx => negb <$> ea ctx)) false
  | None => mkBoolEvaluator None (negb (b_Value a))
  end.

(** [o != nil && o.F != nil], and then [o.F]. *)
Definition override (o : option OpOverrides)
           (sel : OpOverrides -> option FnPtr) : option FnPtr :=
  match o with
  | Some tbl => sel tbl
  | None => None
  end.

(** [StringEqualsWrapper] *)
Definition StringEqualsWrapper : Combinator StringEvaluator StringEvaluator :=
  fun a b replCtx st =>
  match override (s_OpOverrides a) ov_StringEquals with
  | Some f => code_StringEquals host f a b replCtx st
  | None =>
      match override (s_OpOverrides b) ov_StringEquals with
      | Some f => code_StringEquals host f a b replCtx st
      | None => StringEquals ops a b replCtx st
      end
  end.

(** [StringArrayContainsWrapper] *)
Definition StringArrayContainsWrapper
  : Combinator StringEvaluator StringArrayEvaluator :=
  fun a b replCtx st =>
  match override (s_OpOverrides a) ov_StringArrayContains with
  | Some f => code_StringArrayContains host f a b replCtx st
  | None =>
      match override (sa_OpOverrides b) ov_StringArrayContains with
      | Some f => code_StringArrayContains host f a b replCtx st
      | None => StringArrayContains ops a b replCtx st
      end
  end.

(** [StringValuesContainsWrapper] *)
Definition StringValuesContainsWrapper
  : Combinator StringEvaluator StringValuesEvaluator :=
  fun a b replCtx st =>
  match override (s_OpOverrides a) ov_StringValuesContains with
  | Some f => code_StringValuesContains host f a b replCtx st
  | None => StringValuesContains ops a b replCtx st
  end.

(** [StringArrayMatchesWrapper] *)
Definition StringArrayMatchesWrapper
  : Combinator StringArrayEvaluator StringValuesEvaluator :=
  fun a b replCtx st =>
  match override (sa_OpOverrides a) ov_StringArrayMatches with
  | Some f => code_StringArrayMatches host f a b replCtx st
  | None => StringArrayMatches ops a b replCtx st
  end.

(** *** [nodeToEvaluator] *)

(** The last statement of [nodeToEvaluator], reached by the cases that
    leave the type switch without returning. *)
Definition unknownEntity (dyn : string) : Compiled :=
  Failed Position_zero
    (ErrAstToEval Position_zero ("unknown entity '" ++ dyn ++ "'")).

(** After a combinator: [if err != nil { return nil, errPos, err }], then
    the rest of the branch. *)
Definition emit (r : (BoolEvaluator + error) * State) (errPos : Position)
           (k : BoolEvaluator -> State -> Compiled) : Compiled * State :=
  match r with
  | (inl boolEvaluator, st) => (k boolEvaluator st, st)
  | (inr err, st) => (Failed errPos err, st)
  end.

Definition emitInt (r : (IntEvaluator + error) * State) (errPos : Position)
           (k : IntEvaluator -> State -> Compiled) : Compiled * State :=
  match r with
  | (inl intEvaluator, st) => (k intEvaluator st, st)
  | (inr err, st) => (Failed errPos err, st)
  end.

Definition plain (objPos : Position) : BoolEvaluator -> State -> Compiled :=
  fun boolEvaluator _ => Done (EBool boolEvaluator) objPos.

Definition negated (objPos : Position) (replCtx : EvalReplacementContext)
  : BoolEvaluator -> State -> Compiled :=
  fun boolEvaluator st => Done (EBool (Not boolEvaluator replCtx st)) objPos.

(** [if op == "notin" { return Not(...) }; return boolEvaluator] *)
Definition notinOrPlain (op : string) (objPos : Position)
           (replCtx : EvalReplacementContext)
  : BoolEvaluator -> State -> Compiled :=
  if String.eqb op "notin" then negated objPos replCtx else plain objPos.

(** The force-pattern step of the [=~] and [!~] cases:
    [if nextString.ValueType == ScalarValueType {
       nextString.ValueType = PatternValueType }].
    The write goes through the pointer: the evaluator at hand is updated,
    and when it is the object of an entry of the constants or of the macros,
    so is what every later look-up of that entry returns. *)
Definition forcePattern (nextString : StringEvaluator) (st : State)
  : StringEvaluator * State :=
  if decide (s_ValueType nextString = ScalarValueType) then
    (promote nextString, recordWrite (s_Ref nextString) st)
  else (nextString, st).

(** The left operand after the write through the pointer of the right
    operand: when both point to the object of the same entry they are one
    object, and the left operand is what the right operand now is. *)
Definition reread (unary nextString : StringEvaluator) : StringEvaluator :=
  match s_Ref unary with
  | Some r => if decide (s_Ref nextString = Some r) then nextString else unary
  | None => unary
  end.

(** The [obj.ArrayComparison != nil] branch of the [*ast.Comparison] case,
    from the type switch on [unary] on: [objPos] is [obj.Pos], [pos] the
    position returned for the right operand, [op] is
    [*obj.ArrayComparison.Op]. *)
Definition compareArray (objPos pos : Position) (op : string)
           (unary next : Evaluator) (replCtx : EvalReplacementContext)
           (st : State) : Compiled * State :=
  match unary with
  | EBool unary =>
      match next with
      | EBoolArray nextBool =>
          emit (ArrayBoolContains ops unary nextBool replCtx st) pos
            (notinOrPlain op objPos replCtx)
      | _ => (Failed pos (ErrArrayTypeError pos KArray KBool), st)
      end
  | EString unary =>
      match next with
      | EStringArray nextString =>
          emit (StringArrayContainsWrapper unary nextString replCtx st) pos
            (notinOrPlain op objPos replCtx)
      | EStringValues nextString =>
          emit (StringValuesContainsWrapper unary nextString replCtx st) pos
            (notinOrPlain op objPos replCtx)
      | _ => (Failed pos (ErrArrayTypeError pos KArray KString), st)
      end
  | EStringValues unary =>
      match next with
      | EStringArray nextStringArray =>
          emit (StringArrayMatchesWrapper nextStringArray unary replCtx st) pos
            (notinOrPlain op objPos replCtx)
      | _ => (Failed pos (ErrArrayTypeError pos KArray KString), st)
      end
  | EStringArray unary =>
      match next with
      | EStringValues nextStringArray =>
          emit (StringArrayMatchesWrapper unary nextStringArray replCtx st) pos
            (notinOrPlain op objPos replCtx)
      | _ => (Failed pos (ErrArrayTypeError pos KArray KString), st)
      end
  | EInt unary =>
      match next with
      | EIntArray nextInt =>
          emit (IntArrayEquals ops unary nextInt replCtx st) pos
            (notinOrPlain op objPos replCtx)
      | _ => (Failed pos (ErrArrayTypeError pos KArray KInt), st)
      end
  | EIntArray unary =>
      match next with
      | EIntArray nextIntArray =>
          emit (IntArrayMatches ops unary nextIntArray replCtx st) pos
            (notinOrPlain op objPos replCtx)
      | _ => (Failed pos (ErrArrayTypeError pos KArray KInt), st)
      end
  | ECIDR unary =>
      match next with
      | ECIDR nextIP =>
          emit (CIDREquals ops unary nextIP replCtx st) objPos
            (fun boolEvaluator st =>
               if String.eqb op "in" || String.eqb op "allin" then
                 plain objPos boolEvaluator st
               else if String.eqb op "notin" then
                 negated objPos replCtx boolEvaluator st
               else Failed pos (ErrOpUnknown objPos op))
      | ECIDRValues nextCIDR =>
          if String.eqb op "in" || String.eqb op "allin" then
            emit (CIDRValuesContains ops unary nextCIDR replCtx st) pos
              (plain objPos)
          else if String.eqb op "notin" then
            emit (CIDRValuesContains ops unary nextCIDR replCtx st) pos
              (negated objPos replCtx)
          else (Failed pos (ErrOpUnknown objPos op), st)
      | ECIDRArray nextCIDR =>
          if String.eqb op "in" || String.eqb op "allin" then
            emit (CIDRArrayContains ops unary nextCIDR replCtx st) pos
              (plain objPos)
          else if String.eqb op "notin" then
            emit (CIDRArrayContains ops unary nextCIDR replCtx st) pos
              (negated objPos replCtx)
          else (Failed pos (ErrOpUnknown objPos op), st)
      | _ => (Failed pos (ErrCIDRTypeError pos KArray (typeName next)), st)
      end
  | ECIDRArray unary =>
      match next with
      | ECIDRValues nextCIDR =>
          if String.eqb op "in" then
            emit (CIDRArrayMatches ops unary nextCIDR replCtx st) pos
              (plain objPos)
          else if String.eqb op "allin" then
            emit (CIDRArrayMatchesAll ops unary nextCIDR replCtx st) pos
              (plain objPos)
          else if String.eqb op "notin" then
            emit (CIDRArrayMatches ops unary nextCIDR replCtx st) pos
              (negated objPos replCtx)
          else (Failed pos (ErrOpUnknown objPos op), st)
      | _ => (Failed pos (ErrCIDRTypeError pos KArray (typeName next)), st)
      end
  | ECIDRValues unary =>
      match next with
      | ECIDR nextCIDR =>
          if String.eqb op "in" || String.eqb op "allin" then
            emit (CIDRValuesContains ops nextCIDR unary replCtx st) objPos
              (plain objPos)
          else if String.eqb op "notin" then
            emit (CIDRValuesContains ops nextCIDR unary replCtx st) objPos
              (negated objPos replCtx)
          else (Failed pos (ErrOpUnknown objPos op), st)
      | ECIDRArray nextCIDR =>
          if String.eqb op "allin" then
            emit (CIDRArrayMatchesAll ops nextCIDR unary replCtx st) objPos
              (plain objPos)
          else if String.eqb op "in" then
            emit (CIDRArrayMatches ops nextCIDR unary replCtx st) pos
              (plain objPos)
          else if String.eqb op "notin" then
            emit (CIDRArrayMatches ops nextCIDR unary replCtx st) pos
              (negated objPos replCtx)
          else (Failed pos (ErrOpUnknown objPos op), st)
      | _ => (Failed pos (ErrCIDRTypeError pos KArray (typeName next)), st)
      end
  | _ => (Failed pos (ErrTypeError pos KArray), st)
  end.

(** The [obj.ScalarComparison != nil] branch of the [*ast.Comparison] case,
    from the type switch on [unary] on; [op] is
    [*obj.ScalarComparison.Op].  The cases that leave the switch without
    returning reach the last statement of the function. *)
Definition compareScalar (objPos pos : Position) (op : string)
           (unary next : Evaluator) (replCtx : EvalReplacementContext)
           (st : State) : Compiled * State :=
  match unary with
  | EBool unary =>
      match next with
      | EBool nextBool =>
          if String.eqb op "!=" then
            emit (BoolEquals ops unary nextBool replCtx st) pos
              (negated objPos replCtx)
          else if String.eqb op "==" then
            emit (BoolEquals ops unary nextBool replCtx st) pos (plain objPos)
          else (Failed pos (ErrOpUnknown objPos op), st)
      | _ => (Failed pos (ErrTypeError pos KBool), st)
      end
  | EBoolArray unary =>
      match next with
      | EBool nextBool =>
          if String.eqb op "!=" then
            emit (BoolArrayEquals ops nextBool unary replCtx st) pos
              (negated objPos replCtx)
          else if String.eqb op "==" then
            emit (BoolArrayEquals ops nextBool unary replCtx st) pos
              (plain objPos)
          else (Failed pos (ErrOpUnknown objPos op), st)
      | _ => (Failed pos (ErrTypeError pos KBool), st)
      end
  | EString unary =>
      match next with
      | EString nextString =>
          if String.eqb op "!=" then
            emit (StringEqualsWrapper unary nextString replCtx st) objPos
              (negated objPos replCtx)
          else if String.eqb op "!~" then
            match s_EvalFnc nextString with
            | Some _ =>
                (Failed objPos (ErrNonStaticPattern (s_Field nextString)), st)
            | None =>
                let '(nextString, st) := forcePattern nextString st in
                emit (StringEqualsWrapper (reread unary nextString) nextString
                        replCtx st) objPos
                  (negated objPos replCtx)
            end
          else if String.eqb op "==" then
            emit (StringEqualsWrapper unary nextString replCtx st) objPos
              (plain objPos)
          else if String.eqb op "=~" then
            match s_EvalFnc nextString with
            | Some _ =>
                (Failed objPos (ErrNonStaticPattern (s_Field nextString)), st)
            | None =>
                let '(nextString, st) := forcePattern nextString st in
                emit (StringEqualsWrapper (reread unary nextString) nextString
                        replCtx st) objPos
                  (plain objPos)
            end
          else (Failed pos (ErrOpUnknown objPos op), st)
      | _ => (Failed pos (ErrTypeError pos KString), st)
      end
  | ECIDR unary =>
      match next with
      | ECIDR nextIP =>
          if String.eqb op "!=" then
            emit (CIDREquals ops unary nextIP replCtx st) objPos
              (negated objPos replCtx)
          else if String.eqb op "==" then
            emit (CIDREquals ops unary nextIP replCtx st) objPos
              (plain objPos)
          else (Failed pos (ErrOpUnknown objPos op), st)
      | _ => (unknownEntity "*ast.Comparison", st)
      end
  | EStringArray unary =>
      match next with
      | EString nextString =>
          if String.eqb op "!=" then
            emit (StringArrayContainsWrapper nextString unary replCtx st)
              objPos (negated objPos replCtx)
          else if String.eqb op "==" then
            emit (StringArrayContainsWrapper nextString unary replCtx st)
              objPos (plain objPos)
          else if String.eqb op "!~" then
            match s_EvalFnc nextString with
            | Some _ =>
                (Failed objPos (ErrNonStaticPattern (s_Field nextString)), st)
            | None =>
                let '(nextString, st) := forcePattern nextString st in
                emit (StringArrayContainsWrapper nextString unary replCtx st)
                  objPos (negated objPos replCtx)
            end
          else if String.eqb op "=~" then
            match s_EvalFnc nextString with
            | Some _ =>
                (Failed objPos (ErrNonStaticPattern (s_Field nextString)), st)
            | None =>
                let '(nextString, st) := forcePattern nextString st in
                emit (StringArrayContainsWrapper nextString unary replCtx st)
                  objPos (plain objPos)
            end
          else (unknownEntity "*ast.Comparison", st)
      | _ => (Failed pos (ErrTypeError pos KString), st)
      end
  | EInt unary =>
      match next with
      | EInt nextInt =>
          if i_isDuration nextInt then
            if String.eqb op "<" then
              emit (DurationLesserThan ops unary nextInt replCtx st) objPos
                (plain objPos)
            else if String.eqb op "<=" then
              emit (DurationLesserOrEqualThan ops unary nextInt replCtx st)
                objPos (plain objPos)
            else if String.eqb op ">" then
              emit (DurationGreaterThan ops unary nextInt replCtx st) objPos
                (plain objPos)
            else if String.eqb op ">=" then
              emit (DurationGreaterOrEqualThan ops unary nextInt replCtx st)
                objPos (plain objPos)
            else (Failed pos (ErrTypeError pos KInt), st)
          else
            if String.eqb op "<" then
              emit (LesserThan ops unary nextInt replCtx st) objPos
                (plain objPos)
            else if String.eqb op "<=" then
              emit (LesserOrEqualThan ops unary nextInt replCtx st) objPos
                (plain objPos)
            else if String.eqb op ">" then
              emit (GreaterThan ops unary nextInt replCtx st) objPos
                (plain objPos)
            else if String.eqb op ">=" then
              emit (GreaterOrEqualThan ops unary nextInt replCtx st) objPos
                (plain objPos)
            else if String.eqb op "!=" then
              emit (IntEquals ops unary nextInt replCtx st) objPos
                (negated objPos replCtx)
            else if String.eqb op "==" then
              emit (IntEquals ops unary nextInt replCtx st) objPos
                (plain objPos)
            else (Failed pos (ErrOpUnknown objPos op), st)
      | EIntArray nextIntArray =>
          if String.eqb op "<" then
            emit (IntArrayLesserThan ops unary nextIntArray replCtx st) objPos
              (plain objPos)
          else if String.eqb op "<=" then
            emit (IntArrayLesserOrEqualThan ops unary nextIntArray replCtx st)
              objPos (plain objPos)
          else if String.eqb op ">" then
            emit (IntArrayGreaterThan ops unary nextIntArray replCtx st) objPos
              (plain objPos)
          else if String.eqb op ">=" then
            emit (IntArrayGreaterOrEqualThan ops unary nextIntArray replCtx st)
              objPos (plain objPos)
          else if String.eqb op "!=" then
            emit (IntArrayEquals ops unary nextIntArray replCtx st) objPos
              (negated objPos replCtx)
          else if String.eqb op "==" then
            emit (IntArrayEquals ops unary nextIntArray replCtx st) objPos
              (plain objPos)
          else (Failed pos (ErrOpUnknown objPos op), st)
      | _ => (Failed pos (ErrTypeError pos KInt), st)
      end
  | EIntArray unary =>
      match next with
      | EInt nextInt =>
          if String.eqb op "<" then
            emit (IntArrayGreaterThan ops nextInt unary replCtx st) objPos
              (plain objPos)
          else if String.eqb op "<=" then
            emit (IntArrayGreaterOrEqualThan ops nextInt unary replCtx st)
              objPos (plain objPos)
          else if String.eqb op ">" then
            emit (IntArrayLesserThan ops nextInt unary replCtx st) objPos
              (plain objPos)
          else if String.eqb op ">=" then
            emit (IntArrayLesserOrEqualThan ops nextInt unary replCtx st)
              objPos (plain objPos)
          else if String.eqb op "!=" then
            emit (IntArrayEquals ops nextInt unary replCtx st) objPos
              (negated objPos replCtx)
          else if String.eqb op "==" then
            emit (IntArrayEquals ops nextInt unary replCtx st) objPos
              (plain objPos)
          else (Failed pos (ErrOpUnknown objPos op), st)
      | _ => (Failed pos (ErrTypeError pos KInt), st)
      end
  | _ => (unknownEntity "*ast.Comparison", st)
  end.

(** The [*ast.Primary] case but for its sub-expression, which is the only
    recursive one. *)
Definition primaryLeaf (pos : Position) (ident cidr ip : option string)
           (number : option Z) (variable str pattern regex : option string)
           (duration : option Z) (replCtx : EvalReplacementContext)
           (st : State) : option (Compiled * State) :=
  match ident with
  | Some ident => Some (identToEvaluator pos ident replCtx st)
  | None =>
  match number with
  | Some number => Some (Done (EInt (mkIntEvaluator None number false)) pos, st)
  | None =>
  match variable with
  | Some variable =>
      match isVariableName variable with
      | (varname, true) => Some (evaluatorFromVariable varname pos replCtx, st)
      | (varname, false) =>
          Some (Failed pos
                  (ErrAstToEval pos
                     ("internal variable error '" ++ varname ++ "'")), st)
      end
  | None =>
  match duration with
  | Some duration =>
      Some (Done (EInt (mkIntEvaluator None duration true)) pos, st)
  | None =>
  match str with
  | Some str =>
      if Nat.ltb 0 (length (Regexp.FindAllIndex variableRegex str)) then
        Some (stringEvaluatorFromVariable str pos replCtx, st)
      else
        Some (Done (EString
                      (mkStringEvaluator None str ScalarValueType "" None None))
                pos, st)
  | None =>
  match pattern with
  | Some pattern =>
      Some (Done (EString
                    (mkStringEvaluator None pattern PatternValueType "" None
                       None))
              pos, st)
  | None =>
  match regex with
  | Some regex =>
      Some (Done (EString
                    (mkStringEvaluator None regex RegexpValueType "" None None))
              pos, st)
  | None =>
  match ip with
  | Some ip =>
      match ParseCIDR ext ip with
      | None =>
          Some (Failed pos (ErrAstToEval pos ("invalid IP '" ++ ip ++ "'")), st)
      | Some ipnet =>
          Some (Done (ECIDR (mkCIDREvaluator None (Some ipnet) IPNetValueType))
                  pos, st)
      end
  | None =>
  match cidr with
  | Some cidr =>
      match ParseCIDR ext cidr with
      | None =>
          Some (Failed pos
                  (ErrAstToEval pos ("invalid CIDR '" ++ cidr ++ "'")), st)
      | Some ipnet =>
          Some (Done (ECIDR (mkCIDREvaluator None (Some ipnet) IPNetValueType))
                  pos, st)
      end
  | None => None
  end end end end end end end end end.

(** [nodeToEvaluator], one function per case of its type switch. *)
Fixpoint booleanExpressionToEvaluator (obj : BooleanExpression)
         (replCtx : EvalReplacementContext) (st : State) {struct obj}
  : Compiled * State :=
  match obj with
  | mkBooleanExpression expression =>
      expressionToEvaluator expression replCtx st
  end

with expressionToEvaluator (obj : Expression)
       (replCtx : EvalReplacementContext) (st : State) {struct obj}
  : Compiled * State :=
  match obj with
  | mkExpression objPos comparison op next =>
      match comparisonToEvaluator comparison replCtx st with
      | (Panicked, st) => (Panicked, st)
      | (Failed pos err, st) => (Failed pos err, st)
      | (Done cmp pos, st) =>
          match op with
          | None => (Done cmp objPos, st)
          | Some op =>
              match cmp with
              | EBool cmpBool =>
                  match next with
                  | None => (Panicked, st)
                  | Some next =>
                  match booleanExpressionToEvaluator next replCtx st with
                  | (Panicked, st) => (Panicked, st)
                  | (Failed pos err, st) => (Failed pos err, st)
                  | (Done next pos, st) =>
                      match next with
                      | EBool nextBool =>
                          if String.eqb op "||" || String.eqb op "or" then
                            emit (Or ops cmpBool nextBool replCtx st) objPos
                              (plain objPos)
                          else if String.eqb op "&&" || String.eqb op "and" then
                            emit (And ops cmpBool nextBool replCtx st) objPos
                              (plain objPos)
                          else (Failed pos (ErrOpUnknown objPos op), st)
                      | _ => (Failed pos (ErrTypeError pos KBool), st)
                      end
                  end
                  end
              | _ => (Failed objPos (ErrTypeError objPos KBool), st)
              end
          end
      end
  end

with comparisonToEvaluator (obj : Comparison)
       (replCtx : EvalReplacementContext) (st : State) {struct obj}
  : Compiled * State :=
  match obj with
  | mkComparison objPos bitOperation scalarComparison arrayComparison =>
      match bitOperationToEvaluator bitOperation replCtx st with
      | (Panicked, st) => (Panicked, st)
      | (Failed pos err, st) => (Failed pos err, st)
      | (Done unary pos, st) =>
          match arrayComparison with
          | Some arrayComparison =>
              match arrayToEvaluator (ac_Array arrayComparison) replCtx st
              with
              | (Panicked, st) => (Panicked, st)
              | (Failed pos err, st) => (Failed pos err, st)
              | (Done next pos, st) =>
                  compareArray objPos pos (ac_Op arrayComparison) unary next
                    replCtx st
              end
          | None =>
              match scalarComparison with
              | Some scalarComparison =>
                  match scalarComparisonToEvaluator scalarComparison replCtx st
                  with
                  | (Panicked, st) => (Panicked, st)
                  | (Failed pos err, st) => (Failed pos err, st)
                  | (Done next pos, st) =>
                      compareScalar objPos pos
                        (match scalarComparison with
                         | mkScalarComparison _ op _ => op
                         end)
                        unary next replCtx st
                  end
              | None => (Done unary pos, st)
              end
          end
      end
  end

with scalarComparisonToEvaluator (obj : ScalarComparison)
       (replCtx : EvalReplacementContext) (st : State) {struct obj}
  : Compiled * State :=
  match obj with
  | mkScalarComparison _ _ next => comparisonToEvaluator next replCtx st
  end

with bitOperationToEvaluator (obj : BitOperation)
       (replCtx : EvalReplacementContext) (st : State) {struct obj}
  : Compiled * State :=
  match obj with
  | mkBitOperation objPos unary op next =>
      match unaryToEvaluator unary replCtx st with
      | (Panicked, st) => (Panicked, st)
      | (Failed pos err, st) => (Failed pos err, st)
      | (Done unary pos, st) =>
          match op with
          | None => (Done unary objPos, st)
          | Some op =>
              match unary with
              | EInt bitInt =>
                  match next with
                  | None => (Panicked, st)
                  | Some next =>
                  match bitOperationToEvaluator next replCtx st with
                  | (Panicked, st) => (Panicked, st)
                  | (Failed pos err, st) => (Failed pos err, st)
                  | (Done next pos, st) =>
                      match next with
                      | EInt nextInt =>
                          let done := fun e (_ : State) => Done (EInt e) objPos in
                          if String.eqb op "&" then
                            emitInt (IntAnd ops bitInt nextInt replCtx st) pos done
                          else if String.eqb op "|" then
                            emitInt (IntOr ops bitInt nextInt replCtx st) pos done
                          else if String.eqb op "^" then
                            emitInt (IntXor ops bitInt nextInt replCtx st) pos done
                          else (Failed pos (ErrOpUnknown objPos op), st)
                      | _ => (Failed pos (ErrTypeError pos KInt), st)
                      end
                  end
                  end
              | _ => (Failed objPos (ErrTypeError objPos KInt), st)
              end
          end
      end
  end

with unaryToEvaluator (obj : Unary)
       (replCtx : EvalReplacementContext) (st : State) {struct obj}
  : Compiled * State :=
  match obj with
  | mkUnary objPos op unary primary =>
      match op with
      | Some op =>
          match unary with
          | None => (Panicked, st)
          | Some unary =>
          match unaryToEvaluator unary replCtx st with
          | (Panicked, st) => (Panicked, st)
          | (Failed pos err, st) => (Failed pos err, st)
          | (Done unary pos, st) =>
              if String.eqb op "!" || String.eqb op "not" then
                match unary with
                | EBool unaryBool =>
                    (Done (EBool (Not unaryBool replCtx st)) objPos, st)
                | _ => (Failed pos (ErrTypeError pos KBool), st)
                end
              else if String.eqb op "-" then
                match unary with
                | EInt unaryInt =>
                    let '(e, st) := Minus ops unaryInt replCtx st in
                    (Done (EInt e) pos, st)
                | _ => (Failed pos (ErrTypeError pos KInt), st)
                end
              else if String.eqb op "^" then
                match unary with
                | EInt unaryInt =>
                    let '(e, st) := IntNot ops unaryInt replCtx st in
                    (Done (EInt e) pos, st)
                | _ => (Failed pos (ErrTypeError pos KInt), st)
                end
              else (Failed pos (ErrOpUnknown objPos op), st)
          end
          end
      | None =>
          match primary with
          | None => (Panicked, st)
          | Some primary => primaryToEvaluator primary replCtx st
          end
      end
  end

with primaryToEvaluator (obj : Primary)
       (replCtx : EvalReplacementContext) (st : State) {struct obj}
  : Compiled * State :=
  match obj with
  | mkPrimary pos ident cidr ip number variable str pattern regex duration
      subExpression =>
      match primaryLeaf pos ident cidr ip number variable str pattern regex
              duration replCtx st with
      | Some r => r
      | None =>
          match subExpression with
          | Some subExpression =>
              expressionToEvaluator subExpression replCtx st
          | None =>
              (Failed pos
                 (ErrAstToEval pos "unknown primary '*ast.Primary'"), st)
          end
      end
  end.

Definition nodeToEvaluator (obj : Node) (replCtx : EvalReplacementContext)
           (st : State) : Compiled * State :=
  match obj with
  | NBooleanExpression obj => booleanExpressionToEvaluator obj replCtx st
  | NExpression obj => expressionToEvaluator obj replCtx st
  | NBitOperation obj => bitOperationToEvaluator obj replCtx st
  | NComparison obj => comparisonToEvaluator obj replCtx st
  | NArrayComparison obj => arrayToEvaluator (ac_Array obj) replCtx st
  | NScalarComparison obj => scalarComparisonToEvaluator obj replCtx st
  | NUnary obj => unaryToEvaluator obj replCtx st
  | NPrimary obj => primaryToEvaluator obj replCtx st
  | NArray obj => arrayToEvaluator obj replCtx st
  end.

End Eval.

(** ** Syntax trees of operands

    The tree that the grammar builds for an operand made of one primary: the
    primary under a unary, a bit operation and a comparison without
    operator. *)
Definition identPrimary (pos : Position) (name : string) : Primary :=
  mkPrimary pos (Some name) None None None None None None None None None.

Definition numberPrimary (pos : Position) (n : Z) : Primary :=
  mkPrimary pos None None None (Some n) None None None None None None.

Definition durationPrimary (pos : Position) (d : Z) : Primary :=
  mkPrimary pos None None None None None None None None (Some d) None.

Definition stringPrimary (pos : Position) (s : string) : Primary :=
  mkPrimary pos None None None None None (Some s) None None None None.

Definition bitOf (p : Primary) : BitOperation :=
  match p with
  | mkPrimary pos _ _ _ _ _ _ _ _ _ _ =>
      mkBitOperation pos (mkUnary pos None None (Some p)) None None
  end.

Definition operand (p : Primary) : Comparison :=
  match p with
  | mkPrimary pos _ _ _ _ _ _ _ _ _ _ => mkComparison pos (bitOf p) None None
  end.

(** ** The override dispatch in the words of the specification *)








(** ** String interpolation in the words of the specification *)

(** A string literal is a sequence of literal substrings and of variable
    references; a reference is written [${name}]. *)
Inductive Part :=
| PLit (text : string)
| PVar (name : string).





Definition literal (l : list ascii) : list Part :=
  match l with
  | [] => []
  | _ => [PLit (string_of_list_ascii l)]
  end.





Section Interpolation.

Context {Context IPNet StringValues CIDRValues : Type}.

#[local] Abbreviation Evaluator := (@Evaluator Context IPNet StringValues CIDRValues).





End Interpolation.

(** ** The walk along the dotted path in the words of the specification *)



(** ** What it means for a rule to compile to a combinator *)

(** [compilesTo r c objPos neg replCtx]: the rule whose compilation is [r]
    compiles to the combinator call whose outcome is [c].  When the
    combinator returns an evaluator, the rule compiles to it (wrapped in
    [Not] when [neg] is set) at the position [objPos] of the comparison, in
    the state the combinator leaves; when the combinator fails, the rule
    fails with the error of the combinator. *)
Definition compilesTo {Context Iterator IPNet StringValues CIDRValues MacroStore : Type}
    (r : @Compiled Context IPNet StringValues CIDRValues
         * @State Context Iterator IPNet StringValues CIDRValues)
    (c : (@BoolEvaluator Context + error)
         * @State Context Iterator IPNet StringValues CIDRValues)
    (objPos : Position) (neg : bool)
    (replCtx : @EvalReplacementContext Context IPNet StringValues CIDRValues MacroStore)
  : Prop :=
  match c with
  | (inl boolEvaluator, st') =>
      r = (Done (EBool (if neg then Not boolEvaluator replCtx st'
                        else boolEvaluator)) objPos, st')
  | (inr err, st') => r = (Failed objPos err, st')
  end.




(** ** Definitions used in the statements and in the proofs *)



Section Invariants.

Context {Context Iterator IPNet StringValues CIDRValues MacroStore : Type}.

#[local] Abbreviation State := (@State Context Iterator IPNet StringValues CIDRValues).
#[local] Abbreviation ReplCtx :=
  (@EvalReplacementContext Context IPNet StringValues CIDRValues MacroStore).
#[local] Abbreviation StringEvaluator := (@StringEvaluator Context).

(** The regular-expression cache holds nothing or the compiled patterns:
    [extractField] is its only writer. *)
Definition cacheSound (st : State) : Prop :=
  (arraySubscriptFindRE (regexpCache_ st) = None
   \/ arraySubscriptFindRE (regexpCache_ st) = Some arraySubscriptFindRE_pattern)
  /\ (arraySubscriptReplaceRE (regexpCache_ st) = None
      \/ arraySubscriptReplaceRE (regexpCache_ st)
         = Some arraySubscriptReplaceRE_pattern).


End Invariants.

(** ** A small host

    A model, a variable store, operator overrides and operator combinators
    to run the compiler on: integer, string and network fields read from a
    context, networks kept in their textual form, combinators that build a
    function evaluator from the values of their operands (durations are
    window widths measured from the [now] of the context, patterns are globs
    whose only wildcard is the star). *)
Module Demo.

Record Ctx := mkCtx {
  now : Z;
  ints : gmap string Z;
  strs : gmap string string;
  nets : gmap string string;
  strArrays : gmap string (list string)
}.

Definition BoolEv := @BoolEvaluator Ctx.
Definition IntEv := @IntEvaluator Ctx.
Definition StringEv := @StringEvaluator Ctx.
Definition CIDREv := @CIDREvaluator Ctx string.
Definition Ev := @Evaluator Ctx string (list StringMember) (list string).
Definition St := @State Ctx string string (list StringMember) (list string).
Definition ReplCtx :=
  @EvalReplacementContext Ctx string (list StringMember) (list string) unit.
Definition Result := @Compiled Ctx string (list StringMember) (list string).
Definition Mdl := @Model Ctx string string (list StringMember) (list string).
Definition Ext := @Externals string (list StringMember) (list string).
Definition Ops :=
  @Operators Ctx string string (list StringMember) (list string) unit.
Definition Ovr :=
  @Overrides Ctx string string (list StringMember) (list string) unit.

Definition intAccessor (field : Field) : IntEv :=
  mkIntEvaluator (Some (fun ctx => Some (default 0%Z (ints ctx !! field))))
    0 false.

Definition stringAccessor (field : Field) (ov : option OpOverrides) : StringEv :=
  mkStringEvaluator (Some (fun ctx => Some (default "" (strs ctx !! field))))
    "" ScalarValueType field ov None.

Definition cidrAccessor (field : Field) : CIDREv :=
  mkCIDREvaluator (Some (fun ctx => Some (default "" (nets ctx !! field))))
    None IPNetValueType.

Definition intField (field : Field) : Ev := EInt (intAccessor field).

Definition stringField (field : Field) (ov : option OpOverrides) : Ev :=
  EString (stringAccessor field ov).

Definition cidrField (field : Field) : Ev := ECIDR (cidrAccessor field).

Definition stringArrayField (field : Field) (ov : option OpOverrides) : Ev :=
  EStringArray (mkStringArrayEvaluator
                  (Some (fun ctx => Some (default [] (strArrays ctx !! field))))
                  [] ov).

Definition iteratorFields : list Field :=
  ["process.ancestors"; "p.a"; "p.b"; "x.y"].

Definition intFields : list Field :=
  ["p.a.f"; "p.b.g"; "file.size"; "event.age"; "open.flags"; "x.y.c"].

Definition stringFields : list Field :=
  ["process.name"; "process.ancestors.name"; "exec.path"].

Definition cidrFields : list Field := ["connect.dest"; "network.allowed"].

Definition member (x : string) (l : list string) : bool :=
  existsb (String.eqb x) l.

Definition demoModel : Mdl :=
  mkModel
    (fun field =>
       if member field iteratorFields then inl field
       else inr (ErrHost ("iterator not found: " ++ field)))
    (fun field _ =>
       if member field intFields then inl (intField field)
       else if member field stringFields then inl (stringField field None)
       else if String.eqb field "process.comm" then
         inl (stringField field
                (Some (mkOpOverrides (Some "caseInsensitive") None None None)))
       else if member field cidrFields then inl (cidrField field)
       else if String.eqb field "process.args" then
         inl (stringArrayField field None)
       else if String.eqb field "process.token" then
         inl (stringField field
                (Some (mkOpOverrides (Some "reject") None None None)))
       else if String.eqb field "process.owner" then
         inl (stringField field
                (Some (mkOpOverrides None (Some "ofString") None None)))
       else if String.eqb field "process.tags" then
         inl (stringArrayField field
                (Some (mkOpOverrides None (Some "ofArray") None None)))
       else inr (ErrHost ("field not found: " ++ field))).

(** The identifiers handed out by the generator: [r0000000], [r0000001],
    and so on. *)
Fixpoint zeros (n : nat) : string :=
  match n with
  | O => ""
  | S n' => String "0" (zeros n')
  end.

Definition demoRandString (n k : nat) : RegisterID :=
  let digits := FormatInt (Z.of_nat k) in
  "r" ++ zeros (n - 1 - String.length digits) ++ digits.

Definition demoExt : Ext :=
  mkExternals demoRandString
    (fun s => Some s)
    (fun members => mkStringValuesEvaluator members)
    []
    (fun values s => Some (values ++ [s])%list)
    (fun values s => Some (values ++ [s])%list).

Definition st0 : St :=
  mkState demoModel ∅ ∅ (mkRegexpCache None None) ∅ 0 ∅.

Definition demoVariables : gmap string Ev :=
  <["user" := EString (mkStringEvaluator
                         (Some (fun ctx => Some (default "" (strs ctx !! "user"))))
                         "" ScalarValueType "" None None)]>
  (<["pid" := EInt (mkIntEvaluator
                      (Some (fun ctx => Some (default 0%Z (ints ctx !! "pid"))))
                      0 false)]>
  (<["dirs" := EStringArray
                 (mkStringArrayEvaluator
                    (Some (fun ctx => Some (default [] (strArrays ctx !! "dirs"))))
                    [] None)]>
  (<["flag" := EBool (mkBoolEvaluator None true)]>
  (<["limit" := EInt (mkIntEvaluator None 42 false)]> ∅)))).

Definition replCtx0 : ReplCtx :=
  mkEvalReplacementContext (mkOpts ∅ ∅ demoVariables) tt.

(** Options with a constant: the scalar string [K]. *)
Definition demoConstants : gmap string Ev :=
  <["K" := EString (mkStringEvaluator None "ab*" ScalarValueType "" None None)]>
  ∅.

Definition replCtxConstants : ReplCtx :=
  mkEvalReplacementContext (mkOpts demoConstants ∅ demoVariables) tt.


(** A legacy table that renames the field [a.b.c] and the iterator field
    [a.b]. *)
Definition legacyTable : gmap Field Field :=
  <["a.b.c" := "x.y.c"]> (<["a.b" := "x.y"]> ∅).

Definition replCtxLegacy : ReplCtx :=
  mkEvalReplacementContext (mkOpts ∅ legacyTable ∅) tt.

(** Values of the evaluators at a context. *)
Definition valInt (e : IntEv) (ctx : Ctx) : option Z :=
  match i_EvalFnc e with Some f => f ctx | None => Some (i_Value e) end.

Definition valCIDR (e : CIDREv) (ctx : Ctx) : option string :=
  match c_EvalFnc e with Some f => f ctx | None => c_Value e end.

Definition valBools (e : @BoolArrayEvaluator Ctx) (ctx : Ctx) :=
  match ba_EvalFnc e with Some f => f ctx | None => Some (ba_Values e) end.

Definition valInts (e : @IntArrayEvaluator Ctx) (ctx : Ctx) :=
  match ia_EvalFnc e with Some f => f ctx | None => Some (ia_Values e) end.

Definition valStrings (e : @StringArrayEvaluator Ctx) (ctx : Ctx) :=
  match sa_EvalFnc e with Some f => f ctx | None => Some (sa_Values e) end.

Definition valCIDRs (e : @CIDRArrayEvaluator Ctx string) (ctx : Ctx) :=
  match ca_EvalFnc e with Some f => f ctx | None => Some (ca_Value e) end.

(** A combinator that applies [f] to the values of its operands. *)
Definition lift2 {A B X Y : Type} (va : A -> Ctx -> option X)
           (vb : B -> Ctx -> option Y) (f : X -> Y -> bool)
  : A -> B -> ReplCtx -> St -> (BoolEv + error) * St :=
  fun a b _ st =>
    (inl (mkBoolEvaluator
            (Some (fun ctx =>
                     match va a ctx, vb b ctx with
                     | Some x, Some y => Some (f x y)
                     | _, _ => None
                     end))
            false),
     st).

Definition liftInt (f : Z -> Z -> Z)
  : IntEv -> IntEv -> ReplCtx -> St -> (IntEv + error) * St :=
  fun a b _ st =>
    (inl (mkIntEvaluator
            (Some (fun ctx =>
                     match valInt a ctx, valInt b ctx with
                     | Some x, Some y => Some (f x y)
                     | _, _ => None
                     end))
            0 false),
     st).

Definition liftInt1 (f : Z -> Z) : IntEv -> ReplCtx -> St -> IntEv * St :=
  fun a _ st =>
    (mkIntEvaluator (Some (fun ctx => f <$> valInt a ctx)) 0 false, st).

(** Glob matching: the star stands for any run of bytes. *)
Fixpoint glob (p s : list ascii) : bool :=
  match p with
  | [] => match s with [] => true | _ => false end
  | c :: p' =>
      if Ascii.eqb c "*" then
        (fix skip (s : list ascii) : bool :=
           glob p' s || match s with [] => false | _ :: s' => skip s' end) s
      else
        match s with
        | x :: s' => Ascii.eqb c x && glob p' s'
        | [] => false
        end
  end.

(** What a right-hand string evaluator matches, by its value type. *)
Definition matches (ty : FieldValueType) (pat s : string) : bool :=
  match ty with
  | PatternValueType => glob (list_ascii_of_string pat) (list_ascii_of_string s)
  | _ => String.eqb pat s
  end.

Definition memberMatches (m : StringMember) (s : string) : bool :=
  match sm_Pattern m with
  | Some p => matches PatternValueType p s
  | None => String.eqb (default "" (sm_String m)) s
  end.

Definition demoOps : Ops :=
  {| Or := lift2 evalBool evalBool orb;
     And := lift2 evalBool evalBool andb;
     IntAnd := liftInt Z.land;
     IntOr := liftInt Z.lor;
     IntXor := liftInt Z.lxor;
     Minus := liftInt1 Z.opp;
     IntNot := liftInt1 Z.lnot;
     BoolEquals := lift2 evalBool evalBool Bool.eqb;
     BoolArrayEquals := lift2 evalBool valBools (fun x l => existsb (Bool.eqb x) l);
     ArrayBoolContains := lift2 evalBool valBools (fun x l => existsb (Bool.eqb x) l);
     StringEquals :=
       fun a b => lift2 evalString evalString
                    (fun x y => matches (s_ValueType b) y x) a b;
     StringArrayContains :=
       fun a b => lift2 evalString valStrings
                    (fun x l => existsb (matches (s_ValueType a) x) l) a b;
     StringValuesContains :=
       lift2 evalString (fun b _ => Some (sv_Values b))
         (fun x l => existsb (fun m => memberMatches m x) l);
     StringArrayMatches :=
       lift2 valStrings (fun b _ => Some (sv_Values b))
         (fun xs l => existsb (fun x => existsb (fun m => memberMatches m x) l) xs);
     IntEquals := lift2 valInt valInt Z.eqb;
     LesserThan := lift2 valInt valInt Z.ltb;
     LesserOrEqualThan := lift2 valInt valInt Z.leb;
     GreaterThan := lift2 valInt valInt Z.gtb;
     GreaterOrEqualThan := lift2 valInt valInt Z.geb;
     DurationLesserThan :=
       lift2 (fun a ctx => Z.sub (now ctx) <$> valInt a ctx) valInt Z.ltb;
     DurationLesserOrEqualThan :=
       lift2 (fun a ctx => Z.sub (now ctx) <$> valInt a ctx) valInt Z.leb;
     DurationGreaterThan :=
       lift2 (fun a ctx => Z.sub (now ctx) <$> valInt a ctx) valInt Z.gtb;
     DurationGreaterOrEqualThan :=
       lift2 (fun a ctx => Z.sub (now ctx) <$> valInt a ctx) valInt Z.geb;
     IntArrayEquals := lift2 valInt valInts (fun x l => existsb (Z.eqb x) l);
     IntArrayLesserThan := lift2 valInt valInts (fun x l => existsb (Z.ltb x) l);
     IntArrayLesserOrEqualThan :=
       lift2 valInt valInts (fun x l => existsb (Z.leb x) l);
     IntArrayGreaterThan := lift2 valInt valInts (fun x l => existsb (Z.gtb x) l);
     IntArrayGreaterOrEqualThan :=
       lift2 valInt valInts (fun x l => existsb (Z.geb x) l);
     IntArrayMatches :=
       lift2 valInts valInts
         (fun xs l => existsb (fun x => existsb (Z.eqb x) l) xs);
     CIDREquals := lift2 valCIDR valCIDR String.eqb;
     CIDRValuesContains :=
       lift2 valCIDR (fun b _ => Some (cv_Value b)) member;
     CIDRArrayContains := lift2 valCIDR valCIDRs member;
     CIDRArrayMatches :=
       lift2 valCIDRs (fun b _ => Some (cv_Value b))
         (fun xs l => existsb (fun x => member x l) xs);
     CIDRArrayMatchesAll :=
       lift2 valCIDRs (fun b _ => Some (cv_Value b))
         (fun xs l => forallb (fun x => member x l) xs) |}.

(** Lower-casing of ASCII letters, for the case-insensitive override. *)
Definition lowerByte (c : ascii) : ascii :=
  let n := nat_of_ascii c in
  if Nat.leb 65 n && Nat.leb n 90 then ascii_of_nat (n + 32) else c.

Fixpoint lower (s : string) : string :=
  match s with
  | EmptyString => EmptyString
  | String c s' => String (lowerByte c) (lower s')
  end.

(** The host functions behind the override tables: [caseInsensitive]
    compares lower-cased strings, [reject] refuses every comparison,
    [ofString] and [ofArray] refuse the comparison in the name of the operand
    that carries them, any other name behaves as the combinator it
    overrides. *)
Definition demoHost : Ovr :=
  {| code_StringEquals := fun f a b replCtx st =>
       if String.eqb f "caseInsensitive" then
         lift2 evalString evalString
           (fun x y => matches (s_ValueType b) (lower y) (lower x))
           a b replCtx st
       else if String.eqb f "reject" then
         (inr (ErrHost "comparison refused"), st)
       else StringEquals demoOps a b replCtx st;
     code_StringArrayContains := fun f a b replCtx st =>
       if String.eqb f "ofString" then
         (inr (ErrHost "refused by the override of the string"), st)
       else if String.eqb f "ofArray" then
         (inr (ErrHost "refused by the override of the array"), st)
       else StringArrayContains demoOps a b replCtx st;
     code_StringValuesContains := fun _ => StringValuesContains demoOps;
     code_StringArrayMatches := fun _ => StringArrayMatches demoOps |}.

(** The nodes of the examples sit on line 1, at the column given. *)
Definition at_ (col : Z) : Position := mkPosition "" col 1 col.

Definition identP (col : Z) (name : string) : Primary :=
  identPrimary (at_ col) name.

Definition numberP (col : Z) (n : Z) : Primary := numberPrimary (at_ col) n.

Definition durationP (col : Z) (d : Z) : Primary := durationPrimary (at_ col) d.

Definition stringP (col : Z) (s : string) : Primary := stringPrimary (at_ col) s.

(** [lhs op rhs] *)
Definition scalarCmp (lhs : Primary) (col : Z) (op : string) (rhs : Primary)
  : Comparison :=
  match lhs with
  | mkPrimary pos _ _ _ _ _ _ _ _ _ _ =>
      mkComparison pos (bitOf lhs)
        (Some (mkScalarComparison (at_ col) op (operand rhs))) None
  end.

(** [lhs op array] *)
Definition arrayCmp (lhs : Primary) (col : Z) (op : string) (array : Array)
  : Comparison :=
  match lhs with
  | mkPrimary pos _ _ _ _ _ _ _ _ _ _ =>
      mkComparison pos (bitOf lhs) None
        (Some (mkArrayComparison (at_ col) op array))
  end.

Definition identArray (col : Z) (name : string) : Array :=
  mkArray (at_ col) None None (Some name) [] [] [].


(** [c1 && c2] *)
Definition andExpr (c1 : Comparison) (col : Z) (c2 : Comparison) : Expression :=
  match c1 with
  | mkComparison pos _ _ _ =>
      mkExpression pos c1 (Some "&&")
        (Some (mkBooleanExpression
                 (match c2 with
                  | mkComparison pos2 _ _ _ => mkExpression pos2 c2 None None
                  end)))
  end.

(** [p.a[x].f == 1 && p.b[x].g == 2] for a register written [x]. *)
Definition conflictRule (x : string) : Expression :=
  andExpr (scalarCmp (identP 0 ("p.a[" ++ x ++ "].f")) 10 "==" (numberP 13 1))
    18 (scalarCmp (identP 21 ("p.b[" ++ x ++ "].g")) 31 "==" (numberP 34 2)).

Definition compile (e : Expression) : Result * St :=
  expressionToEvaluator demoExt demoOps demoHost e replCtx0 st0.

Definition compileCmp (c : Comparison) :=
  comparisonToEvaluator demoExt demoOps demoHost c replCtx0 st0.

(** The value of a compiled rule at a context; [None] when the rule did not
    compile to a boolean. *)
Definition verdict (r : Result) (ctx : Ctx) : option bool :=
  match r with
  | Done (EBool b) _ => evalBool b ctx
  | _ => None
  end.

End Demo.

(** ** Shapes of identifiers, of operators and of syntax trees *)

(** The bytes that never occur in a segment of a field name: the brackets
    of a subscript and the newline. *)
Definition segmentByte (c : ascii) : bool :=
  negb (Ascii.eqb c "[") && negb (Ascii.eqb c "]")
  && negb (Ascii.eqb c "010"%char).

Definition segment (s : string) : bool :=
  forallb segmentByte (list_ascii_of_string s).

(** Number of nodes of a syntax tree. *)
Fixpoint sizeBooleanExpression (obj : BooleanExpression) : nat :=
  match obj with
  | mkBooleanExpression expression => S (sizeExpression expression)
  end

with sizeExpression (obj : Expression) : nat :=
  match obj with
  | mkExpression _ comparison _ next =>
      S (sizeComparison comparison
         + match next with
           | Some next => sizeBooleanExpression next
           | None => 0
           end)
  end

with sizeComparison (obj : Comparison) : nat :=
  match obj with
  | mkComparison _ bitOperation scalarComparison _ =>
      S (sizeBitOperation bitOperation
         + match scalarComparison with
           | Some scalarComparison => sizeScalarComparison scalarComparison
           | None => 0
           end)
  end

with sizeScalarComparison (obj : ScalarComparison) : nat :=
  match obj with
  | mkScalarComparison _ _ next => S (sizeComparison next)
  end

with sizeBitOperation (obj : BitOperation) : nat :=
  match obj with
  | mkBitOperation _ unary _ next =>
      S (sizeUnary unary
         + match next with
           | Some next => sizeBitOperation next
           | None => 0
           end)
  end

with sizeUnary (obj : Unary) : nat :=
  match obj with
  | mkUnary _ _ unary primary =>
      S (match unary with
         | Some unary => sizeUnary unary
         | None => 0
         end
         + match primary with
           | Some primary => sizePrimary primary
           | None => 0
           end)
  end

with sizePrimary (obj : Primary) : nat :=
  match obj with
  | mkPrimary _ _ _ _ _ _ _ _ _ _ subExpression =>
      S (match subExpression with
         | Some subExpression => sizeExpression subExpression
         | None => 0
         end)
  end.

(** A tree as the grammar builds it: an operator comes with its right
    operand, a unary operator with its operand, and a unary without operator
    with its primary. *)
Fixpoint wfBooleanExpression (obj : BooleanExpression) : bool :=
  match obj with
  | mkBooleanExpression expression => wfExpression expression
  end

with wfExpression (obj : Expression) : bool :=
  match obj with
  | mkExpression _ comparison op next =>
      wfComparison comparison
      && match op with
         | Some _ =>
             match next with
             | Some next => wfBooleanExpression next
             | None => false
             end
         | None => true
         end
  end

with wfComparison (obj : Comparison) : bool :=
  match obj with
  | mkComparison _ bitOperation scalarComparison _ =>
      wfBitOperation bitOperation
      && match scalarComparison with
         | Some scalarComparison => wfScalarComparison scalarComparison
         | None => true
         end
  end

with wfScalarComparison (obj : ScalarComparison) : bool :=
  match obj with
  | mkScalarComparison _ _ next => wfComparison next
  end

with wfBitOperation (obj : BitOperation) : bool :=
  match obj with
  | mkBitOperation _ unary op next =>
      wfUnary unary
      && match op with
         | Some _ =>
             match next with
             | Some next => wfBitOperation next
             | None => false
             end
         | None => true
         end
  end

with wfUnary (obj : Unary) : bool :=
  match obj with
  | mkUnary _ op unary primary =>
      match op with
      | Some _ =>
          match unary with
          | Some unary => wfUnary unary
          | None => false
          end
      | None =>
          match primary with
          | Some primary => wfPrimary primary
          | None => false
          end
      end
  end

with wfPrimary (obj : Primary) : bool :=
  match obj with
  | mkPrimary _ _ _ _ _ _ _ _ _ _ subExpression =>
      match subExpression with
      | Some subExpression => wfExpression subExpression
      | None => true
      end
  end.

Definition wfNode (obj : Node) : bool :=
  match obj with
  | NBooleanExpression obj => wfBooleanExpression obj
  | NExpression obj => wfExpression obj
  | NBitOperation obj => wfBitOperation obj
  | NComparison obj => wfComparison obj
  | NArrayComparison _ => true
  | NScalarComparison obj => wfScalarComparison obj
  | NUnary obj => wfUnary obj
  | NPrimary obj => wfPrimary obj
  | NArray _ => true
  end.

Section Growth.

Context {Context Iterator IPNet StringValues CIDRValues MacroStore : Type}.

#[local] Abbreviation State := (@State Context Iterator IPNet StringValues CIDRValues).
#[local] Abbreviation ReplCtx :=
  (@EvalReplacementContext Context IPNet StringValues CIDRValues MacroStore).

(** [grows st st']: the state [st'] holds what [st] held.  The model is the
    same, a macro holds what it held or, if it held a scalar string
    evaluator, that evaluator promoted to pattern, no field of the rule is
    forgotten, a register that was bound is still bound to the same iterator
    field and to the same iterator and has lost no sub-field, the generator
    has not gone back, and a constant that was written to still is. *)
Definition grows (st st' : State) : Prop :=
  model st' = model st
  /\ (forall id,
        macros st' !! id = macros st !! id
        \/ exists e,
             macros st !! id = Some (EString e)
             /\ s_ValueType e = ScalarValueType
             /\ macros st' !! id = Some (EString (promote e)))
  /\ fields st ⊆ fields st'
  /\ (forall regID info,
        registersInfo st !! regID = Some info ->
        exists info',
          registersInfo st' !! regID = Some info'
          /\ ri_field info' = ri_field info
          /\ ri_iterator info' = ri_iterator info
          /\ forall field, ri_subFields info !! field = Some true ->
                           ri_subFields info' !! field = Some true)
  /\ randDraws st <= randDraws st'
  /\ promotedConstants st ⊆ promotedConstants st'.

Definition combinatorGrows {A B : Type}
    (c : A -> B -> ReplCtx -> State -> (@BoolEvaluator Context + error) * State)
  : Prop :=
  forall a b replCtx st, grows st (snd (c a b replCtx st)).

Definition intCombinatorGrows
    (c : @IntEvaluator Context -> @IntEvaluator Context -> ReplCtx -> State ->
         (@IntEvaluator Context + error) * State)
  : Prop :=
  forall a b replCtx st, grows st (snd (c a b replCtx st)).

Definition unaryCombinatorGrows
    (c : @IntEvaluator Context -> ReplCtx -> State ->
         @IntEvaluator Context * State)
  : Prop :=
  forall a replCtx st, grows st (snd (c a replCtx st)).

(** Every operator combinator hands back a state that holds what the state
    it received held. *)
Definition operatorsGrow
    (ops : @Operators Context Iterator IPNet StringValues CIDRValues MacroStore)
  : Prop :=
  combinatorGrows (Or ops) /\ combinatorGrows (And ops)
  /\ intCombinatorGrows (IntAnd ops) /\ intCombinatorGrows (IntOr ops)
  /\ intCombinatorGrows (IntXor ops)
  /\ unaryCombinatorGrows (Minus ops) /\ unaryCombinatorGrows (IntNot ops)
  /\ combinatorGrows (BoolEquals ops) /\ combinatorGrows (BoolArrayEquals ops)
  /\ combinatorGrows (ArrayBoolContains ops)
  /\ combinatorGrows (StringEquals ops)
  /\ combinatorGrows (StringArrayContains ops)
  /\ combinatorGrows (StringValuesContains ops)
  /\ combinatorGrows (StringArrayMatches ops)
  /\ combinatorGrows (IntEquals ops) /\ combinatorGrows (LesserThan ops)
  /\ combinatorGrows (LesserOrEqualThan ops)
  /\ combinatorGrows (GreaterThan ops)
  /\ combinatorGrows (GreaterOrEqualThan ops)
  /\ combinatorGrows (DurationLesserThan ops)
  /\ combinatorGrows (DurationLesserOrEqualThan ops)
  /\ combinatorGrows (DurationGreaterThan ops)
  /\ combinatorGrows (DurationGreaterOrEqualThan ops)
  /\ combinatorGrows (IntArrayEquals ops)
  /\ combinatorGrows (IntArrayLesserThan ops)
  /\ combinatorGrows (IntArrayLesserOrEqualThan ops)
  /\ combinatorGrows (IntArrayGreaterThan ops)
  /\ combinatorGrows (IntArrayGreaterOrEqualThan ops)
  /\ combinatorGrows (IntArrayMatches ops)
  /\ combinatorGrows (CIDREquals ops)
  /\ combinatorGrows (CIDRValuesContains ops)
  /\ combinatorGrows (CIDRArrayContains ops)
  /\ combinatorGrows (CIDRArrayMatches ops)
  /\ combinatorGrows (CIDRArrayMatchesAll ops).

(** And so does every host function that an override table may name. *)
Definition overridesGrow
    (host : @Overrides Context Iterator IPNet StringValues CIDRValues MacroStore)
  : Prop :=
  (forall f, combinatorGrows (code_StringEquals host f))
  /\ (forall f, combinatorGrows (code_StringArrayContains host f))
  /\ (forall f, combinatorGrows (code_StringValuesContains host f))
  /\ (forall f, combinatorGrows (code_StringArrayMatches host f)).

End Growth.

(** ** The remote-configuration policy provider ([package rconfig]) *)

(** [strings.Index(s, sep)] for a one-byte separator: [None] stands
    for -1. *)
Fixpoint IndexByte (sep : ascii) (s : string) : option nat :=
  match s with
  | EmptyString => None
  | String c s' =>
      if Ascii.eqb c sep then Some 0 else S <$> IndexByte sep s'
  end.

(** [strings.SplitN(s, sep, n)] for a one-byte separator and [n >= 0]: at
    most [n] pieces, the last one being the unsplit remainder. *)
Fixpoint SplitN (sep : ascii) (s : string) (n : nat) : list string :=
  match n with
  | O => []
  | S n' =>
      match n' with
      | O => [s]
      | S _ =>
          match IndexByte sep s with
          | None => [s]
          | Some m =>
              strSlice s 0 m
              :: SplitN sep (strSlice s (m + 1) (String.length s)) n'
          end
      end
  end.

Module RConfig.

Section Provider.

(** What the provider does not look into: the rest of a policy, the client,
    the callback and the errors of the loader. *)
Context {PolicyBody Client Callback Error : Type}.

(** [rules.Policy]: its name and the rest of it. *)
Record Policy := mkPolicy {
  Name : string;
  Body : PolicyBody
}.

(** [client.ConfigCWSDD]: the fields that the provider reads. *)
Record ConfigCWSDD := mkConfigCWSDD {
  Config : list Byte.byte;
  ID : string
}.

(** [RCPolicyProvider], without its lock: the embedding is sequential. *)
Record RCPolicyProvider := mkRCPolicyProvider {
  client : Client;
  onNewPoliciesReadyCb : option Callback;
  lastConfigs : list ConfigCWSDD
}.

(** [rules.LoadPolicy(name, source, reader)], whose code is not among the
    sources, taken as it is; the reader is the bytes it reads. *)
Context (LoadPolicy : string -> string -> list Byte.byte -> Policy + Error).

(** The dynamic type of an error of the loader: [members err] is the list
    of the errors that [err] holds when [err] is itself a
    [*multierror.Error] (none when the pointer is nil), and [None] when
    [err] is an error of any other type. *)
Context (members : Error -> option (list Error)).

(** A [*multierror.Error]: nil, or the list of the errors appended so far. *)
Definition MultiError : Type := option (list Error).

(** What [multierror.Append] adds for an error that is not the nil
    interface: the error, or its members when it is a
    [*multierror.Error], which [Append] flattens. *)
Definition contribution (err : Error) : list Error :=
  match members err with
  | Some errors => errors
  | None => [err]
  end.

(** [multierror.Append(errs, err)], from the documentation of
    go-multierror, for an [err] that is not the nil interface
    ([LoadPolicies] appends under [err != nil]): a nil [errs] is replaced
    by a new [Error], and the contribution of [err] is appended to its
    list. *)
Definition Append (errs : MultiError) (err : Error) : MultiError :=
  Some (default [] errs ++ contribution err)%list.

(** [normalize]: the policy is updated in place. *)
Definition normalize (policy : Policy) : Policy :=
  let els := SplitN "." (Name policy) 2 in
  if Nat.ltb 1 (length els) then mkPolicy (default "" (els !! 1)) (Body policy)
  else policy.

(** The loop of [LoadPolicies]. *)
Fixpoint loadLoop (configs : list ConfigCWSDD) (policies : list Policy)
         (errs : MultiError) : list Policy * MultiError :=
  match configs with
  | [] => (policies, errs)
  | c :: configs' =>
      match LoadPolicy (ID c) "remote-config" (Config c) with
      | inr err => loadLoop configs' policies (Append errs err)
      | inl policy =>
          loadLoop configs' (policies ++ [normalize policy])%list errs
      end
  end.

(** [LoadPolicies] *)
Definition LoadPolicies (r : RCPolicyProvider) : list Policy * MultiError :=
  loadLoop (lastConfigs r) [] None.

End Provider.

End RConfig.

(** ** The storage requests of an activity dump ([package activity_dump]) *)

Module ActivityDump.

(** What a call yields: a value, an error (its message), or a run-time
    panic. *)
Inductive outcome (A : Type) :=
| Ok (a : A)
| Err (msg : string)
| Panic.

Arguments Ok {A} a.
Arguments Err {A} msg.
Arguments Panic {A}.

Definition StorageFormat := string.

Definition StorageFormat_String (sf : StorageFormat) : string := sf.

Definition JSON : StorageFormat := "json".
Definition MSGP : StorageFormat := "msgp".
Definition DOT : StorageFormat := "dot".
Definition Profile : StorageFormat := "profile".

(** [AllStorageFormats] *)
Definition AllStorageFormats : list StorageFormat := [JSON; MSGP; DOT; Profile].

(** [init]: the table [strToFormats] after the package is initialised. *)
Definition init (strToFormats : gmap string StorageFormat)
  : gmap string StorageFormat :=
  foldl (fun m format => <[StorageFormat_String format := format]> m)
    strToFormats AllStorageFormats.

Definition strToFormats : gmap string StorageFormat := init ∅.

(** How [fmt] writes a slice of formats under [%v]: the elements separated
    by spaces, in brackets. *)
Definition formatSlice (l : list StorageFormat) : string :=
  "[" ++ Join (map StorageFormat_String l) " " ++ "]".

(** [ParseStorageFormat]: indexing the first byte of an empty input is out
    of range. *)
Definition ParseStorageFormat (input : string) : outcome StorageFormat :=
  match input with
  | EmptyString => Panic
  | String c rest =>
      let input := if Ascii.eqb c "." then rest else input in
      match strToFormats !! input with
      | None =>
          Err (input ++ ": unkown storage format, available options are "
               ++ formatSlice AllStorageFormats)
      | Some format => Ok format
      end
  end.

(** The loop of [ParseStorageFormats]. *)
Fixpoint parseLoop (input : list string) (output : list StorageFormat)
  : outcome (list StorageFormat) :=
  match input with
  | [] => Ok output
  | in_ :: input' =>
      match ParseStorageFormat in_ with
      | Ok format => parseLoop input' (output ++ [format])%list
      | Err msg => Err msg
      | Panic => Panic
      end
  end.

(** [ParseStorageFormats] *)
Definition ParseStorageFormats (input : list string)
  : outcome (list StorageFormat) :=
  parseLoop input [].

(** [StorageType]: an [int]. *)
Definition StorageType := Z.

Definition LocalStorage : StorageType := 0%Z.
Definition RemoteStorage : StorageType := 1%Z.

Definition StorageType_String (st : StorageType) : string :=
  if Z.eqb st LocalStorage then "local_storage"
  else if Z.eqb st RemoteStorage then "remote_storage"
  else "".

Record StorageRequest := mkStorageRequest {
  Type_ : StorageType;
  Format : StorageFormat;
  Compression : bool;
  OutputDirectory : string
}.

(** [NewStorageRequest] *)
Definition NewStorageRequest (storageType : StorageType)
           (format : StorageFormat) (compression : bool)
           (outputDirectory : string) : StorageRequest :=
  mkStorageRequest storageType format compression outputDirectory.

(** [api.StorageRequestParams], whose code is not among the sources: what
    its getters return (the getters of a nil message return the zero
    values). *)
Record StorageRequestParams := mkStorageRequestParams {
  GetLocalStorageDirectory : string;
  GetLocalStorageFormats : list string;
  GetLocalStorageCompression : bool;
  GetRemoteStorageFormats : list string;
  GetRemoteStorageCompression : bool
}.

(** The two loops of [ParseStorageRequests]. *)
Definition appendRequests (parsedRequests : list StorageRequest)
           (storageType : StorageType) (formats : list StorageFormat)
           (compression : bool) (outputDirectory : string)
  : list StorageRequest :=
  foldl (fun parsedRequests format =>
           (parsedRequests
            ++ [NewStorageRequest storageType format compression
                  outputDirectory])%list)
    parsedRequests formats.

(** [ParseStorageRequests] *)
Definition ParseStorageRequests (requests : StorageRequestParams)
  : outcome (list StorageRequest) :=
  match ParseStorageFormats (GetLocalStorageFormats requests) with
  | Err msg => Err msg
  | Panic => Panic
  | Ok formats =>
      let parsedRequests :=
        appendRequests [] LocalStorage formats
          (GetLocalStorageCompression requests)
          (GetLocalStorageDirectory requests) in
      match ParseStorageFormats (GetRemoteStorageFormats requests) with
      | Err msg => Err msg
      | Panic => Panic
      | Ok formats =>
          Ok (appendRequests parsedRequests RemoteStorage formats
                (GetRemoteStorageCompression requests) "")
      end
  end.

(** [api.StorageRequestMessage]: the fields that the code fills. *)
Record StorageRequestMessage := mkStorageRequestMessage {
  msg_Compression : bool;
  msg_Type : string;
  msg_Format : string;
  msg_File : string
}.

Section Paths.

(** [path.Join] of the Go library, taken as it is. *)
Context (pathJoin : list string -> string).

(** [GetOutputPath] *)
Definition GetOutputPath (sr : StorageRequest) (filename : string) : string :=
  let compressionSuffix := if Compression sr then ".gz" else "" in
  ((pathJoin [OutputDirectory sr; filename] ++ ".")
   ++ StorageFormat_String (Format sr))
  ++ compressionSuffix.

(** [ToStorageRequestMessage] *)
Definition ToStorageRequestMessage (sr : StorageRequest) (filename : string)
  : StorageRequestMessage :=
  mkStorageRequestMessage (Compression sr) (StorageType_String (Type_ sr))
    (StorageFormat_String (Format sr)) (GetOutputPath sr filename).

End Paths.

End ActivityDump.

(** ** Properties of field extraction and of the legacy rewriting *)

Section Properties.

Context {Context Iterator IPNet StringValues CIDRValues MacroStore : Type}.

#[local] Abbreviation State := (@State Context Iterator IPNet StringValues CIDRValues).
#[local] Abbreviation ReplCtx :=
  (@EvalReplacementContext Context IPNet StringValues CIDRValues MacroStore).
#[local] Abbreviation Evaluator := (@Evaluator Context IPNet StringValues CIDRValues).

Context (ext : @Externals IPNet StringValues CIDRValues).
Context (ops : @Operators Context Iterator IPNet StringValues CIDRValues MacroStore).
Context (host : @Overrides Context Iterator IPNet StringValues CIDRValues MacroStore).

Lemma FindStringSubmatch_length (r : Regexp.regex) (s : string) :
  length (Regexp.FindStringSubmatch r s) = 0
  \/ length (Regexp.FindStringSubmatch r s) = S (Regexp.numSubexp r).
Proof.
  unfold Regexp.FindStringSubmatch.
  destruct (Regexp.search r 0 (list_ascii_of_string s)) as [[start t]|].
  - right. cbn [length]. now rewrite length_map, length_seq.
  - now left.
Qed.

(** [extractField] touches the cache only. *)
Lemma extractField_state (field : string) (st : State) :
  let st' := snd (extractField field st) in
  model st' = model st /\ macros st' = macros st
  /\ registersInfo st' = registersInfo st /\ fields st' = fields st
  /\ randDraws st' = randDraws st
  /\ promotedConstants st' = promotedConstants st.
Proof.
  unfold extractField.
  destruct (Regexp.FindStringSubmatch _ field) as [|whole [|regID [|x l]]];
    cbn; repeat split; reflexivity.
Qed.

(** The error branch of [extractField] is dead: whatever the identifier,
    the match holds nothing or the whole match and the one group. *)
Lemma extractField_never_wrong_format (field : string) (st : State) :
  cacheSound st ->
  forall err, fst (extractField field st) <> inr err.
Proof.
  intros [Hfind _] err. unfold extractField.
  assert (Hre : match arraySubscriptFindRE (regexpCache_ st) with
                | Some r => r
                | None => arraySubscriptFindRE_pattern
                end = arraySubscriptFindRE_pattern)
    by (destruct Hfind as [-> | ->]; reflexivity).
  rewrite Hre.
  pose proof (FindStringSubmatch_length arraySubscriptFindRE_pattern field) as Hlen.
  destruct (Regexp.FindStringSubmatch arraySubscriptFindRE_pattern field)
    as [|whole [|regID [|x l]]]; cbn in *; try discriminate.
  - destruct Hlen as [Hlen | Hlen]; discriminate.
  - destruct Hlen as [Hlen | Hlen]; discriminate.
Qed.

End Properties.

(** C4 (the code departs from the claim). An identifier with two subscripts
    is not refused with the wrong-register-format error: the match of the
    first subscript alone is looked at, the replacement strips the last
    subscript, and the field returned still holds the first one. *)
Theorem C4_two_subscripts_not_rejected :
  fst (extractField "a[_].b[_].c" Demo.st0)
  = inl ("a[_].b.c", "a[_].b", "_").
Proof. vm_compute. reflexivity. Qed.

(** C8 (the code departs from the claim). With a legacy table that renames
    both the field [a.b.c] and the iterator field [a.b], the second look-up
    is made under the renamed field: the iterator field keeps its legacy
    name, and the model is asked for an iterator it does not know. *)
Theorem C8_legacy_iterator_field_not_rewritten :
  Demo.legacyTable !! "a.b.c" = Some "x.y.c"
  /\ Demo.legacyTable !! "a.b" = Some "x.y"
  /\ fst (extractField "a.b[_].c" Demo.st0) = inl ("a.b.c", "a.b", "_")
  /\ legacyRewrite Demo.legacyTable "a.b.c" "a.b" = ("x.y.c", "a.b")
  /\ fst (identToEvaluator Demo.demoExt (Demo.at_ 0) "a.b[_].c"
            Demo.replCtxLegacy Demo.st0)
     = Failed (Demo.at_ 0) (ErrHost "iterator not found: a.b").
Proof. vm_compute. repeat split; reflexivity. Qed.

(** ** Properties of the operand-type dispatch *)

Section Dispatch.

Context {Context Iterator IPNet StringValues CIDRValues MacroStore : Type}.

#[local] Abbreviation State := (@State Context Iterator IPNet StringValues CIDRValues).
#[local] Abbreviation ReplCtx :=
  (@EvalReplacementContext Context IPNet StringValues CIDRValues MacroStore).
#[local] Abbreviation Evaluator := (@Evaluator Context IPNet StringValues CIDRValues).

Context (ext : @Externals IPNet StringValues CIDRValues).
Context (ops : @Operators Context Iterator IPNet StringValues CIDRValues MacroStore).
Context (host : @Overrides Context Iterator IPNet StringValues CIDRValues MacroStore).

Lemma emit_plain_compilesTo (c : (BoolEvaluator + error) * State)
      (objPos : Position) (replCtx : ReplCtx) :
  compilesTo (emit c objPos (plain objPos)) c objPos false replCtx.
Proof. destruct c as [[b | err] st']; reflexivity. Qed.


(** The [*ast.Comparison] case, as an equation. *)
Lemma comparisonToEvaluator_eq (objPos : Position) (lhs : BitOperation)
      (sc : option ScalarComparison) (ac : option ArrayComparison)
      (replCtx : ReplCtx) (st : State) :
  comparisonToEvaluator ext ops host (mkComparison objPos lhs sc ac) replCtx st
  = match bitOperationToEvaluator ext ops host lhs replCtx st with
    | (Panicked, st) => (Panicked, st)
    | (Failed pos err, st) => (Failed pos err, st)
    | (Done unary pos, st) =>
        match ac with
        | Some ac =>
            match arrayToEvaluator ext (ac_Array ac) replCtx st with
            | (Panicked, st) => (Panicked, st)
            | (Failed pos err, st) => (Failed pos err, st)
            | (Done next pos, st) =>
                compareArray ops host objPos pos (ac_Op ac) unary next replCtx st
            end
        | None =>
            match sc with
            | Some (mkScalarComparison scPos op rhs) =>
                match comparisonToEvaluator ext ops host rhs replCtx st with
                | (Panicked, st) => (Panicked, st)
                | (Failed pos err, st) => (Failed pos err, st)
                | (Done next pos, st) =>
                    compareScalar ops host objPos pos op unary next replCtx st
                end
            | None => (Done unary pos, st)
            end
        end
    end.
Proof. destruct sc as [[scPos op rhs]|]; reflexivity. Qed.

Lemma comparison_array_eq (objPos : Position) (lhs : BitOperation)
      (sc : option ScalarComparison) (ac : ArrayComparison)
      (replCtx : ReplCtx) (st st1 st2 : State) (unary next : Evaluator)
      (p1 p2 : Position) :
  bitOperationToEvaluator ext ops host lhs replCtx st = (Done unary p1, st1) ->
  arrayToEvaluator ext (ac_Array ac) replCtx st1 = (Done next p2, st2) ->
  comparisonToEvaluator ext ops host (mkComparison objPos lhs sc (Some ac))
    replCtx st
  = compareArray ops host objPos p2 (ac_Op ac) unary next replCtx st2.
Proof.
  intros H1 H2. rewrite comparisonToEvaluator_eq, H1, H2. reflexivity.
Qed.

Lemma comparison_scalar_eq (objPos scPos : Position) (lhs : BitOperation)
      (op : string) (rhs : Comparison)
      (replCtx : ReplCtx) (st st1 st2 : State) (unary next : Evaluator)
      (p1 p2 : Position) :
  bitOperationToEvaluator ext ops host lhs replCtx st = (Done unary p1, st1) ->
  comparisonToEvaluator ext ops host rhs replCtx st1 = (Done next p2, st2) ->
  comparisonToEvaluator ext ops host
    (mkComparison objPos lhs (Some (mkScalarComparison scPos op rhs)) None)
    replCtx st
  = compareScalar ops host objPos p2 op unary next replCtx st2.
Proof.
  intros H1 H2. rewrite comparisonToEvaluator_eq, H1, H2. reflexivity.
Qed.

(** A literal operand compiles to its evaluator, at the position of the
    primary, and leaves the state as it is. *)
Lemma duration_operand_eq (pos : Position) (d : Z) (replCtx : ReplCtx)
      (st : State) :
  comparisonToEvaluator ext ops host (operand (durationPrimary pos d)) replCtx st
  = (Done (EInt (mkIntEvaluator None d true)) pos, st).
Proof. reflexivity. Qed.

(** C10. With a scalar CIDR evaluator on both sides of an array comparison,
    [in] and [allin] compile to the [CIDREquals] combinator and [notin] to
    its negation: the rule compiles to what the combinator returns, and
    fails only with an error of the combinator itself, never with a type
    error of the dispatch. *)
Theorem C10_cidr_membership_in_scalar_cidr
        (objPos acPos : Position) (lhs : BitOperation)
        (sc : option ScalarComparison) (array : Array)
        (replCtx : ReplCtx) (st st1 st2 : State)
        (a b : @CIDREvaluator Context IPNet) (p1 p2 : Position) :
  bitOperationToEvaluator ext ops host lhs replCtx st = (Done (ECIDR a) p1, st1) ->
  arrayToEvaluator ext array replCtx st1 = (Done (ECIDR b) p2, st2) ->
  let rule := fun op =>
    comparisonToEvaluator ext ops host
      (mkComparison objPos lhs sc (Some (mkArrayComparison acPos op array)))
      replCtx st in
  compilesTo (rule "in") (CIDREquals ops a b replCtx st2) objPos false replCtx
  /\ compilesTo (rule "allin") (CIDREquals ops a b replCtx st2) objPos false replCtx
  /\ compilesTo (rule "notin") (CIDREquals ops a b replCtx st2) objPos true replCtx.
Proof.
  intros H1 H2 rule. unfold rule.
  repeat split;
    match goal with
    | |- context [mkArrayComparison _ ?op _] =>
        rewrite (comparison_array_eq objPos lhs sc
                   (mkArrayComparison acPos op array)
                   replCtx st st1 st2 _ _ p1 p2 H1 H2)
    end;
    cbn; destruct (CIDREquals ops a b replCtx st2) as [[be | err] st3];
    reflexivity.
Qed.

(** C2 (as corrected). A scalar comparison of an integer evaluator with a
    duration literal compiles to the duration combinator of its operator for
    [<], [<=], [>] and [>=], whether or not the left operand is typed as a
    duration; with any other operator ([==] and [!=] among them) it fails
    with the type error that expects an integer, at the position of the
    literal. *)
Theorem C2_duration_literal_dispatch
        (objPos scPos rhsPos : Position) (lhs : BitOperation) (op : string)
        (d : Z) (replCtx : ReplCtx) (st st1 : State)
        (unary : @IntEvaluator Context) (p1 : Position) :
  bitOperationToEvaluator ext ops host lhs replCtx st = (Done (EInt unary) p1, st1) ->
  let literal := mkIntEvaluator None d true in
  let rule :=
    comparisonToEvaluator ext ops host
      (mkComparison objPos lhs
         (Some (mkScalarComparison scPos op (operand (durationPrimary rhsPos d))))
         None)
      replCtx st in
  (op = "<" ->
   compilesTo rule (DurationLesserThan ops unary literal replCtx st1)
     objPos false replCtx)
  /\ (op = "<=" ->
      compilesTo rule (DurationLesserOrEqualThan ops unary literal replCtx st1)
        objPos false replCtx)
  /\ (op = ">" ->
      compilesTo rule (DurationGreaterThan ops unary literal replCtx st1)
        objPos false replCtx)
  /\ (op = ">=" ->
      compilesTo rule (DurationGreaterOrEqualThan ops unary literal replCtx st1)
        objPos false replCtx)
  /\ (op <> "<" -> op <> "<=" -> op <> ">" -> op <> ">=" ->
      rule = (Failed rhsPos (ErrTypeError rhsPos KInt), st1)).
Proof.
  intros H1 literal rule. unfold rule.
  rewrite (comparison_scalar_eq objPos scPos lhs op _ replCtx st st1 st1
             (EInt unary) (EInt literal) p1 rhsPos H1
             (duration_operand_eq rhsPos d replCtx st1)).
  repeat split.
  - intros ->. apply emit_plain_compilesTo.
  - intros ->. apply emit_plain_compilesTo.
  - intros ->. apply emit_plain_compilesTo.
  - intros ->. apply emit_plain_compilesTo.
  - intros Hlt Hle Hgt Hge. cbn.
    destruct (String.eqb_spec op "<"); [contradiction|].
    destruct (String.eqb_spec op "<="); [contradiction|].
    destruct (String.eqb_spec op ">"); [contradiction|].
    destruct (String.eqb_spec op ">="); [contradiction|].
    reflexivity.
Qed.












End Dispatch.

(** ** Properties of the identifier resolution *)

Section Resolution.

Context {Context Iterator IPNet StringValues CIDRValues MacroStore : Type}.

#[local] Abbreviation State := (@State Context Iterator IPNet StringValues CIDRValues).
#[local] Abbreviation ReplCtx :=
  (@EvalReplacementContext Context IPNet StringValues CIDRValues MacroStore).
#[local] Abbreviation Model := (@Model Context Iterator IPNet StringValues CIDRValues).

Context (ext : @Externals IPNet StringValues CIDRValues).
Context (ops : @Operators Context Iterator IPNet StringValues CIDRValues MacroStore).
Context (host : @Overrides Context Iterator IPNet StringValues CIDRValues MacroStore).



Lemma string_app_assoc (a b c : string) :
  ((a ++ b) ++ c)%string = (a ++ (b ++ c))%string.
Proof.
  induction a as [|x a IH]; [reflexivity|].
  change (String x ((a ++ b) ++ c)%string = String x (a ++ (b ++ c))%string).
  now rewrite IH.
Qed.






(** The cases of [nodeToEvaluator] on the way to an identifier, as
    equations. *)
Lemma primary_ident_eq (pos : Position) (ident : string) (replCtx : ReplCtx)
      (st : State) :
  primaryToEvaluator ext ops host (identPrimary pos ident) replCtx st
  = identToEvaluator ext pos ident replCtx st.
Proof. reflexivity. Qed.

Lemma operand_bit_eq (p : Primary) (replCtx : ReplCtx) (st : State) :
  bitOperationToEvaluator ext ops host (bitOf p) replCtx st
  = match primaryToEvaluator ext ops host p replCtx st with
    | (Done unary _, st) =>
        (Done unary (match p with mkPrimary pos _ _ _ _ _ _ _ _ _ _ => pos end),
         st)
    | (Failed pos err, st) => (Failed pos err, st)
    | (Panicked, st) => (Panicked, st)
    end.
Proof.
  destruct p as [pos a b c d e f g h i j]. unfold bitOf.
  change (bitOperationToEvaluator ext ops host
            (mkBitOperation pos
               (mkUnary pos None None (Some (mkPrimary pos a b c d e f g h i j)))
               None None) replCtx st)
    with (match primaryToEvaluator ext ops host
                  (mkPrimary pos a b c d e f g h i j) replCtx st with
          | (Panicked, st) => (Panicked, st)
          | (Failed pos err, st) => (Failed pos err, st)
          | (Done unary _, st) => (Done unary pos, st)
          end).
  destruct (primaryToEvaluator ext ops host _ replCtx st) as [[ | | ] st'];
    reflexivity.
Qed.

Lemma expression_first_failure (ePos : Position) (cmp : Comparison)
      (op : option string) (next : option BooleanExpression)
      (replCtx : ReplCtx) (st st' : State) (pos : Position) (err : error) :
  comparisonToEvaluator ext ops host cmp replCtx st = (Failed pos err, st') ->
  expressionToEvaluator ext ops host (mkExpression ePos cmp op next) replCtx st
  = (Failed pos err, st').
Proof.
  intros H.
  change (expressionToEvaluator ext ops host (mkExpression ePos cmp op next)
            replCtx st)
    with (match comparisonToEvaluator ext ops host cmp replCtx st with
          | (Panicked, st) => (Panicked, st)
          | (Failed pos err, st) => (Failed pos err, st)
          | (Done cmp pos, st) =>
              match op with
              | None => (Done cmp ePos, st)
              | Some op =>
                  match cmp with
                  | EBool cmpBool =>
                      match next with
                      | None => (Panicked, st)
                      | Some next =>
                      match booleanExpressionToEvaluator ext ops host next
                              replCtx st with
                      | (Panicked, st) => (Panicked, st)
                      | (Failed pos err, st) => (Failed pos err, st)
                      | (Done next pos, st) =>
                          match next with
                          | EBool nextBool =>
                              if String.eqb op "||" || String.eqb op "or" then
                                emit (Or ops cmpBool nextBool replCtx st) ePos
                                  (plain ePos)
                              else if String.eqb op "&&" || String.eqb op "and"
                              then
                                emit (And ops cmpBool nextBool replCtx st) ePos
                                  (plain ePos)
                              else (Failed pos (ErrOpUnknown ePos op), st)
                          | _ => (Failed pos (ErrTypeError pos KBool), st)
                          end
                      end
                      end
                  | _ => (Failed ePos (ErrTypeError ePos KBool), st)
                  end
              end
          end).
  rewrite H. reflexivity.
Qed.

End Resolution.

(** ** Properties of the string interpolation *)

(** *** The variable pattern finds the leftmost references *)

#[local] Arguments Ascii.eqb : simpl never.
#[local] Arguments String.eqb : simpl never.














(** *** Strings as lists of bytes *)

Lemma length_list_ascii (s : string) :
  length (list_ascii_of_string s) = String.length s.
Proof. induction s as [|c s IH]; cbn; [reflexivity | now rewrite IH]. Qed.

Lemma list_ascii_app (a b : string) :
  list_ascii_of_string (a ++ b)
  = (list_ascii_of_string a ++ list_ascii_of_string b)%list.
Proof.
  induction a as [|c a IH]; [reflexivity|].
  change (c :: list_ascii_of_string (a ++ b)
          = c :: (list_ascii_of_string a ++ list_ascii_of_string b)%list).
  now rewrite IH.
Qed.

Lemma string_of_list_app (a b : list ascii) :
  string_of_list_ascii (a ++ b)
  = (string_of_list_ascii a ++ string_of_list_ascii b)%string.
Proof.
  induction a as [|c a IH]; [reflexivity|].
  change (String c (string_of_list_ascii (a ++ b))
          = String c (string_of_list_ascii a ++ string_of_list_ascii b)%string).
  now rewrite IH.
Qed.

Lemma list_ascii_substring (s : string) (n m : nat) :
  list_ascii_of_string (substring n m s)
  = firstn m (skipn n (list_ascii_of_string s)).
Proof.
  revert n m. induction s as [|c s IH]; intros n m.
  - destruct n, m; reflexivity.
  - destruct n as [|n].
    + destruct m as [|m]; [reflexivity|].
      cbn [substring list_ascii_of_string skipn firstn]. now rewrite IH.
    + cbn [substring list_ascii_of_string skipn]. apply IH.
Qed.

Lemma strSlice_list (s : string) (lo hi : nat) :
  strSlice s lo hi
  = string_of_list_ascii (firstn (hi - lo) (skipn lo (list_ascii_of_string s))).
Proof.
  unfold strSlice. rewrite <- list_ascii_substring.
  now rewrite string_of_list_ascii_of_string.
Qed.

Lemma string_app_nil_r (s : string) : (s ++ "")%string = s.
Proof.
  induction s as [|c s IH]; [reflexivity|].
  change (String c (s ++ "")%string = String c s). now rewrite IH.
Qed.

(** *** [isVariableName] on references and on literals *)

Lemma list_ascii_inj (g : list ascii) :
  list_ascii_of_string (string_of_list_ascii g) = g.
Proof. apply list_ascii_of_string_of_list_ascii. Qed.

Lemma length_string_of_list (g : list ascii) :
  String.length (string_of_list_ascii g) = length g.
Proof. now rewrite <- length_list_ascii, list_ascii_inj. Qed.


Lemma HasSuffix_snoc (g : list ascii) :
  HasSuffix (string_of_list_ascii (g ++ ["}"%char])) "}" = true.
Proof.
  unfold HasSuffix. apply andb_true_intro. split.
  - apply Nat.leb_le. rewrite length_string_of_list, length_app.
    cbn. lia.
  - apply String.eqb_eq.
    rewrite <- (string_of_list_ascii_of_string (substring _ _ _)).
    rewrite list_ascii_substring, list_ascii_inj.
    rewrite length_string_of_list, length_app.
    cbn [String.length length].
    replace (length g + 1 - 1) with (length g + 0) by lia.
    rewrite skipn_app, skipn_all2 by lia.
    replace (length g + 0 - length g) with 0 by lia. reflexivity.
Qed.

Lemma HasPrefix_inv (g : list ascii) :
  HasPrefix (string_of_list_ascii g) "${" = true ->
  exists body, g = "$"%char :: "{"%char :: body.
Proof.
  unfold HasPrefix.
  destruct g as [|c [|d body]]; cbn [String.prefix string_of_list_ascii].
  - discriminate.
  - destruct (ascii_dec "$" c); discriminate.
  - destruct (ascii_dec "$" c) as [<- | ?]; [|discriminate].
    destruct (ascii_dec "{" d) as [<- | ?]; [|discriminate].
    intros _. now exists body.
Qed.



Lemma isVariableName_reference (name : list ascii) :
  isVariableName
    (string_of_list_ascii ("$"%char :: "{"%char :: name ++ ["}"%char]))
  = (string_of_list_ascii name, true).
Proof.
  unfold isVariableName.
  change ("$"%char :: "{"%char :: name ++ ["}"%char])%list
    with (("$"%char :: "{"%char :: name) ++ ["}"%char])%list.
  rewrite HasSuffix_snoc.
  assert (Hp : HasPrefix (string_of_list_ascii
                            (("$"%char :: "{"%char :: name) ++ ["}"%char]))
                 "${" = true).
  { unfold HasPrefix. cbn [app string_of_list_ascii String.prefix].
    destruct (ascii_dec "$" "$"); [|congruence].
    destruct (ascii_dec "{" "{"); [|congruence].
    now destruct (string_of_list_ascii (name ++ ["}"%char])). }
  rewrite Hp. cbn [andb]. f_equal.
  rewrite strSlice_list, length_string_of_list, list_ascii_inj.
  cbn [app skipn length]. rewrite length_app. cbn [length].
  replace (S (S (length name + 1)) - 1 - 2) with (length name + 0) by lia.
  rewrite skipn_O.
  rewrite firstn_app, firstn_all2 by lia.
  replace (length name + 0 - length name) with 0 by lia.
  cbn [firstn]. now rewrite app_nil_r.
Qed.

(** *** The loop of [FindAllIndex] on the variable pattern *)



(** *** The closures of [stringEvaluatorFromVariable] *)




Section InterpolationProofs.

Context {Context Iterator IPNet StringValues CIDRValues MacroStore : Type}.

#[local] Abbreviation State := (@State Context Iterator IPNet StringValues CIDRValues).
#[local] Abbreviation ReplCtx :=
  (@EvalReplacementContext Context IPNet StringValues CIDRValues MacroStore).
#[local] Abbreviation StringEvaluator := (@StringEvaluator Context).

Context (ext : @Externals IPNet StringValues CIDRValues).
Context (ops : @Operators Context Iterator IPNet StringValues CIDRValues MacroStore).
Context (host : @Overrides Context Iterator IPNet StringValues CIDRValues MacroStore).















End InterpolationProofs.

(** ** The theorems at work on the small host *)

(** C1, counterexample. In a model where [p.a] and [p.b] are iterator
    fields, the rule [p.a[x].f == 1 && p.b[x].g == 2] is refused because of
    the name of its register, and the rule written with [_] compiles: in
    neither case is the used-by-multiple-fields error returned. *)
Lemma C1_register_conflict_counterexample :
  GetIterator Demo.demoModel "p.a" = inl "p.a"
  /\ GetIterator Demo.demoModel "p.b" = inl "p.b"
  /\ fst (Demo.compile (Demo.conflictRule "x"))
     = Failed (Demo.at_ 0)
         (ErrRegisterNameNotAllowed (Demo.at_ 0) "x" "only `_` is supported")
  /\ (exists b,
        fst (Demo.compile (Demo.conflictRule "_")) = Done (EBool b) (Demo.at_ 0))
  /\ forall x, x = "x" \/ x = "_" ->
       forall pos pos' regID msg,
         fst (Demo.compile (Demo.conflictRule x))
         <> Failed pos (ErrRegisterMultipleFields pos' regID msg).
Proof.
  split; [vm_compute; reflexivity|]. split; [vm_compute; reflexivity|].
  split; [vm_compute; reflexivity|].
  split; [vm_compute; eexists; reflexivity|].
  intros x [-> | ->] pos pos' regID msg; vm_compute; discriminate.
Qed.

(** C2, counterexample. [file.size] is an integer field that is not typed as
    a duration; [file.size > 1h] compiles all the same, to the duration
    combinator: with [now] at two hours and a size of zero the rule holds. *)
Lemma C2_duration_counterexample :
  GetEvaluator Demo.demoModel "file.size" "" = inl (EInt (Demo.intAccessor "file.size"))
  /\ i_isDuration (Demo.intAccessor "file.size") = false
  /\ (exists b,
        fst (Demo.compileCmp
               (Demo.scalarCmp (Demo.identP 0 "file.size") 10 ">"
                  (Demo.durationP 12 3600000000000)))
        = Done (EBool b) (Demo.at_ 0))
  /\ Demo.verdict
       (fst (Demo.compileCmp
               (Demo.scalarCmp (Demo.identP 0 "file.size") 10 ">"
                  (Demo.durationP 12 3600000000000))))
       (Demo.mkCtx 7200000000000 (<["file.size" := 0%Z]> ∅) ∅ ∅ ∅)
     = Some true.
Proof.
  split; [vm_compute; reflexivity|]. split; [vm_compute; reflexivity|].
  split; [eexists; reflexivity|].
  vm_compute. reflexivity.
Qed.

(** C2, witness: [file.size > 1h] compiles to [DurationGreaterThan]. *)
Lemma C2_duration_literal_dispatch_witness :
  compilesTo
    (Demo.compileCmp
       (Demo.scalarCmp (Demo.identP 0 "file.size") 10 ">"
          (Demo.durationP 12 3600000000000)))
    (DurationGreaterThan Demo.demoOps (Demo.intAccessor "file.size")
       (mkIntEvaluator None 3600000000000 true) Demo.replCtx0
       (snd (identToEvaluator Demo.demoExt (Demo.at_ 0) "file.size"
               Demo.replCtx0 Demo.st0)))
    (Demo.at_ 0) false Demo.replCtx0.
Proof.
  refine (proj1 (proj2 (proj2
            (C2_duration_literal_dispatch Demo.demoExt Demo.demoOps Demo.demoHost
               (Demo.at_ 0) (Demo.at_ 10) (Demo.at_ 12)
               (bitOf (Demo.identP 0 "file.size")) ">" 3600000000000
               Demo.replCtx0 Demo.st0
               (snd (identToEvaluator Demo.demoExt (Demo.at_ 0) "file.size"
                       Demo.replCtx0 Demo.st0))
               (Demo.intAccessor "file.size") (Demo.at_ 0) _))) eq_refl).
  vm_compute. reflexivity.
Defined.







(** C10, witness: [connect.dest in network.allowed], both scalar CIDR
    fields. *)
Lemma C10_cidr_membership_witness :
  let st2 :=
    snd (identToEvaluator Demo.demoExt (Demo.at_ 16) "network.allowed"
           Demo.replCtx0
           (snd (identToEvaluator Demo.demoExt (Demo.at_ 0) "connect.dest"
                   Demo.replCtx0 Demo.st0))) in
  let equals :=
    CIDREquals Demo.demoOps (Demo.cidrAccessor "connect.dest")
      (Demo.cidrAccessor "network.allowed") Demo.replCtx0 st2 in
  compilesTo
    (Demo.compileCmp
       (Demo.arrayCmp (Demo.identP 0 "connect.dest") 13 "in"
          (Demo.identArray 16 "network.allowed")))
    equals (Demo.at_ 0) false Demo.replCtx0
  /\ compilesTo
       (Demo.compileCmp
          (Demo.arrayCmp (Demo.identP 0 "connect.dest") 13 "allin"
             (Demo.identArray 16 "network.allowed")))
       equals (Demo.at_ 0) false Demo.replCtx0
  /\ compilesTo
       (Demo.compileCmp
          (Demo.arrayCmp (Demo.identP 0 "connect.dest") 13 "notin"
             (Demo.identArray 16 "network.allowed")))
       equals (Demo.at_ 0) true Demo.replCtx0.
Proof.
  intros st2 equals.
  refine (C10_cidr_membership_in_scalar_cidr Demo.demoExt Demo.demoOps
            Demo.demoHost (Demo.at_ 0) (Demo.at_ 13)
            (bitOf (Demo.identP 0 "connect.dest")) None
            (Demo.identArray 16 "network.allowed") Demo.replCtx0 Demo.st0
            (snd (identToEvaluator Demo.demoExt (Demo.at_ 0) "connect.dest"
                    Demo.replCtx0 Demo.st0))
            st2 (Demo.cidrAccessor "connect.dest")
            (Demo.cidrAccessor "network.allowed") (Demo.at_ 0) (Demo.at_ 16)
            _ _);
    vm_compute; reflexivity.
Defined.



(** The write of the force-pattern step to a macro: after
    [process.name =~ M], the macro [M] of the state, which held the scalar
    [ab*], holds the pattern [ab*]. *)
Example macro_promotion_in_place :
  let st :=
    set_macros Demo.st0
      (<["M" := EString (mkStringEvaluator None "ab*" ScalarValueType "" None
                           None)]> ∅) in
  macros
    (snd (comparisonToEvaluator Demo.demoExt Demo.demoOps Demo.demoHost
            (Demo.scalarCmp (Demo.identP 0 "process.name") 13 "=~"
               (Demo.identP 16 "M"))
            Demo.replCtx0 st))
  !! "M"
  = Some (EString (mkStringEvaluator None "ab*" PatternValueType "" None
                     None)).
Proof. vm_compute. reflexivity. Qed.

(** The write of the force-pattern step to a constant.  [K] is the scalar
    constant [ab*]: [exec.path == K] compares for equality, and after
    [process.name =~ K] has promoted the constant, the same comparison
    matches the pattern. *)
Example promotion_in_place :
  let ctx :=
    Demo.mkCtx 0 ∅
      (<["process.name" := "abc"]> (<["exec.path" := "abz"]> ∅)) ∅ ∅ in
  let compile := fun e =>
    fst (expressionToEvaluator Demo.demoExt Demo.demoOps Demo.demoHost e
           Demo.replCtxConstants Demo.st0) in
  let equalsK :=
    Demo.scalarCmp (Demo.identP 21 "exec.path") 31 "==" (Demo.identP 34 "K") in
  Demo.verdict (compile (mkExpression (Demo.at_ 21) equalsK None None)) ctx
  = Some false
  /\ Demo.verdict
       (compile
          (Demo.andExpr
             (Demo.scalarCmp (Demo.identP 0 "process.name") 13 "=~"
                (Demo.identP 16 "K"))
             18 equalsK))
       ctx
     = Some true.
Proof. vm_compute. split; reflexivity. Qed.

(** The scenarios of pattern promotion: the star is a wildcard under [=~]
    and a plain byte under [==]. *)
Example pattern_promotion :
  Demo.verdict
    (fst (Demo.compileCmp
            (Demo.scalarCmp (Demo.identP 0 "process.name") 13 "=~"
               (Demo.stringP 16 "ab*"))))
    (Demo.mkCtx 0 ∅ (<["process.name" := "abc"]> ∅) ∅ ∅)
  = Some true
  /\ Demo.verdict
       (fst (Demo.compileCmp
               (Demo.scalarCmp (Demo.identP 0 "process.name") 13 "=="
                  (Demo.stringP 16 "ab*"))))
       (Demo.mkCtx 0 ∅ (<["process.name" := "abc"]> ∅) ∅ ∅)
     = Some false.
Proof. vm_compute. split; reflexivity. Qed.

(** An override at work: the field [process.comm] carries an override of
    [StringEquals] that compares without regard to case, the field
    [process.name] carries none. *)
Example override_at_work :
  Demo.verdict
    (fst (Demo.compileCmp
            (Demo.scalarCmp (Demo.identP 0 "process.comm") 13 "=="
               (Demo.stringP 16 "SSHD"))))
    (Demo.mkCtx 0 ∅ (<["process.comm" := "sshd"]> ∅) ∅ ∅)
  = Some true
  /\ Demo.verdict
       (fst (Demo.compileCmp
               (Demo.scalarCmp (Demo.identP 0 "process.name") 13 "=="
                  (Demo.stringP 16 "SSHD"))))
       (Demo.mkCtx 0 ∅ (<["process.name" := "sshd"]> ∅) ∅ ∅)
     = Some false.
Proof. vm_compute. split; reflexivity. Qed.

(** The error branch of [extractField] is out of reach from the initial
    state of the small host. *)
Example extractField_total_on_demo (field : string) (err : error) :
  fst (extractField field Demo.st0) <> inr err.
Proof.
  apply extractField_never_wrong_format.
  split; left; reflexivity.
Qed.

(** ** Properties of the storage requests of an activity dump *)

Lemma strToFormats_lookup (key : string) (format : ActivityDump.StorageFormat) :
  ActivityDump.strToFormats !! key = Some format
  <-> key = format /\ In format ActivityDump.AllStorageFormats.
Proof.
  unfold ActivityDump.strToFormats, ActivityDump.init,
    ActivityDump.AllStorageFormats, ActivityDump.StorageFormat_String.
  cbn [foldl In].
  rewrite !lookup_insert_Some, lookup_empty.
  split.
  - intros [[<- <-] | [_ [[<- <-] | [_ [[<- <-] | [_ [[<- <-] | [_ H]]]]]]]];
      try discriminate; split; auto.
  - intros [-> [<- | [<- | [<- | [<- | []]]]]];
      repeat first [ left; split; reflexivity | right; split; [discriminate|] ].
Qed.

(** X1. [ParseStorageFormat] accepts the names of the four formats, bare or
    after one dot, and nothing else; what it returns is the format named. *)
Theorem ParseStorageFormat_accepts
    (input : string) (format : ActivityDump.StorageFormat) :
  ActivityDump.ParseStorageFormat input = ActivityDump.Ok format
  <-> In format ActivityDump.AllStorageFormats
      /\ (input = format \/ input = "." ++ format).
Proof.
  split.
  - destruct input as [|c rest]; [discriminate|].
    unfold ActivityDump.ParseStorageFormat.
    destruct (Ascii.eqb c ".") eqn:E.
    + apply Ascii.eqb_eq in E as ->.
      destruct (ActivityDump.strToFormats !! rest) as [f|] eqn:L;
        [|discriminate].
      intros [= <-]. apply strToFormats_lookup in L as [-> Hin].
      split; [exact Hin | now right].
    + destruct (ActivityDump.strToFormats !! String c rest) as [f|] eqn:L;
        [|discriminate].
      intros [= <-]. apply strToFormats_lookup in L as [<- Hin].
      split; [exact Hin | now left].
  - intros [Hin [-> | ->]];
      destruct Hin as [<- | [<- | [<- | [<- | []]]]]; reflexivity.
Qed.

Lemma ParseStorageFormat_Panic_inv (input : string) :
  ActivityDump.ParseStorageFormat input = ActivityDump.Panic -> input = "".
Proof.
  destruct input as [|c rest]; [reflexivity|].
  unfold ActivityDump.ParseStorageFormat.
  now destruct (ActivityDump.strToFormats !! _).
Qed.

(** X2. [ParseStorageFormat] panics on the empty string, and on no other
    input. *)
Theorem ParseStorageFormat_panics (input : string) :
  ActivityDump.ParseStorageFormat input = ActivityDump.Panic <-> input = "".
Proof.
  split; [apply ParseStorageFormat_Panic_inv | now intros ->].
Qed.

Lemma parseLoop_Ok (input : list string)
      (acc output : list ActivityDump.StorageFormat) :
  ActivityDump.parseLoop input acc = ActivityDump.Ok output
  <-> exists formats,
        output = (acc ++ formats)%list
        /\ Forall2 (fun in_ format =>
                      ActivityDump.ParseStorageFormat in_
                      = ActivityDump.Ok format) input formats.
Proof.
  revert acc. induction input as [|in_ input IH]; intros acc;
    cbn [ActivityDump.parseLoop].
  - split.
    + intros [= <-]. exists []. split; [now rewrite app_nil_r | constructor].
    + intros (formats & -> & H). inversion H. now rewrite app_nil_r.
  - destruct (ActivityDump.ParseStorageFormat in_) as [format| |] eqn:E.
    + rewrite IH. split.
      * intros (formats & -> & H). exists (format :: formats).
        split; [now rewrite <- app_assoc | now constructor].
      * intros (formats & -> & H). inversion H as [|? f ? fs Hf Hfs]; subst.
        rewrite E in Hf. injection Hf as <-.
        exists fs. split; [now rewrite <- app_assoc | exact Hfs].
    + split; [discriminate|].
      intros (formats & _ & H). inversion H; subst. congruence.
    + split; [discriminate|].
      intros (formats & _ & H). inversion H; subst. congruence.
Qed.

(** X3. [ParseStorageFormats] succeeds when every element parses, and then
    returns the formats of the elements, one for one and in their order. *)
Theorem ParseStorageFormats_all
    (input : list string) (output : list ActivityDump.StorageFormat) :
  ActivityDump.ParseStorageFormats input = ActivityDump.Ok output
  <-> Forall2 (fun in_ format =>
                 ActivityDump.ParseStorageFormat in_ = ActivityDump.Ok format)
              input output.
Proof.
  unfold ActivityDump.ParseStorageFormats. rewrite parseLoop_Ok.
  split.
  - now intros (formats & -> & H).
  - intros H. now exists output.
Qed.

Lemma parseLoop_failure (input : list string)
      (acc : list ActivityDump.StorageFormat)
      (bad : ActivityDump.outcome ActivityDump.StorageFormat)
      (bad' : ActivityDump.outcome (list ActivityDump.StorageFormat)) :
  (bad = ActivityDump.Panic /\ bad' = ActivityDump.Panic
   \/ exists msg, bad = ActivityDump.Err msg /\ bad' = ActivityDump.Err msg) ->
  ActivityDump.parseLoop input acc = bad'
  <-> exists pre in_ post,
        input = (pre ++ in_ :: post)%list
        /\ Forall (fun i => exists format,
                     ActivityDump.ParseStorageFormat i
                     = ActivityDump.Ok format) pre
        /\ ActivityDump.ParseStorageFormat in_ = bad.
Proof.
  intros Hbad. revert acc.
  induction input as [|x input IH]; intros acc; cbn [ActivityDump.parseLoop].
  - split.
    + destruct Hbad as [[_ ->] | (msg & _ & ->)]; discriminate.
    + intros (pre & in_ & post & H & _). now destruct pre.
  - destruct (ActivityDump.ParseStorageFormat x) as [format| |] eqn:E.
    + rewrite IH. split.
      * intros (pre & in_ & post & -> & Hpre & Hin).
        exists (x :: pre), in_, post. repeat split; [|exact Hin].
        constructor; [now exists format | exact Hpre].
      * intros (pre & in_ & post & H & Hpre & Hin).
        destruct pre as [|y pre]; cbn in H; injection H as <- ->.
        -- destruct Hbad as [[-> _] | (m & -> & _)]; congruence.
        -- inversion Hpre; subst. now exists pre, in_, post.
    + split.
      * intros <-. destruct Hbad as [[_ [=]] | (m & -> & [= <-])].
        exists [], x, input. repeat split; [constructor | exact E].
      * intros (pre & in_ & post & H & Hpre & Hin).
        destruct pre as [|y pre]; cbn in H; injection H as <- ->.
        -- rewrite E in Hin. subst bad.
           destruct Hbad as [[[=] _] | (m & [= <-] & ->)]. reflexivity.
        -- inversion Hpre as [|? ? [f Hf] ?]; subst. congruence.
    + split.
      * intros <-. destruct Hbad as [[-> _] | (m & _ & [=])].
        exists [], x, input. repeat split; [constructor | exact E].
      * intros (pre & in_ & post & H & Hpre & Hin).
        destruct pre as [|y pre]; cbn in H; injection H as <- ->.
        -- rewrite E in Hin. subst bad.
           destruct Hbad as [[_ ->] | (m & [=] & _)]. reflexivity.
        -- inversion Hpre as [|? ? [f Hf] ?]; subst. congruence.
Qed.

(** X4. [ParseStorageFormats] stops at the first element that does not parse:
    it returns the error of that element, and panics when that element is the
    empty string. *)
Theorem ParseStorageFormats_first_failure (input : list string) :
  (forall msg,
     ActivityDump.ParseStorageFormats input = ActivityDump.Err msg
     <-> exists pre in_ post,
           input = (pre ++ in_ :: post)%list
           /\ Forall (fun i => exists format,
                        ActivityDump.ParseStorageFormat i
                        = ActivityDump.Ok format) pre
           /\ ActivityDump.ParseStorageFormat in_ = ActivityDump.Err msg)
  /\ (ActivityDump.ParseStorageFormats input = ActivityDump.Panic
      <-> exists pre post,
            input = (pre ++ "" :: post)%list
            /\ Forall (fun i => exists format,
                         ActivityDump.ParseStorageFormat i
                         = ActivityDump.Ok format) pre).
Proof.
  unfold ActivityDump.ParseStorageFormats. split.
  - intros msg. apply parseLoop_failure. right. now exists msg.
  - rewrite (parseLoop_failure input [] ActivityDump.Panic ActivityDump.Panic)
      by now left.
    split.
    + intros (pre & in_ & post & -> & Hpre & Hin).
      apply ParseStorageFormat_Panic_inv in Hin as ->. now exists pre, post.
    + intros (pre & post & -> & Hpre). now exists pre, "", post.
Qed.

Lemma appendRequests_map (parsedRequests : list ActivityDump.StorageRequest)
      (storageType : ActivityDump.StorageType)
      (formats : list ActivityDump.StorageFormat)
      (compression : bool) (outputDirectory : string) :
  ActivityDump.appendRequests parsedRequests storageType formats compression
    outputDirectory
  = (parsedRequests
     ++ map (fun format =>
               ActivityDump.mkStorageRequest storageType format compression
                 outputDirectory) formats)%list.
Proof.
  unfold ActivityDump.appendRequests. revert parsedRequests.
  induction formats as [|format formats IH]; intros parsedRequests;
    cbn [foldl map].
  - now rewrite app_nil_r.
  - rewrite IH, <- app_assoc. reflexivity.
Qed.

(** X5. [ParseStorageRequests] succeeds when the local and the remote formats
    all parse. It then returns one request per format, the local ones first,
    each list in the order of the message: a local request carries the
    directory and the compression flag of the local storage, a remote one the
    compression flag of the remote storage and no directory. *)
Theorem ParseStorageRequests_requests
    (requests : ActivityDump.StorageRequestParams)
    (parsed : list ActivityDump.StorageRequest) :
  ActivityDump.ParseStorageRequests requests = ActivityDump.Ok parsed
  <-> exists localFormats remoteFormats,
        Forall2 (fun in_ format =>
                   ActivityDump.ParseStorageFormat in_
                   = ActivityDump.Ok format)
                (ActivityDump.GetLocalStorageFormats requests) localFormats
        /\ Forall2 (fun in_ format =>
                      ActivityDump.ParseStorageFormat in_
                      = ActivityDump.Ok format)
                   (ActivityDump.GetRemoteStorageFormats requests)
                   remoteFormats
        /\ parsed
           = (map (fun format =>
                     ActivityDump.mkStorageRequest ActivityDump.LocalStorage
                       format
                       (ActivityDump.GetLocalStorageCompression requests)
                       (ActivityDump.GetLocalStorageDirectory requests))
                  localFormats
              ++ map (fun format =>
                        ActivityDump.mkStorageRequest
                          ActivityDump.RemoteStorage format
                          (ActivityDump.GetRemoteStorageCompression requests)
                          "")
                     remoteFormats)%list.
Proof.
  unfold ActivityDump.ParseStorageRequests, ActivityDump.ParseStorageFormats.
  split.
  - destruct (ActivityDump.parseLoop (ActivityDump.GetLocalStorageFormats _) [])
      as [lf| |] eqn:El; try discriminate.
    destruct (ActivityDump.parseLoop (ActivityDump.GetRemoteStorageFormats _) [])
      as [rf| |] eqn:Er; try discriminate.
    intros [= <-].
    apply parseLoop_Ok in El as (lf' & -> & Hl).
    apply parseLoop_Ok in Er as (rf' & -> & Hr).
    exists lf', rf'. repeat split; [exact Hl | exact Hr |].
    now rewrite !appendRequests_map.
  - intros (lf & rf & Hl & Hr & ->).
    assert (El : ActivityDump.parseLoop
                   (ActivityDump.GetLocalStorageFormats requests) []
                 = ActivityDump.Ok lf)
      by (apply parseLoop_Ok; now exists lf).
    assert (Er : ActivityDump.parseLoop
                   (ActivityDump.GetRemoteStorageFormats requests) []
                 = ActivityDump.Ok rf)
      by (apply parseLoop_Ok; now exists rf).
    rewrite El, Er. now rewrite !appendRequests_map.
Qed.

Lemma ParseStorageFormat_Ok_inv
      (input : string) (format : ActivityDump.StorageFormat) :
  ActivityDump.ParseStorageFormat input = ActivityDump.Ok format ->
  In format ActivityDump.AllStorageFormats.
Proof.
  destruct input as [|c rest]; [discriminate|].
  unfold ActivityDump.ParseStorageFormat.
  destruct (ActivityDump.strToFormats !! _) as [f|] eqn:L; [|discriminate].
  intros [= <-]. now apply strToFormats_lookup in L as [_ Hin].
Qed.

Lemma Forall2_formats (input : list string)
      (formats : list ActivityDump.StorageFormat) :
  Forall2 (fun in_ format =>
             ActivityDump.ParseStorageFormat in_ = ActivityDump.Ok format)
          input formats ->
  Forall (fun format => In format ActivityDump.AllStorageFormats) formats.
Proof.
  induction 1 as [|in_ format input formats H _ IH]; constructor;
    [now apply ParseStorageFormat_Ok_inv in H | exact IH].
Qed.

(** X6. The requests that [ParseStorageRequests] returns are sound: the
    storage is the local or the remote one, a remote request has no directory,
    the format is one of the four, and the message built from the request
    names a storage type and a format that [ParseStorageFormat] reads back. *)
Theorem ParseStorageRequests_sound
    (pathJoin : list string -> string)
    (requests : ActivityDump.StorageRequestParams)
    (parsed : list ActivityDump.StorageRequest)
    (sr : ActivityDump.StorageRequest) (filename : string) :
  ActivityDump.ParseStorageRequests requests = ActivityDump.Ok parsed ->
  In sr parsed ->
  let message := ActivityDump.ToStorageRequestMessage pathJoin sr filename in
  In (ActivityDump.Format sr) ActivityDump.AllStorageFormats
  /\ (ActivityDump.Type_ sr = ActivityDump.LocalStorage
      /\ ActivityDump.msg_Type message = "local_storage"
      /\ ActivityDump.OutputDirectory sr
         = ActivityDump.GetLocalStorageDirectory requests
      \/ ActivityDump.Type_ sr = ActivityDump.RemoteStorage
         /\ ActivityDump.msg_Type message = "remote_storage"
         /\ ActivityDump.OutputDirectory sr = "")
  /\ ActivityDump.ParseStorageFormat (ActivityDump.msg_Format message)
     = ActivityDump.Ok (ActivityDump.Format sr).
Proof.
  intros Hparsed Hin message.
  unfold ActivityDump.ParseStorageRequests, ActivityDump.ParseStorageFormats
    in Hparsed.
  destruct (ActivityDump.parseLoop (ActivityDump.GetLocalStorageFormats _) [])
    as [lf| |] eqn:El; try discriminate.
  destruct (ActivityDump.parseLoop (ActivityDump.GetRemoteStorageFormats _) [])
    as [rf| |] eqn:Er; try discriminate.
  injection Hparsed as <-.
  apply parseLoop_Ok in El as (lf' & -> & Hl).
  apply parseLoop_Ok in Er as (rf' & -> & Hr).
  apply Forall2_formats in Hl, Hr.
  rewrite !appendRequests_map in Hin. cbn [app] in Hin.
  assert (Hfmt : In (ActivityDump.Format sr) ActivityDump.AllStorageFormats
                 /\ (ActivityDump.Type_ sr = ActivityDump.LocalStorage
                     /\ ActivityDump.OutputDirectory sr
                        = ActivityDump.GetLocalStorageDirectory requests
                     \/ ActivityDump.Type_ sr = ActivityDump.RemoteStorage
                        /\ ActivityDump.OutputDirectory sr = "")).
  { apply in_app_or in Hin as [Hin | Hin];
      apply in_map_iff in Hin as (format & <- & Hformat); cbn.
    - split; [|now left]. rewrite List.Forall_forall in Hl. now apply Hl.
    - split; [|now right]. rewrite List.Forall_forall in Hr. now apply Hr. }
  destruct Hfmt as [Hfmt Hty]. split; [exact Hfmt|]. split.
  - subst message. unfold ActivityDump.ToStorageRequestMessage. cbn.
    destruct Hty as [[-> ->] | [-> ->]]; [left | right]; now repeat split.
  - subst message. unfold ActivityDump.ToStorageRequestMessage,
      ActivityDump.StorageFormat_String. cbn.
    destruct Hfmt as [<- | [<- | [<- | [<- | []]]]]; reflexivity.
Qed.

Lemma ParseStorageRequests_sound_witness :
  let requests :=
    ActivityDump.mkStorageRequestParams "/tmp/dumps" [".json"; "dot"] true
      ["msgp"] false in
  let sr :=
    ActivityDump.mkStorageRequest ActivityDump.RemoteStorage "msgp" false "" in
  let message :=
    ActivityDump.ToStorageRequestMessage (fun l => Join l "/") sr "dump" in
  In (ActivityDump.Format sr) ActivityDump.AllStorageFormats
  /\ (ActivityDump.Type_ sr = ActivityDump.LocalStorage
      /\ ActivityDump.msg_Type message = "local_storage"
      /\ ActivityDump.OutputDirectory sr
         = ActivityDump.GetLocalStorageDirectory requests
      \/ ActivityDump.Type_ sr = ActivityDump.RemoteStorage
         /\ ActivityDump.msg_Type message = "remote_storage"
         /\ ActivityDump.OutputDirectory sr = "")
  /\ ActivityDump.ParseStorageFormat (ActivityDump.msg_Format message)
     = ActivityDump.Ok (ActivityDump.Format sr).
Proof.
  intros requests sr message.
  apply (ParseStorageRequests_sound (fun l => Join l "/") requests
           [ActivityDump.mkStorageRequest ActivityDump.LocalStorage "json"
              true "/tmp/dumps";
            ActivityDump.mkStorageRequest ActivityDump.LocalStorage "dot"
              true "/tmp/dumps";
            sr] sr "dump").
  - reflexivity.
  - right. right. left. reflexivity.
Defined.

(** *** Output paths *)

Lemma length_string_app (a b : string) :
  String.length (a ++ b) = String.length a + String.length b.
Proof.
  now rewrite <- !length_list_ascii, list_ascii_app, length_app.
Qed.

Lemma HasSuffix_app (s p : string) : HasSuffix (s ++ p) p = true.
Proof.
  unfold HasSuffix. apply andb_true_intro. split.
  - apply Nat.leb_le. rewrite length_string_app. lia.
  - apply String.eqb_eq.
    rewrite <- (string_of_list_ascii_of_string (substring _ _ _)).
    rewrite list_ascii_substring, list_ascii_app, length_string_app.
    replace (String.length s + String.length p - String.length p)
      with (length (list_ascii_of_string s) + 0)
      by (rewrite length_list_ascii; lia).
    rewrite skipn_app, skipn_all2 by lia.
    replace (length (list_ascii_of_string s) + 0
             - length (list_ascii_of_string s)) with 0 by lia.
    cbn [app skipn]. rewrite <- length_list_ascii, firstn_all.
    apply string_of_list_ascii_of_string.
Qed.

(** X7. The output path of a request is the joined path followed by a dot and
    by the name of the format, and by [.gz] when the request asks for
    compression: the compressed path is the uncompressed one with [.gz]
    appended, the path ends with the extension, and the type of storage plays
    no part. *)
Theorem GetOutputPath_extension
    (pathJoin : list string -> string)
    (sr : ActivityDump.StorageRequest) (filename : string) :
  let plainRequest storageType :=
    ActivityDump.mkStorageRequest storageType (ActivityDump.Format sr) false
      (ActivityDump.OutputDirectory sr) in
  (forall storageType,
     ActivityDump.GetOutputPath pathJoin sr filename
     = ActivityDump.GetOutputPath pathJoin (plainRequest storageType) filename
       ++ (if ActivityDump.Compression sr then ".gz" else ""))
  /\ HasSuffix (ActivityDump.GetOutputPath pathJoin sr filename)
       ("." ++ ActivityDump.Format sr
        ++ (if ActivityDump.Compression sr then ".gz" else "")) = true.
Proof.
  intros plainRequest. unfold ActivityDump.GetOutputPath,
    ActivityDump.StorageFormat_String. split.
  - intros storageType. cbn [ActivityDump.Compression ActivityDump.Format
      ActivityDump.OutputDirectory plainRequest].
    now rewrite string_app_nil_r.
  - rewrite !string_app_assoc. apply HasSuffix_app.
Qed.

(** ** Properties of the remote-configuration policy provider *)

Lemma IndexByte_app (sep : ascii) (version rest : string) :
  IndexByte sep version = None ->
  IndexByte sep (version ++ String sep rest) = Some (String.length version).
Proof.
  induction version as [|c version IH]; cbn [IndexByte String.length].
  - intros _. change ("" ++ String sep rest) with (String sep rest).
    cbn [IndexByte]. now rewrite Ascii.eqb_refl.
  - change (String c version ++ String sep rest)
      with (String c (version ++ String sep rest)).
    cbn [IndexByte]. destruct (Ascii.eqb c sep); [discriminate|].
    destruct (IndexByte sep version); [discriminate|].
    intros _. now rewrite IH.
Qed.

Lemma strSlice_after (version rest : string) (sep : ascii) :
  strSlice (version ++ String sep rest) (String.length version + 1)
    (String.length (version ++ String sep rest))
  = rest.
Proof.
  rewrite strSlice_list, list_ascii_app, length_string_app.
  cbn [String.length list_ascii_of_string].
  replace (String.length version + 1)
    with (length (list_ascii_of_string version) + 1)
    by now rewrite length_list_ascii.
  rewrite skipn_app, skipn_all2 by lia.
  replace (length (list_ascii_of_string version) + 1
           - length (list_ascii_of_string version)) with 1 by lia.
  cbn [app skipn].
  replace (String.length version + S (String.length rest)
           - (length (list_ascii_of_string version) + 1))
    with (length (list_ascii_of_string rest))
    by (rewrite !length_list_ascii; lia).
  rewrite firstn_all. apply string_of_list_ascii_of_string.
Qed.

(** X8. [normalize] removes the version of a policy name, that is its text up
    to the first dot and that dot, whatever follows; a name without a dot is
    left as it is. The rest of the policy is not touched. *)
Theorem normalize_version {PolicyBody : Type}
    (version name : string) (body : PolicyBody) :
  IndexByte "." version = None ->
  RConfig.normalize (RConfig.mkPolicy (version ++ "." ++ name) body)
  = RConfig.mkPolicy name body
  /\ RConfig.normalize (RConfig.mkPolicy version body)
     = RConfig.mkPolicy version body.
Proof.
  intros Hversion. unfold RConfig.normalize. cbn [RConfig.Name RConfig.Body].
  split.
  - change ("." ++ name) with (String "." name).
    cbn [SplitN]. rewrite (IndexByte_app _ _ _ Hversion).
    cbn [length Nat.ltb Nat.leb]. cbn [lookup list_lookup default].
    now rewrite strSlice_after.
  - cbn [SplitN]. rewrite Hversion. reflexivity.
Qed.

Lemma normalize_version_witness :
  RConfig.normalize (RConfig.mkPolicy ("v12" ++ "." ++ "default.policy") tt)
  = RConfig.mkPolicy "default.policy" tt
  /\ RConfig.normalize (RConfig.mkPolicy "v12" tt) = RConfig.mkPolicy "v12" tt.
Proof.
  apply (normalize_version "v12" "default.policy" tt). reflexivity.
Defined.

Section LoadPoliciesProofs.

Context {PolicyBody Client Callback Error : Type}.
Context (LoadPolicy : string -> string -> list Byte.byte ->
                      @RConfig.Policy PolicyBody + Error).
Context (members : Error -> option (list Error)).

#[local] Abbreviation loaded :=
  (fun c : RConfig.ConfigCWSDD =>
     LoadPolicy (RConfig.ID c) "remote-config" (RConfig.Config c)).

(** The policies of the configurations that load, and what the errors of
    the others contribute. *)
#[local] Abbreviation policiesOf configs :=
  (omap (fun c => match loaded c with
                  | inl policy => Some (RConfig.normalize policy)
                  | inr _ => None
                  end) configs).

#[local] Abbreviation errorsOf configs :=
  (concat (omap (fun c => match loaded c with
                          | inl _ => None
                          | inr err => Some (RConfig.contribution members err)
                          end) configs)).

Lemma loadLoop_spec (configs : list RConfig.ConfigCWSDD)
      (policies : list (@RConfig.Policy PolicyBody))
      (errs : @RConfig.MultiError Error) :
  let r := RConfig.loadLoop LoadPolicy members configs policies errs in
  fst r = (policies ++ policiesOf configs)%list
  /\ default [] (snd r) = (default [] errs ++ errorsOf configs)%list
  /\ (snd r = None
      <-> errs = None /\ Forall (fun c => exists policy, loaded c = inl policy)
                                configs).
Proof.
  revert policies errs.
  induction configs as [|c configs IH]; intros policies errs;
    cbn [RConfig.loadLoop omap list_omap concat].
  - cbn. rewrite !app_nil_r. repeat split; auto. now intros [-> _].
  - destruct (LoadPolicy (RConfig.ID c) "remote-config" (RConfig.Config c))
      as [policy | err] eqn:E.
    + destruct (IH (policies ++ [RConfig.normalize policy])%list errs)
        as (Hp & He & Hn).
      cbv zeta in *.
      split; [rewrite Hp, <- app_assoc; reflexivity|].
      split; [exact He|]. rewrite Hn.
      split; intros [Herr H]; (split; [exact Herr|]).
      * constructor; [now exists policy | exact H].
      * now apply Forall_cons_1 in H as [_ H].
    + destruct (IH policies (RConfig.Append members errs err))
        as (Hp & He & Hn).
      cbv zeta in *.
      split; [exact Hp|].
      split.
      * rewrite He. unfold RConfig.Append. cbn [default concat]. unfold id.
        now rewrite <- app_assoc.
      * rewrite Hn. unfold RConfig.Append.
        split; [now intros [[=] _]|].
        intros [_ H]. apply Forall_cons_1 in H as [[policy Hpol] _].
        congruence.
Qed.

(** X9. [LoadPolicies] loads every configuration received last, in their
    order: the policies that load come back normalized, and the errors of
    the others are collected, each error for what [multierror.Append] adds
    for it (the error itself, or its members when the loader hands back a
    [*multierror.Error]).  No error is reported exactly when every
    configuration loads. *)
Theorem LoadPolicies_partition
    (r : @RConfig.RCPolicyProvider Client Callback) :
  let result := RConfig.LoadPolicies LoadPolicy members r in
  fst result = policiesOf (RConfig.lastConfigs r)
  /\ default [] (snd result) = errorsOf (RConfig.lastConfigs r)
  /\ (snd result = None
      <-> Forall (fun c => exists policy, loaded c = inl policy)
                 (RConfig.lastConfigs r)).
Proof.
  unfold RConfig.LoadPolicies.
  destruct (loadLoop_spec (RConfig.lastConfigs r) [] None) as (Hp & He & Hn).
  cbv zeta in *. cbn [app default] in Hp, He.
  repeat split.
  - exact Hp.
  - exact He.
  - intros H. now apply Hn in H.
  - intros H. now apply Hn.
Qed.

End LoadPoliciesProofs.

(** ** Further properties of the expression compiler *)

(** *** Variable names *)

Lemma HasSuffix_last (g : list ascii) :
  HasSuffix (string_of_list_ascii g) "}" = true ->
  exists g', g = (g' ++ ["}"%char])%list.
Proof.
  unfold HasSuffix. intros H. apply andb_prop in H as [Hlen Hsub].
  apply Nat.leb_le in Hlen. apply String.eqb_eq in Hsub.
  apply (f_equal list_ascii_of_string) in Hsub.
  rewrite list_ascii_substring, list_ascii_inj in Hsub.
  rewrite length_string_of_list in Hsub, Hlen.
  cbn [String.length list_ascii_of_string] in Hsub, Hlen.
  exists (firstn (length g - 1) g).
  rewrite <- (firstn_skipn (length g - 1) g) at 1. f_equal.
  assert (Hl : length (skipn (length g - 1) g) = 1)
    by (rewrite length_skipn; lia).
  destruct (skipn (length g - 1) g) as [|c [|d rest]]; try discriminate.
  cbn in Hsub. now injection Hsub as ->.
Qed.

(** X10. [isVariableName] takes a text for a variable reference exactly when
    the text is [${], a name and [}], and the name it returns is the text in
    between, whatever bytes it is made of. *)
Theorem isVariableName_reference_iff (str name : string) :
  isVariableName str = (name, true) <-> str = "${" ++ name ++ "}".
Proof.
  split.
  - intros H.
    rewrite <- (string_of_list_ascii_of_string str) in H |- *.
    set (g := list_ascii_of_string str) in *. clearbody g.
    assert (Hshape : exists body,
               g = ("$"%char :: "{"%char :: body ++ ["}"%char])%list).
    { unfold isVariableName in H.
      destruct (HasPrefix _ "${") eqn:Hp; [|discriminate].
      destruct (HasSuffix _ "}") eqn:Hs; [|discriminate].
      destruct (HasPrefix_inv g Hp) as [body ->].
      destruct (HasSuffix_last _ Hs) as [[|x [|y g']] Hg];
        cbn in Hg; try discriminate.
      injection Hg as _ _ ->. now exists g'. }
    destruct Hshape as [body ->].
    rewrite isVariableName_reference in H. injection H as <-.
    change ("$"%char :: "{"%char :: body ++ ["}"%char])%list
      with (["$"%char; "{"%char] ++ body ++ ["}"%char])%list.
    now rewrite !string_of_list_app.
  - intros ->.
    rewrite <- (string_of_list_ascii_of_string name).
    rewrite <- (isVariableName_reference (list_ascii_of_string name)).
    f_equal.
    change ("$"%char :: "{"%char :: list_ascii_of_string name ++ ["}"%char])%list
      with (["$"%char; "{"%char] ++ list_ascii_of_string name ++ ["}"%char])%list.
    now rewrite !string_of_list_app.
Qed.

(** *** The two subscript patterns on an identifier *)

Lemma head_app_l {A : Type} (x y : list A) :
  head (x ++ y) = match head x with Some t => Some t | None => head y end.
Proof. now destruct x. Qed.

(** A greedy repetition that runs into a byte it does not accept: the first
    thread is the one that took every byte before it. *)
Lemma star_head (p : ascii -> bool) (r : list ascii) (c : ascii)
      (b : list ascii) (pos : nat) (caps : list (nat * (nat * nat))) :
  forallb p r = true -> p c = false ->
  exists tail,
    Regexp.star p pos (r ++ c :: b) caps
    = Regexp.mkThread (pos + length r) (c :: b) caps :: tail.
Proof.
  intros Hr Hc. revert pos.
  induction r as [|x r IH]; intros pos; cbn [app Regexp.star length].
  - rewrite Hc, Nat.add_0_r. now exists [].
  - cbn [forallb] in Hr. apply andb_prop in Hr as [Hx Hr]. rewrite Hx.
    destruct (IH Hr (S pos)) as [tail ->].
    replace (S pos + length r) with (pos + S (length r)) by lia.
    now eexists.
Qed.

(** A greedy repetition that accepts all the input: the first thread is the
    one that took it all. *)
Lemma star_all_head (p : ascii -> bool) (b : list ascii) (pos : nat)
      (caps : list (nat * (nat * nat))) :
  forallb p b = true ->
  exists tail,
    Regexp.star p pos b caps
    = Regexp.mkThread (pos + length b) [] caps :: tail.
Proof.
  intros Hb. revert pos.
  induction b as [|x b IH]; intros pos; cbn [Regexp.star length].
  - rewrite Nat.add_0_r. now exists [].
  - cbn [forallb] in Hb. apply andb_prop in Hb as [Hx Hb]. rewrite Hx.
    destruct (IH Hb (S pos)) as [tail ->].
    replace (S pos + length b) with (pos + S (length b)) by lia.
    now eexists.
Qed.

(** What follows a greedy repetition is tried on the longest run first. *)
Lemma star_longest_first (G : Regexp.thread -> list Regexp.thread)
      (p : ascii -> bool) (c : ascii) (l : list ascii) (pos : nat)
      (caps : list (nat * (nat * nat))) :
  head (flat_map G (Regexp.star p pos (c :: l) caps))
  = if p c then
      match head (flat_map G (Regexp.star p (S pos) l caps)) with
      | Some t => Some t
      | None => head (G (Regexp.mkThread pos (c :: l) caps))
      end
    else head (G (Regexp.mkThread pos (c :: l) caps)).
Proof.
  cbn [Regexp.star]. destruct (p c).
  - rewrite flat_map_app, head_app_l. cbn [flat_map]. now rewrite app_nil_r.
  - cbn [flat_map]. now rewrite app_nil_r.
Qed.

(** Nothing matches after a repetition when nothing matches at any point of
    the input. *)
Lemma star_dead (G : Regexp.thread -> list Regexp.thread)
      (p : ascii -> bool) (l : list ascii) (pos : nat)
      (caps : list (nat * (nat * nat))) :
  (forall k pos', G (Regexp.mkThread pos' (skipn k l) caps) = []) ->
  flat_map G (Regexp.star p pos l caps) = [].
Proof.
  revert pos. induction l as [|c l IH]; intros pos Hdead.
  - cbn [Regexp.star flat_map].
    assert (Hhere : G (Regexp.mkThread pos [] caps) = [])
      by apply (Hdead 0 pos).
    now rewrite Hhere.
  - cbn [Regexp.star].
    assert (Hhere : G (Regexp.mkThread pos (c :: l) caps) = [])
      by apply (Hdead 0 pos).
    destruct (p c).
    + rewrite flat_map_app, IH.
      * cbn. now rewrite Hhere.
      * intros k pos'. apply (Hdead (S k) pos').
    + cbn. now rewrite Hhere.
Qed.

Lemma segmentByte_inv (c : ascii) :
  segmentByte c = true ->
  Ascii.eqb c "[" = false /\ Ascii.eqb c "]" = false
  /\ Ascii.eqb c "010" = false.
Proof.
  unfold segmentByte. intros H.
  apply andb_prop in H as [H Hnl]. apply andb_prop in H as [Ho Hc].
  now rewrite !negb_true_iff in *.
Qed.

Lemma segment_notByte (c : ascii) (l : list ascii) :
  (c = "]" \/ c = "010")%char ->
  forallb segmentByte l = true -> forallb (notByte c) l = true.
Proof.
  intros Hc. induction l as [|x l IH]; [reflexivity|].
  cbn [forallb]. intros H. apply andb_prop in H as [Hx Hl].
  rewrite (IH Hl), andb_true_r. unfold notByte.
  apply segmentByte_inv in Hx as (_ & H1 & H2).
  destruct Hc as [-> | ->]; now rewrite ?H1, ?H2.
Qed.

(** The find pattern at an opening bracket. *)
Lemma run_find_bracket (r b : list ascii) (pos : nat) :
  forallb segmentByte r = true ->
  exists tail,
    Regexp.run arraySubscriptFindRE_pattern
      (Regexp.mkThread pos ("["%char :: r ++ "]"%char :: b) [])
    = Regexp.mkThread (pos + length r + 2) b
        [(1, (S pos, S pos + length r))] :: tail.
Proof.
  intros Hr. unfold arraySubscriptFindRE_pattern.
  cbn [Regexp.run Regexp.step Regexp.t_rest Regexp.t_pos Regexp.t_caps].
  rewrite Ascii.eqb_refl. cbn [flat_map].
  cbn [Regexp.run Regexp.step Regexp.t_rest Regexp.t_pos Regexp.t_caps].
  destruct (star_head (notByte "]") r "]" b (S pos) [])
    as [tail ->].
  - now apply segment_notByte; [left|].
  - unfold notByte. now rewrite Ascii.eqb_refl.
  - cbn [map flat_map Regexp.step Regexp.t_rest Regexp.t_pos Regexp.t_caps
           app].
    rewrite Ascii.eqb_refl. cbn [app].
    replace (S (S pos + length r)) with (pos + length r + 2) by lia.
    eexists. rewrite app_nil_r. reflexivity.
Qed.

(** The find pattern does not match where there is no opening bracket. *)
Lemma run_find_other (c : ascii) (l : list ascii) (pos : nat) :
  Ascii.eqb c "[" = false ->
  Regexp.run arraySubscriptFindRE_pattern (Regexp.mkThread pos (c :: l) [])
  = [].
Proof.
  intros Hc. unfold arraySubscriptFindRE_pattern.
  cbn [Regexp.run Regexp.step Regexp.t_rest Regexp.t_pos Regexp.t_caps].
  rewrite Ascii.eqb_sym, Hc. reflexivity.
Qed.

Lemma search_find_skip (a l : list ascii) (pos : nat) :
  forallb segmentByte a = true ->
  Regexp.search arraySubscriptFindRE_pattern pos (a ++ l)
  = Regexp.search arraySubscriptFindRE_pattern (pos + length a) l.
Proof.
  revert pos. induction a as [|c a IH]; intros pos Ha.
  - cbn [app length]. now rewrite Nat.add_0_r.
  - cbn [forallb] in Ha. apply andb_prop in Ha as [Hc Ha].
    apply segmentByte_inv in Hc as (Hc & _ & _).
    cbn [app Regexp.search]. rewrite (run_find_other c _ pos Hc).
    cbn [head length]. rewrite (IH (S pos) Ha). f_equal. lia.
Qed.

Lemma search_find_none (a : list ascii) (pos : nat) :
  forallb (notByte "[") a = true ->
  Regexp.search arraySubscriptFindRE_pattern pos a = None.
Proof.
  revert pos. induction a as [|c a IH]; intros pos Ha.
  - reflexivity.
  - cbn [forallb] in Ha. apply andb_prop in Ha as [Hc Ha].
    unfold notByte in Hc. apply negb_true_iff in Hc.
    cbn [Regexp.search]. rewrite (run_find_other c _ pos Hc).
    cbn [head]. now apply IH.
Qed.

(** The replace pattern after its first group: the bracket, the subscript
    and the second group. *)
#[local] Abbreviation replaceTail :=
  (Regexp.Seq (Regexp.Lit "[")
     (Regexp.Seq (Regexp.Plus (notByte "]"))
        (Regexp.Seq (Regexp.Lit "]")
           (Regexp.Group 2 (Regexp.Star (notByte "010"%char)))))).

#[local] Abbreviation afterGroup1 pos0 :=
  (fun t : Regexp.thread =>
     Regexp.run replaceTail
       (Regexp.mkThread (Regexp.t_pos t) (Regexp.t_rest t)
          ((1, (pos0, Regexp.t_pos t)) :: Regexp.t_caps t))).

Lemma flat_map_map {A B C : Type} (f : B -> list C) (g : A -> B)
      (l : list A) :
  flat_map f (map g l) = flat_map (fun x => f (g x)) l.
Proof. induction l as [|x l IH]; cbn; [reflexivity | now rewrite IH]. Qed.

Lemma run_replace (l : list ascii) (pos0 : nat) :
  Regexp.run arraySubscriptReplaceRE_pattern (Regexp.mkThread pos0 l [])
  = match l with
    | [] => []
    | c :: l' =>
        if notByte "010" c then
          flat_map (afterGroup1 pos0)
            (Regexp.star (notByte "010") (S pos0) l' [])
        else []
    end.
Proof.
  unfold arraySubscriptReplaceRE_pattern.
  change (Regexp.run (Regexp.Seq ?r1 ?r2) ?t)
    with (flat_map (Regexp.run r2) (Regexp.run r1 t)).
  change (Regexp.run (Regexp.Group 1 ?r) ?t)
    with (map (fun t' => Regexp.mkThread (Regexp.t_pos t') (Regexp.t_rest t')
                           ((1, (Regexp.t_pos t, Regexp.t_pos t'))
                            :: Regexp.t_caps t'))
              (Regexp.run r t)).
  rewrite flat_map_map.
  change (Regexp.run (Regexp.Plus ?p) ?t)
    with (flat_map (fun t' => Regexp.star p (Regexp.t_pos t')
                                (Regexp.t_rest t') (Regexp.t_caps t'))
                   (Regexp.step p t)).
  destruct l as [|c l']; [reflexivity|].
  cbn [Regexp.step Regexp.t_rest Regexp.t_pos Regexp.t_caps].
  destruct (notByte "010" c); [|reflexivity].
  cbn [flat_map Regexp.t_rest Regexp.t_pos Regexp.t_caps].
  now rewrite app_nil_r.
Qed.

Lemma afterGroup1_other (pos0 pos : nat) (rest : list ascii)
      (caps : list (nat * (nat * nat))) :
  match rest with
  | c :: d :: _ => Ascii.eqb c "[" = false \/ Ascii.eqb d "]" = true
  | [c] => True
  | [] => True
  end ->
  afterGroup1 pos0 (Regexp.mkThread pos rest caps) = [].
Proof.
  destruct rest as [|c [|d rest]];
    cbn [Regexp.run Regexp.step Regexp.t_rest Regexp.t_pos Regexp.t_caps];
    [reflexivity| |].
  - intros _. destruct (Ascii.eqb "[" c); reflexivity.
  - intros [Hc | Hd].
    + now rewrite Ascii.eqb_sym, Hc.
    + destruct (Ascii.eqb "[" c); [|reflexivity].
      cbn [flat_map Regexp.run Regexp.step Regexp.t_rest Regexp.t_pos
             Regexp.t_caps].
      assert (Hd' : notByte "]" d = false) by (unfold notByte; now rewrite Hd).
      now rewrite Hd'.
Qed.

Lemma afterGroup1_bracket (pos0 pos : nat) (x : ascii) (r b : list ascii) :
  forallb segmentByte (x :: r) = true ->
  forallb segmentByte b = true ->
  exists tail,
    afterGroup1 pos0
      (Regexp.mkThread pos ("["%char :: (x :: r) ++ "]"%char :: b) [])
    = Regexp.mkThread (pos + length (x :: r) + length b + 2) []
        [(2, (pos + length (x :: r) + 2,
              pos + length (x :: r) + length b + 2));
         (1, (pos0, pos))]
      :: tail.
Proof.
  intros Hr Hb.
  cbn [Regexp.run Regexp.step Regexp.t_rest Regexp.t_pos Regexp.t_caps].
  rewrite Ascii.eqb_refl.
  cbn [flat_map Regexp.run Regexp.step Regexp.t_rest Regexp.t_pos
         Regexp.t_caps app].
  cbn [forallb] in Hr. apply andb_prop in Hr as [Hx Hr].
  assert (Hx' : notByte "]" x = true).
  { unfold notByte. apply segmentByte_inv in Hx as (_ & -> & _).
    reflexivity. }
  rewrite Hx'.
  cbn [flat_map Regexp.t_rest Regexp.t_pos Regexp.t_caps].
  destruct (star_head (notByte "]") r "]" b (S (S pos)) [(1, (pos0, pos))])
    as [tail ->].
  - now apply segment_notByte; [left|].
  - unfold notByte. now rewrite Ascii.eqb_refl.
  - cbn [app flat_map Regexp.run Regexp.step Regexp.t_rest Regexp.t_pos
           Regexp.t_caps].
    rewrite Ascii.eqb_refl.
    cbn [flat_map Regexp.run Regexp.step Regexp.t_rest Regexp.t_pos
           Regexp.t_caps].
    destruct (star_all_head (notByte "010") b (S (S (S pos) + length r))
                [(1, (pos0, pos))]) as [tail' ->].
    + now apply segment_notByte; [right|].
    + cbn [map app length].
      replace (S (S (S pos) + length r) + length b)
        with (pos + S (length r) + length b + 2) by lia.
      replace (S (S (S pos) + length r))
        with (pos + S (length r) + 2) by lia.
      eexists. reflexivity.
Qed.

Lemma no_bracket_suffix (l : list ascii) (k : nat) :
  forallb (notByte "[") l = true ->
  match skipn k l with
  | c :: d :: _ => Ascii.eqb c "[" = false \/ Ascii.eqb d "]" = true
  | [c] => True
  | [] => True
  end.
Proof.
  revert k. induction l as [|c l IH]; intros k Hl.
  - now destruct k.
  - cbn [forallb] in Hl. apply andb_prop in Hl as [Hc Hl].
    destruct k as [|k]; [|now apply IH].
    cbn [skipn]. destruct l; [exact I|].
    left. unfold notByte in Hc. now apply negb_true_iff in Hc.
Qed.

Lemma segment_no_bracket (l : list ascii) :
  forallb segmentByte l = true -> forallb (notByte "[") l = true.
Proof.
  induction l as [|x l IH]; [reflexivity|].
  cbn [forallb]. intros H. apply andb_prop in H as [Hx Hl].
  rewrite (IH Hl), andb_true_r. unfold notByte.
  now apply segmentByte_inv in Hx as (-> & _ & _).
Qed.

(** The replace pattern, once its first group has started: the match that
    wins takes the subscript that the identifier holds. *)
Lemma replace_match (a r b : list ascii) (x : ascii) (pos0 pos : nat) :
  forallb segmentByte a = true ->
  forallb segmentByte (x :: r) = true ->
  forallb segmentByte b = true ->
  head (flat_map (afterGroup1 pos0)
          (Regexp.star (notByte "010") pos
             (a ++ "["%char :: (x :: r) ++ "]"%char :: b) []))
  = Some (Regexp.mkThread
            (pos + length a + length (x :: r) + length b + 2) []
            [(2, (pos + length a + length (x :: r) + 2,
                  pos + length a + length (x :: r) + length b + 2));
             (1, (pos0, pos + length a))]).
Proof.
  intros Ha Hr Hb. revert pos.
  induction a as [|c a IH]; intros pos.
  - cbn [app length]. rewrite star_longest_first.
    unfold notByte at 1. change (Ascii.eqb "[" "010") with false.
    cbn [negb]. rewrite star_dead.
    + cbn [head].
      destruct (afterGroup1_bracket pos0 pos x r b Hr Hb) as [tail Htail].
      cbn [app] in Htail. rewrite Htail.
      cbn [head]. now rewrite !Nat.add_0_r.
    + intros k pos'. apply afterGroup1_other.
      apply no_bracket_suffix.
      change (x :: r ++ "]"%char :: b)%list
        with ((x :: r) ++ "]"%char :: b)%list.
      rewrite forallb_app. cbn [forallb] in Hr |- *.
      apply segment_no_bracket in Hb. rewrite Hb.
      change (forallb segmentByte (x :: r) = true) in Hr.
      apply segment_no_bracket in Hr. cbn [forallb] in Hr. rewrite Hr.
      reflexivity.
  - cbn [forallb] in Ha. apply andb_prop in Ha as [Hc Ha].
    rewrite <- app_comm_cons. cbn [length]. rewrite star_longest_first.
    assert (Hc' : notByte "010" c = true).
    { unfold notByte. apply segmentByte_inv in Hc as (_ & _ & ->).
      reflexivity. }
    rewrite Hc', (IH Ha (S pos)).
    replace (S pos + length a) with (pos + S (length a)) by lia.
    reflexivity.
Qed.

Lemma search_replace_match (x0 : ascii) (a r b : list ascii) (x : ascii) :
  forallb segmentByte (x0 :: a) = true ->
  forallb segmentByte (x :: r) = true ->
  forallb segmentByte b = true ->
  let l := ((x0 :: a) ++ "["%char :: (x :: r) ++ "]"%char :: b)%list in
  Regexp.search arraySubscriptReplaceRE_pattern 0 l
  = Some (0, Regexp.mkThread (length l) []
               [(2, (length (x0 :: a) + length (x :: r) + 2, length l));
                (1, (0, length (x0 :: a)))]).
Proof.
  intros Ha Hr Hb l. subst l.
  cbn [forallb] in Ha. apply andb_prop in Ha as [Hx0 Ha].
  rewrite <- app_comm_cons. cbn [Regexp.search]. rewrite run_replace.
  assert (Hx0' : notByte "010" x0 = true).
  { unfold notByte. apply segmentByte_inv in Hx0 as (_ & _ & ->).
    reflexivity. }
  rewrite Hx0', (replace_match a r b x 0 1 Ha Hr Hb).
  do 3 f_equal.
  - cbn [length]. rewrite !length_app. cbn [length].
    rewrite length_app. cbn [length]. lia.
  - do 2 f_equal.
    + f_equal; cbn [length]; rewrite ?length_app; cbn [length];
        rewrite ?length_app; cbn [length]; lia.
Qed.

Lemma search_replace_end (pos : nat) :
  Regexp.search arraySubscriptReplaceRE_pattern pos [] = None.
Proof. reflexivity. Qed.

Lemma replaceAll_S (fuel : nat) (r : Regexp.regex) (tpl : list Regexp.titem)
      (s : list ascii) (searchPos lastMatchEnd : nat) :
  Regexp.replaceAll (S fuel) r tpl s searchPos lastMatchEnd
  = match Regexp.search r searchPos (skipn searchPos s) with
    | None => Regexp.slice s lastMatchEnd (length s)
    | Some (a0, t) =>
        let a1 := Regexp.t_pos t in
        (Regexp.slice s lastMatchEnd a0
         ++ (if Nat.ltb lastMatchEnd a1 || Nat.eqb a0 0
             then Regexp.expand s t tpl else [])
         ++ (if Nat.ltb (length s)
                  (if Nat.ltb a1 (searchPos + 1) then searchPos + 1 else a1)
             then Regexp.slice s a1 (length s)
             else Regexp.replaceAll fuel r tpl s
                    (if Nat.ltb a1 (searchPos + 1) then searchPos + 1 else a1)
                    a1))%list
    end.
Proof. reflexivity. Qed.

(** A match of the replace pattern that covers the text: the replacement is
    the expansion of the template. *)
Lemma replaceAll_whole (l : list ascii) (t : Regexp.thread)
      (tpl : list Regexp.titem) :
  l <> [] ->
  Regexp.search arraySubscriptReplaceRE_pattern 0 l = Some (0, t) ->
  Regexp.t_pos t = length l ->
  Regexp.replaceAll (S (length l)) arraySubscriptReplaceRE_pattern tpl l 0 0
  = Regexp.expand l t tpl.
Proof.
  intros Hl Hsearch Hpos.
  rewrite replaceAll_S, skipn_O, Hsearch. cbv zeta. rewrite Hpos.
  destruct l as [|c l']; [congruence|].
  change (Nat.ltb (length (c :: l')) (0 + 1)) with false. cbv iota.
  rewrite Nat.ltb_irrefl.
  unfold Regexp.slice at 1. cbn [Nat.sub firstn app].
  rewrite orb_true_r.
  change (length (c :: l')) with (S (length l')) at 1.
  rewrite replaceAll_S.
  rewrite skipn_all, search_replace_end.
  unfold Regexp.slice. rewrite Nat.sub_diag. cbn [firstn].
  now rewrite app_nil_r.
Qed.

Lemma slice_middle (a m b : list ascii) :
  Regexp.slice (a ++ m ++ b) (length a) (length a + length m) = m.
Proof.
  unfold Regexp.slice.
  replace (length a + length m - length a) with (length m) by lia.
  rewrite skipn_app, skipn_all, Nat.sub_diag, skipn_O. cbn [app].
  rewrite firstn_app, firstn_all, Nat.sub_diag. cbn [firstn].
  now rewrite app_nil_r.
Qed.

Lemma slice_tail (a b : list ascii) :
  Regexp.slice (a ++ b) (length a) (length a + length b) = b.
Proof.
  rewrite <- (app_nil_r b) at 1. rewrite (slice_middle a b []).
  reflexivity.
Qed.

Lemma forallb_list_ascii (p : ascii -> bool) (s : string) :
  forallb p (list_ascii_of_string s) = true ->
  s <> "" ->
  exists x r, list_ascii_of_string s = x :: r /\ forallb p (x :: r) = true.
Proof.
  destruct s as [|x s]; [congruence|]. intros H _.
  now exists x, (list_ascii_of_string s).
Qed.

Section Subscripts.

Context {Context Iterator IPNet StringValues CIDRValues : Type}.

#[local] Abbreviation State := (@State Context Iterator IPNet StringValues CIDRValues).

Lemma extractField_sound (field : string) (st : State) :
  cacheSound st ->
  fst (extractField field st)
  = match Regexp.FindStringSubmatch arraySubscriptFindRE_pattern field with
    | [] => inl (field, "", "")
    | [_; regID] =>
        inl (Regexp.ReplaceAllString arraySubscriptReplaceRE_pattern field
               [Regexp.TGroup 1; Regexp.TGroup 2],
             Regexp.ReplaceAllString arraySubscriptReplaceRE_pattern field
               [Regexp.TGroup 1],
             regID)
    | _ => inr (ErrWrongRegisterFormat field)
    end.
Proof.
  intros [Hfind Hreplace]. unfold extractField.
  assert (Hf : match arraySubscriptFindRE (regexpCache_ st) with
               | Some r => r
               | None => arraySubscriptFindRE_pattern
               end = arraySubscriptFindRE_pattern)
    by (destruct Hfind as [-> | ->]; reflexivity).
  assert (Hr : match arraySubscriptReplaceRE (regexpCache_ st) with
               | Some r => r
               | None => arraySubscriptReplaceRE_pattern
               end = arraySubscriptReplaceRE_pattern)
    by (destruct Hreplace as [-> | ->]; reflexivity).
  rewrite Hf, Hr.
  now destruct (Regexp.FindStringSubmatch _ field) as [|whole [|regID [|y l]]].
Qed.

(** The state after [extractField]: the cache holds the two patterns. *)
Lemma extractField_snd (field : string) (st : State) :
  cacheSound st ->
  snd (extractField field st)
  = set_regexpCache st
      (mkRegexpCache (Some arraySubscriptFindRE_pattern)
         (Some arraySubscriptReplaceRE_pattern)).
Proof.
  intros [Hfind Hreplace]. unfold extractField.
  destruct Hfind as [-> | ->], Hreplace as [-> | ->];
    now destruct (Regexp.FindStringSubmatch _ field)
      as [|whole [|regID [|y l]]].
Qed.

Lemma extractField_one_subscript (prefix regID suffix : string) (st : State) :
  cacheSound st ->
  segment prefix = true -> prefix <> "" ->
  segment regID = true -> regID <> "" ->
  segment suffix = true ->
  fst (extractField (prefix ++ "[" ++ regID ++ "]" ++ suffix) st)
  = inl (prefix ++ suffix, prefix, regID).
Proof.
  intros Hcache Hprefix Hprefix' HregID HregID' Hsuffix.
  rewrite (extractField_sound _ _ Hcache).
  destruct (forallb_list_ascii _ _ Hprefix Hprefix') as (x0 & a & Ea & Ha).
  destruct (forallb_list_ascii _ _ HregID HregID') as (x & r & Er & Hr).
  set (b := list_ascii_of_string suffix).
  assert (Hb : forallb segmentByte b = true) by exact Hsuffix.
  assert (El : list_ascii_of_string (prefix ++ "[" ++ regID ++ "]" ++ suffix)
               = ((x0 :: a) ++ "["%char :: (x :: r) ++ "]"%char :: b)%list).
  { rewrite list_ascii_app, Ea. f_equal.
    change ("[" ++ regID ++ "]" ++ suffix)
      with (String "[" (regID ++ String "]" suffix)).
    cbn [list_ascii_of_string]. now rewrite list_ascii_app, Er. }
  (* the find pattern *)
  unfold Regexp.FindStringSubmatch. rewrite El.
  rewrite (search_find_skip _ _ 0 Ha).
  destruct (run_find_bracket (x :: r) b (0 + length (x0 :: a)) Hr)
    as [tail Hrun].
  cbn [Regexp.search]. rewrite Hrun. cbn [head].
  change (Regexp.numSubexp arraySubscriptFindRE_pattern) with 1.
  cbn [seq map].
  assert (Hgroup : Regexp.groupText
                     ((x0 :: a) ++ "["%char :: (x :: r) ++ "]"%char :: b)
                     (Regexp.mkThread
                        (0 + length (x0 :: a) + length (x :: r) + 2) b
                        [(1, (S (0 + length (x0 :: a)),
                              S (0 + length (x0 :: a)) + length (x :: r)))])
                     1
                   = x :: r).
  { unfold Regexp.groupText, Regexp.capture.
    cbn [Regexp.t_caps find fst snd Nat.eqb fmap option_fmap option_map].
    change ((x0 :: a) ++ "["%char :: (x :: r) ++ "]"%char :: b)%list
      with ((x0 :: a) ++ ["["%char] ++ (x :: r) ++ "]"%char :: b)%list.
    rewrite app_assoc.
    replace (S (0 + length (x0 :: a)))
      with (length ((x0 :: a) ++ ["["%char]))
      by (rewrite length_app; cbn [length]; lia).
    apply slice_middle. }
  rewrite Hgroup.
  (* the replace pattern *)
  unfold Regexp.ReplaceAllString. rewrite El.
  pose proof (search_replace_match x0 a r b x Ha Hr Hb) as Hsearch.
  cbv zeta in Hsearch.
  assert (Hne : ((x0 :: a) ++ "["%char :: (x :: r) ++ "]"%char :: b)%list
                <> []) by discriminate.
  rewrite !(fun tpl => replaceAll_whole _ _ tpl Hne Hsearch eq_refl).
  unfold Regexp.expand. cbn [flat_map].
  assert (H1 : Regexp.groupText
                 ((x0 :: a) ++ "["%char :: (x :: r) ++ "]"%char :: b)
                 (Regexp.mkThread
                    (length ((x0 :: a) ++ "["%char :: (x :: r)
                             ++ "]"%char :: b))
                    []
                    [(2, (length (x0 :: a) + length (x :: r) + 2,
                          length ((x0 :: a) ++ "["%char :: (x :: r)
                                  ++ "]"%char :: b)));
                     (1, (0, length (x0 :: a)))])
                 1
               = x0 :: a).
  { unfold Regexp.groupText, Regexp.capture.
    cbn [Regexp.t_caps find fst snd Nat.eqb fmap option_fmap option_map].
    apply (slice_middle [] (x0 :: a)). }
  assert (H2 : Regexp.groupText
                 ((x0 :: a) ++ "["%char :: (x :: r) ++ "]"%char :: b)
                 (Regexp.mkThread
                    (length ((x0 :: a) ++ "["%char :: (x :: r)
                             ++ "]"%char :: b))
                    []
                    [(2, (length (x0 :: a) + length (x :: r) + 2,
                          length ((x0 :: a) ++ "["%char :: (x :: r)
                                  ++ "]"%char :: b)));
                     (1, (0, length (x0 :: a)))])
                 2
               = b).
  { unfold Regexp.groupText, Regexp.capture.
    cbn [Regexp.t_caps find fst snd Nat.eqb fmap option_fmap option_map].
    change ((x0 :: a) ++ "["%char :: (x :: r) ++ "]"%char :: b)%list
      with ((x0 :: a) ++ ("["%char :: x :: r) ++ ["]"%char] ++ b)%list.
    rewrite !app_assoc.
    replace (length (x0 :: a) + length (x :: r) + 2)
      with (length ((((x0 :: a) ++ "["%char :: x :: r) ++ ["]"%char])))
      by (rewrite !length_app; cbn [length]; lia).
    replace (length ((((x0 :: a) ++ "["%char :: x :: r) ++ ["]"%char]) ++ b))
      with (length ((((x0 :: a) ++ "["%char :: x :: r) ++ ["]"%char]))
            + length b)
      by (now rewrite (length_app _ b)).
    apply slice_tail. }
  rewrite H1, H2, !app_nil_r.
  rewrite string_of_list_app, <- Ea, <- Er.
  unfold b. now rewrite !string_of_list_ascii_of_string.
Qed.

(** X11. An identifier with one subscript, [prefix[regID]suffix]: the field is
    the prefix followed by the suffix, the iterator field is the prefix, and
    the register is what the brackets hold; the state is left as it was but
    for the cache, which holds the two patterns. *)
Theorem extractField_subscript (prefix regID suffix : string) (st : State) :
  cacheSound st ->
  segment prefix = true -> prefix <> "" ->
  segment regID = true -> regID <> "" ->
  segment suffix = true ->
  extractField (prefix ++ "[" ++ regID ++ "]" ++ suffix) st
  = (inl (prefix ++ suffix, prefix, regID),
     set_regexpCache st
       (mkRegexpCache (Some arraySubscriptFindRE_pattern)
          (Some arraySubscriptReplaceRE_pattern))).
Proof.
  intros Hcache Hprefix Hprefix' HregID HregID' Hsuffix.
  rewrite (surjective_pairing (extractField _ st)).
  rewrite (extractField_snd _ _ Hcache).
  now rewrite extractField_one_subscript.
Qed.


Lemma IndexByte_None (c : ascii) (s : string) :
  IndexByte c s = None -> forallb (notByte c) (list_ascii_of_string s) = true.
Proof.
  induction s as [|x s IH]; [reflexivity|].
  cbn [IndexByte list_ascii_of_string forallb]. unfold notByte at 1.
  destruct (Ascii.eqb x c); [discriminate|].
  destruct (IndexByte c s); [discriminate|]. intros _. now rewrite IH.
Qed.

Lemma extractField_no_bracket (field : string) (st : State) :
  cacheSound st ->
  IndexByte "[" field = None ->
  fst (extractField field st) = inl (field, "", "").
Proof.
  intros Hcache Hfield. rewrite (extractField_sound _ _ Hcache).
  unfold Regexp.FindStringSubmatch.
  now rewrite (search_find_none _ 0 (IndexByte_None _ _ Hfield)).
Qed.

(** X12. An identifier without an opening bracket has no subscript: it is the
    field, and there is neither an iterator field nor a register; the state
    is left as it was but for the cache, which holds the two patterns. *)
Theorem extractField_plain (field : string) (st : State) :
  cacheSound st ->
  IndexByte "[" field = None ->
  extractField field st
  = (inl (field, "", ""),
     set_regexpCache st
       (mkRegexpCache (Some arraySubscriptFindRE_pattern)
          (Some arraySubscriptReplaceRE_pattern))).
Proof.
  intros Hcache Hfield.
  rewrite (surjective_pairing (extractField _ st)).
  rewrite (extractField_snd _ _ Hcache).
  now rewrite extractField_no_bracket.
Qed.

Lemma dead_empty_subscript (a b : list ascii) (k : nat) :
  forallb segmentByte a = true ->
  forallb segmentByte b = true ->
  match skipn k (a ++ "["%char :: "]"%char :: b) with
  | c :: d :: _ => Ascii.eqb c "[" = false \/ Ascii.eqb d "]" = true
  | [c] => True
  | [] => True
  end.
Proof.
  intros Ha Hb. revert k. induction a as [|c a IH]; intros k.
  - cbn [app]. destruct k as [|[|k]].
    + now right.
    + cbn [skipn]. destruct b; [exact I | now left].
    + cbn [skipn]. apply no_bracket_suffix. now apply segment_no_bracket.
  - cbn [forallb] in Ha. apply andb_prop in Ha as [Hc Ha].
    destruct k as [|k]; [|now apply IH].
    rewrite <- app_comm_cons. cbn [skipn].
    destruct (a ++ "["%char :: "]"%char :: b)%list; [exact I|].
    left. now apply segmentByte_inv in Hc as (-> & _ & _).
Qed.

Lemma search_replace_dead (l : list ascii) (pos : nat) :
  (forall k,
     match skipn k l with
     | c :: d :: _ => Ascii.eqb c "[" = false \/ Ascii.eqb d "]" = true
     | [c] => True
     | [] => True
     end) ->
  Regexp.search arraySubscriptReplaceRE_pattern pos l = None.
Proof.
  revert pos. induction l as [|c l IH]; intros pos Hdead; [reflexivity|].
  cbn [Regexp.search]. rewrite run_replace.
  assert (Hrest : flat_map (afterGroup1 pos)
                    (Regexp.star (notByte "010") (S pos) l []) = []).
  { apply star_dead. intros k pos'. apply afterGroup1_other.
    apply (Hdead (S k)). }
  rewrite Hrest. destruct (notByte "010" c); cbn [head];
    apply IH; intros k; apply (Hdead (S k)).
Qed.

Lemma slice_all (l : list ascii) : Regexp.slice l 0 (length l) = l.
Proof.
  unfold Regexp.slice. now rewrite skipn_O, Nat.sub_0_r, firstn_all.
Qed.

Lemma extractField_empty_brackets (prefix suffix : string) (st : State) :
  cacheSound st ->
  segment prefix = true -> segment suffix = true ->
  fst (extractField (prefix ++ "[]" ++ suffix) st)
  = inl (prefix ++ "[]" ++ suffix, prefix ++ "[]" ++ suffix, "").
Proof.
  intros Hcache Hprefix Hsuffix.
  rewrite (extractField_sound _ _ Hcache).
  set (a := list_ascii_of_string prefix).
  set (b := list_ascii_of_string suffix).
  assert (Ha : forallb segmentByte a = true) by exact Hprefix.
  assert (Hb : forallb segmentByte b = true) by exact Hsuffix.
  assert (El : list_ascii_of_string (prefix ++ "[]" ++ suffix)
               = (a ++ "["%char :: [] ++ "]"%char :: b)%list).
  { rewrite list_ascii_app. reflexivity. }
  unfold Regexp.FindStringSubmatch. rewrite El.
  rewrite (search_find_skip _ _ 0 Ha).
  destruct (run_find_bracket [] b (0 + length a) eq_refl) as [tail Hrun].
  cbn [Regexp.search]. rewrite Hrun. cbn [head].
  change (Regexp.numSubexp arraySubscriptFindRE_pattern) with 1.
  cbn [seq map].
  unfold Regexp.groupText at 1, Regexp.capture.
  cbn [Regexp.t_caps find fst snd Nat.eqb fmap option_fmap option_map].
  unfold Regexp.slice at 1.
  replace (S (0 + length a) + length (@nil ascii) - S (0 + length a)) with 0
    by (cbn [length]; lia).
  cbn [firstn string_of_list_ascii].
  unfold Regexp.ReplaceAllString. rewrite El, !replaceAll_S, skipn_O.
  rewrite search_replace_dead
    by (intros k; now apply dead_empty_subscript).
  rewrite slice_all, <- El.
  now rewrite string_of_list_ascii_of_string.
Qed.


(** X14. The first call of [extractField] fills the cache with the two
    compiled patterns; from then on a call answers as it would have answered
    before and leaves the state as it is. *)
Theorem extractField_cache (field field' : string) (st : State) :
  cacheSound st ->
  let st' := snd (extractField field st) in
  regexpCache_ st'
  = mkRegexpCache (Some arraySubscriptFindRE_pattern)
      (Some arraySubscriptReplaceRE_pattern)
  /\ extractField field' st' = (fst (extractField field' st), st').
Proof.
  intros [Hfind Hreplace] st'.
  assert (Hcache : regexpCache_ st'
                   = mkRegexpCache (Some arraySubscriptFindRE_pattern)
                       (Some arraySubscriptReplaceRE_pattern)).
  { subst st'. unfold extractField.
    destruct Hfind as [-> | ->], Hreplace as [-> | ->];
      now destruct (Regexp.FindStringSubmatch _ field)
        as [|whole [|regID [|y l]]]. }
  split; [exact Hcache|].
  assert (Hst : set_regexpCache st' (regexpCache_ st') = st')
    by now destruct st'.
  clearbody st'. unfold extractField. rewrite Hcache in Hst |- *.
  cbn [arraySubscriptFindRE arraySubscriptReplaceRE]. rewrite Hst.
  destruct Hfind as [-> | ->], Hreplace as [-> | ->];
    now destruct (Regexp.FindStringSubmatch _ field')
      as [|whole [|regID [|y l]]].
Qed.

End Subscripts.

(** *** The resolution of an identifier, by the shape of the identifier *)






Section ShapedResolution.

Context {Context Iterator IPNet StringValues CIDRValues MacroStore : Type}.

#[local] Abbreviation State := (@State Context Iterator IPNet StringValues CIDRValues).
#[local] Abbreviation ReplCtx :=
  (@EvalReplacementContext Context IPNet StringValues CIDRValues MacroStore).
#[local] Abbreviation Evaluator := (@Evaluator Context IPNet StringValues CIDRValues).

Context (ext : @Externals IPNet StringValues CIDRValues).
Context (ops : @Operators Context Iterator IPNet StringValues CIDRValues MacroStore).
Context (host : @Overrides Context Iterator IPNet StringValues CIDRValues MacroStore).


(** The resolution of an identifier that is neither a constant nor a macro,
    from the state that [extractField] leaves. *)
Lemma identToEvaluator_field (pos : Position) (ident : string)
      (replCtx : ReplCtx) (st : State) (f0 it0 : Field) (regID : RegisterID) :
  cacheSound st ->
  Constants (Opts_ replCtx) !! ident = None ->
  macros st !! ident = None ->
  fst (extractField ident st) = inl (f0, it0, regID) ->
  let st1 :=
    set_regexpCache st
      (mkRegexpCache (Some arraySubscriptFindRE_pattern)
         (Some arraySubscriptReplaceRE_pattern)) in
  identToEvaluator ext pos ident replCtx st
  = let '(field, itField) :=
      legacyRewrite (LegacyFields (Opts_ replCtx)) f0 it0 in
    let found : option Iterator + error :=
      if negb (String.eqb itField "") then
        match GetIterator (model st) itField with
        | inl it => inl (Some it)
        | inr err => inr err
        end
      else inl (detectIterator (model st) "" (Split "." field) None) in
    match found with
    | inr err => (Failed pos err, st1)
    | inl iterator =>
        let bound : (RegisterID + error) * State :=
          match iterator with
          | Some it => bindRegister ext pos field itField regID it st1
          | None => (inl regID, st1)
          end in
        match bound with
        | (inr err, st) => (Failed pos err, st)
        | (inl regID, st) =>
            match GetEvaluator (model st) field regID with
            | inr err => (Failed pos err, st)
            | inl accessor => (Done accessor pos, UpdateFields st field)
            end
        end
    end.
Proof.
  intros Hcache Hconst Hmacro Hfst st1.
  unfold identToEvaluator. rewrite Hconst, Hmacro.
  rewrite (surjective_pairing (extractField ident st)), Hfst.
  rewrite (extractField_snd _ _ Hcache). reflexivity.
Qed.

(** A rule fails where its first identifier fails. *)
Lemma rule_first_identifier (pos ePos cPos : Position) (ident : string)
      (replCtx : ReplCtx) (st st' : State) (err : error)
      (sc : option ScalarComparison) (ac : option ArrayComparison)
      (op : option string) (next : option BooleanExpression) :
  identToEvaluator ext pos ident replCtx st = (Failed pos err, st') ->
  expressionToEvaluator ext ops host
    (mkExpression ePos
       (mkComparison cPos (bitOf (identPrimary pos ident)) sc ac) op next)
    replCtx st
  = (Failed pos err, st').
Proof.
  intros H. apply expression_first_failure.
  now rewrite comparisonToEvaluator_eq, operand_bit_eq, primary_ident_eq, H.
Qed.

Lemma legacyRewrite_none (legacy : gmap Field Field) (field itField : Field) :
  legacy !! field = None ->
  legacyRewrite legacy field itField = (field, itField).
Proof.
  intros H. unfold legacyRewrite. rewrite H. cbv beta iota zeta.
  now rewrite H.
Qed.

(** C1 (as corrected). The rule [p.a[x].f == 1 && p.b[x].g == 2], and any
    rule that starts with an identifier [prefix[x]suffix] whose prefix is an
    iterator field of the model (the identifier is neither a constant nor a
    macro, the prefix, the register and the suffix hold neither a bracket
    nor a newline, the legacy table renames neither the field nor the
    identifier).  When [x] is neither empty nor
    [_], the rule fails at this first identifier with the
    register-name-not-allowed error.  When [x] is [_], a fresh identifier is
    drawn for the register, and the rule fails with the
    used-by-multiple-fields error when the identifier drawn is already bound
    to another iterator field; otherwise the field is resolved under the
    register drawn.  When [x] is empty the identifier is not split: the
    model is asked for an iterator under the identifier as it is written,
    and when it has none the rule fails with the error of the model, no
    register being drawn. *)
Theorem C1_register_id_policy
        (pos ePos cPos : Position) (prefix suffix : string) (x : RegisterID)
        (replCtx : ReplCtx) (st : State) :
  let ident := prefix ++ "[" ++ x ++ "]" ++ suffix in
  let st1 :=
    set_regexpCache st
      (mkRegexpCache (Some arraySubscriptFindRE_pattern)
         (Some arraySubscriptReplaceRE_pattern)) in
  let rule := fun sc ac op next =>
    expressionToEvaluator ext ops host
      (mkExpression ePos
         (mkComparison cPos (bitOf (identPrimary pos ident)) sc ac) op next)
      replCtx st in
  cacheSound st ->
  segment prefix = true -> prefix <> "" ->
  segment x = true -> segment suffix = true ->
  Constants (Opts_ replCtx) !! ident = None ->
  macros st !! ident = None ->
  LegacyFields (Opts_ replCtx) !! (prefix ++ suffix) = None ->
  LegacyFields (Opts_ replCtx) !! ident = None ->
  (x <> "" -> x <> "_" ->
   forall it, GetIterator (model st) prefix = inl it ->
   forall sc ac op next,
     rule sc ac op next
     = (Failed pos (ErrRegisterNameNotAllowed pos x "only `_` is supported"),
        st1))
  /\ (x = "_" ->
      forall it, GetIterator (model st) prefix = inl it ->
      let r := RandString ext 8 (randDraws st) in
      (forall info,
          registersInfo st !! r = Some info -> ri_field info <> prefix ->
          forall sc ac op next,
            rule sc ac op next
            = (Failed pos
                 (ErrRegisterMultipleFields pos r "used by multiple fields"),
               set_randDraws st1 (S (randDraws st))))
      /\ ((registersInfo st !! r = None
           \/ exists info, registersInfo st !! r = Some info
                           /\ ri_field info = prefix) ->
          fst (identToEvaluator ext pos ident replCtx st)
          = match GetEvaluator (model st) (prefix ++ suffix) r with
            | inl accessor => Done accessor pos
            | inr err => Failed pos err
            end
          /\ randDraws (snd (identToEvaluator ext pos ident replCtx st))
             = S (randDraws st)))
  /\ (x = "" ->
      forall err, GetIterator (model st) ident = inr err ->
      forall sc ac op next, rule sc ac op next = (Failed pos err, st1)).
Proof.
  intros ident st1 rule Hcache Hprefix Hprefix' Hx Hsuffix Hconst Hmacro
    Hlegacy Hlegacy'.
  assert (Hne : String.eqb prefix "" = false) by now apply String.eqb_neq.
  split; [|split].
  - intros Hx1 Hx2 it Hiter sc ac op next. apply rule_first_identifier.
    rewrite (identToEvaluator_field pos ident replCtx st (prefix ++ suffix)
               prefix x Hcache Hconst Hmacro
               (extractField_one_subscript prefix x suffix st Hcache Hprefix
                  Hprefix' Hx Hx1 Hsuffix)).
    rewrite (legacyRewrite_none _ _ _ Hlegacy), Hne. cbn [negb].
    rewrite Hiter. unfold bindRegister.
    apply String.eqb_neq in Hx1, Hx2. rewrite Hx1, Hx2. reflexivity.
  - intros -> it Hiter r.
    assert (Hid : identToEvaluator ext pos ident replCtx st
                  = match bindRegister ext pos (prefix ++ suffix) prefix "_"
                            it st1 with
                    | (inr err, st) => (Failed pos err, st)
                    | (inl regID, st) =>
                        match GetEvaluator (model st) (prefix ++ suffix) regID
                        with
                        | inr err => (Failed pos err, st)
                        | inl accessor =>
                            (Done accessor pos,
                             UpdateFields st (prefix ++ suffix))
                        end
                    end).
    { rewrite (identToEvaluator_field pos ident replCtx st (prefix ++ suffix)
                 prefix "_" Hcache Hconst Hmacro
                 (extractField_one_subscript prefix "_" suffix st Hcache
                    Hprefix Hprefix' eq_refl ltac:(discriminate) Hsuffix)).
      rewrite (legacyRewrite_none _ _ _ Hlegacy), Hne. cbn [negb].
      now rewrite Hiter. }
    assert (Hbind : bindRegister ext pos (prefix ++ suffix) prefix "_" it st1
                    = match registersInfo st !! r with
                      | Some info =>
                          if negb (String.eqb (ri_field info) prefix) then
                            (inr (ErrRegisterMultipleFields pos r
                                    "used by multiple fields"),
                             set_randDraws st1 (S (randDraws st)))
                          else
                            (inl r,
                             set_registersInfo
                               (set_randDraws st1 (S (randDraws st)))
                               (<[r := mkRegisterInfo (ri_field info)
                                         (ri_iterator info)
                                         (<[prefix ++ suffix := true]>
                                            (ri_subFields info))]>
                                  (registersInfo st)))
                      | None =>
                          (inl r,
                           set_registersInfo
                             (set_randDraws st1 (S (randDraws st)))
                             (<[r := mkRegisterInfo prefix it
                                       {[prefix ++ suffix := true]}]>
                                (registersInfo st)))
                      end) by reflexivity.
    split.
    + intros info Hinfo Hfield sc ac op next. apply rule_first_identifier.
      rewrite Hid, Hbind, Hinfo.
      apply String.eqb_neq in Hfield. now rewrite Hfield.
    + intros Hfree. rewrite Hid, Hbind.
      destruct Hfree as [-> | (info & -> & ->)];
        rewrite ?String.eqb_refl; cbn [negb];
        cbn [model set_registersInfo set_randDraws set_regexpCache st1];
        destruct (GetEvaluator (model st) (prefix ++ suffix) r);
        split; reflexivity.
  - intros -> err Hiter sc ac op next. apply rule_first_identifier.
    assert (Hfst : fst (extractField ident st) = inl (ident, ident, "")).
    { apply (extractField_empty_brackets prefix suffix st Hcache Hprefix
               Hsuffix). }
    rewrite (identToEvaluator_field pos ident replCtx st ident ident ""
               Hcache Hconst Hmacro Hfst).
    rewrite (legacyRewrite_none _ _ _ Hlegacy').
    assert (Hident : String.eqb ident "" = false).
    { apply String.eqb_neq. subst ident. destruct prefix; discriminate. }
    rewrite Hident. cbn [negb]. now rewrite Hiter.
Qed.


End ShapedResolution.

(** C1, witness: the rule written with the register [x]. *)
Lemma C1_register_id_policy_witness :
  expressionToEvaluator Demo.demoExt Demo.demoOps Demo.demoHost
    (Demo.conflictRule "x") Demo.replCtx0 Demo.st0
  = (Failed (Demo.at_ 0)
       (ErrRegisterNameNotAllowed (Demo.at_ 0) "x" "only `_` is supported"),
     set_regexpCache Demo.st0
       (mkRegexpCache (Some arraySubscriptFindRE_pattern)
          (Some arraySubscriptReplaceRE_pattern))).
Proof.
  refine (proj1 (C1_register_id_policy Demo.demoExt Demo.demoOps Demo.demoHost
                   (Demo.at_ 0) (Demo.at_ 0) (Demo.at_ 0) "p.a" ".f" "x"
                   Demo.replCtx0 Demo.st0 _ _ _ _ _ _ _ _ _)
            _ _ "p.a" _ _ _ _ _).
  - split; left; reflexivity.
  - reflexivity.
  - discriminate.
  - reflexivity.
  - reflexivity.
  - reflexivity.
  - reflexivity.
  - reflexivity.
  - reflexivity.
  - discriminate.
  - discriminate.
  - reflexivity.
Defined.


Lemma extractField_subscript_witness :
  extractField ("process.ancestors" ++ "[" ++ "_" ++ "]" ++ ".name") Demo.st0
  = (inl ("process.ancestors" ++ ".name", "process.ancestors", "_"),
     set_regexpCache Demo.st0
       (mkRegexpCache (Some arraySubscriptFindRE_pattern)
          (Some arraySubscriptReplaceRE_pattern))).
Proof.
  apply (extractField_subscript "process.ancestors" "_" ".name" Demo.st0).
  - split; left; reflexivity.
  - reflexivity.
  - discriminate.
  - reflexivity.
  - discriminate.
  - reflexivity.
Defined.

Lemma extractField_plain_witness :
  extractField "process.name" Demo.st0
  = (inl ("process.name", "", ""),
     set_regexpCache Demo.st0
       (mkRegexpCache (Some arraySubscriptFindRE_pattern)
          (Some arraySubscriptReplaceRE_pattern))).
Proof.
  apply (extractField_plain "process.name" Demo.st0).
  - split; left; reflexivity.
  - reflexivity.
Defined.


Lemma extractField_cache_witness :
  let st' := snd (extractField "p.a[_].f" Demo.st0) in
  regexpCache_ st'
  = mkRegexpCache (Some arraySubscriptFindRE_pattern)
      (Some arraySubscriptReplaceRE_pattern)
  /\ extractField "p.b[_].g" st'
     = (fst (extractField "p.b[_].g" Demo.st0), st').
Proof.
  apply (extractField_cache "p.a[_].f" "p.b[_].g" Demo.st0).
  split; left; reflexivity.
Defined.

(** *** Operators that are written in two ways, negations and operand order *)

(** Comparisons of two string literals are computed. *)
Ltac closed_eqb :=
  repeat match goal with
         | |- context [String.eqb ?a ?b] =>
             let v := eval vm_compute in (String.eqb a b) in
             change (String.eqb a b) with v
         end.

Section Operators.

Context {Context Iterator IPNet StringValues CIDRValues MacroStore : Type}.

#[local] Abbreviation State := (@State Context Iterator IPNet StringValues CIDRValues).
#[local] Abbreviation ReplCtx :=
  (@EvalReplacementContext Context IPNet StringValues CIDRValues MacroStore).
#[local] Abbreviation Evaluator := (@Evaluator Context IPNet StringValues CIDRValues).

Context (ext : @Externals IPNet StringValues CIDRValues).
Context (ops : @Operators Context Iterator IPNet StringValues CIDRValues MacroStore).
Context (host : @Overrides Context Iterator IPNet StringValues CIDRValues MacroStore).

(** The operators written as words compile as the operators written as
    symbols: [and] as [&&], [or] as [||], [not] as [!]. *)
Lemma word_operators (replCtx : ReplCtx) (st : State) :
  (forall pos comparison next,
     expressionToEvaluator ext ops host
       (mkExpression pos comparison (Some "and") next) replCtx st
     = expressionToEvaluator ext ops host
         (mkExpression pos comparison (Some "&&") next) replCtx st)
  /\ (forall pos comparison next,
        expressionToEvaluator ext ops host
          (mkExpression pos comparison (Some "or") next) replCtx st
        = expressionToEvaluator ext ops host
            (mkExpression pos comparison (Some "||") next) replCtx st)
  /\ (forall pos unary primary,
        unaryToEvaluator ext ops host
          (mkUnary pos (Some "not") unary primary) replCtx st
        = unaryToEvaluator ext ops host
            (mkUnary pos (Some "!") unary primary) replCtx st).
Proof. repeat split; reflexivity. Qed.

Lemma compareScalar_negation (objPos pos : Position) (op nop : string)
      (unary next : Evaluator) (replCtx : ReplCtx) (st : State) :
  op = "==" /\ nop = "!=" \/ op = "=~" /\ nop = "!~" ->
  match compareScalar ops host objPos pos op unary next replCtx st with
  | (Done ev p, st') =>
      exists b,
        ev = EBool b
        /\ compareScalar ops host objPos pos nop unary next replCtx st
           = (Done (EBool (Not b replCtx st')) p, st')
  | (Failed p err, st') =>
      op = "==" ->
      compareScalar ops host objPos pos nop unary next replCtx st
      = (Failed p err, st')
  | (Panicked, st') =>
      compareScalar ops host objPos pos nop unary next replCtx st
      = (Panicked, st')
  end.
Proof.
  intros [[-> ->] | [-> ->]];
    destruct unary, next; unfold compareScalar, unknownEntity;
    closed_eqb; cbv iota;
    try match goal with
        | |- context [i_isDuration ?e] => destruct (i_isDuration e)
        end;
    try match goal with
        | |- context [s_EvalFnc ?e] => destruct (s_EvalFnc e)
        end;
    try match goal with
        | |- context [forcePattern ?e ?s] =>
            destruct (forcePattern e s) as [promotedString st2]
        end;
    unfold emit, plain, negated;
    try match goal with
        | |- context [match ?c with (_, _) => _ end] =>
            destruct c as [[be | err] st3]
        end;
    first [ reflexivity
          | intros _; reflexivity
          | discriminate
          | intros [=]
          | eexists; split; reflexivity ].
Qed.

(** X15. A comparison written with [!=] compiles to the comparison written
    with [==] wrapped in [Not], and one written with [!~] to the one written
    with [=~] wrapped in [Not], from the same state and to the same state;
    when the [==] comparison does not compile, the [!=] one fails with the
    same error at the same position. *)
Theorem negated_comparison
    (objPos scPos : Position) (lhs : BitOperation) (rhs : Comparison)
    (op nop : string) (replCtx : ReplCtx) (st : State) :
  op = "==" /\ nop = "!=" \/ op = "=~" /\ nop = "!~" ->
  let compile o :=
    comparisonToEvaluator ext ops host
      (mkComparison objPos lhs (Some (mkScalarComparison scPos o rhs)) None)
      replCtx st in
  match compile op with
  | (Done ev p, st') =>
      exists b,
        ev = EBool b
        /\ compile nop = (Done (EBool (Not b replCtx st')) p, st')
  | (Failed p err, st') => op = "==" -> compile nop = (Failed p err, st')
  | (Panicked, st') => compile nop = (Panicked, st')
  end.
Proof.
  intros Hops compile. subst compile. cbv beta.
  rewrite !comparisonToEvaluator_eq.
  destruct (bitOperationToEvaluator ext ops host lhs replCtx st)
    as [[unary p1 | p1 err | ] st1]; try reflexivity.
  destruct (comparisonToEvaluator ext ops host rhs replCtx st1)
    as [[next p2 | p2 err | ] st2]; try reflexivity.
  apply compareScalar_negation, Hops.
Qed.

End Operators.

Lemma negated_comparison_witness :
  let compile o :=
    comparisonToEvaluator Demo.demoExt Demo.demoOps Demo.demoHost
      (Demo.scalarCmp (Demo.identP 0 "process.name") 13 o
         (Demo.stringP 16 "sshd")) Demo.replCtx0 Demo.st0 in
  match compile "==" with
  | (Done ev p, st') =>
      exists b,
        ev = EBool b
        /\ compile "!=" = (Done (EBool (Not b Demo.replCtx0 st')) p, st')
  | (Failed p err, st') => "==" = "==" -> compile "!=" = (Failed p err, st')
  | (Panicked, st') => compile "!=" = (Panicked, st')
  end.
Proof.
  apply (negated_comparison Demo.demoExt Demo.demoOps Demo.demoHost
           (Demo.at_ 0) (Demo.at_ 13)
           (bitOf (Demo.identP 0 "process.name"))
           (operand (Demo.stringP 16 "sshd")) "==" "!="
           Demo.replCtx0 Demo.st0).
  left. split; reflexivity.
Defined.

(** *** What compiling keeps of the state, and when it panics *)

Ltac split_grows :=
  unfold grows; split; [|split; [|split; [|split; [|split]]]].

(** One goal per kind of node. *)
Ltac split7 := split; [|split; [|split; [|split; [|split; [|split]]]]].

Section Compiling.

Context {Context Iterator IPNet StringValues CIDRValues MacroStore : Type}.

#[local] Abbreviation State := (@State Context Iterator IPNet StringValues CIDRValues).
#[local] Abbreviation ReplCtx :=
  (@EvalReplacementContext Context IPNet StringValues CIDRValues MacroStore).
#[local] Abbreviation Evaluator := (@Evaluator Context IPNet StringValues CIDRValues).

Context (ext : @Externals IPNet StringValues CIDRValues).
Context (ops : @Operators Context Iterator IPNet StringValues CIDRValues MacroStore).
Context (host : @Overrides Context Iterator IPNet StringValues CIDRValues MacroStore).

(** The cases of [nodeToEvaluator], as equations. *)
Lemma booleanExpressionToEvaluator_eq (expression : Expression)
      (replCtx : ReplCtx) (st : State) :
  booleanExpressionToEvaluator ext ops host
    (mkBooleanExpression expression) replCtx st
  =
      expressionToEvaluator ext ops host expression replCtx st.
Proof. reflexivity. Qed.

Lemma expressionToEvaluator_eq (objPos : Position) (comparison : Comparison)
      (op : option string) (next : option BooleanExpression)
      (replCtx : ReplCtx) (st : State) :
  expressionToEvaluator ext ops host
    (mkExpression objPos comparison op next) replCtx st
  =
      match comparisonToEvaluator ext ops host comparison replCtx st with
      | (Panicked, st) => (Panicked, st)
      | (Failed pos err, st) => (Failed pos err, st)
      | (Done cmp pos, st) =>
          match op with
          | None => (Done cmp objPos, st)
          | Some op =>
              match cmp with
              | EBool cmpBool =>
                  match next with
                  | None => (Panicked, st)
                  | Some next =>
                  match booleanExpressionToEvaluator ext ops host next replCtx
                          st with
                  | (Panicked, st) => (Panicked, st)
                  | (Failed pos err, st) => (Failed pos err, st)
                  | (Done next pos, st) =>
                      match next with
                      | EBool nextBool =>
                          if String.eqb op "||" || String.eqb op "or" then
                            emit (Or ops cmpBool nextBool replCtx st) objPos
                              (plain objPos)
                          else if String.eqb op "&&" || String.eqb op "and"
                          then
                            emit (And ops cmpBool nextBool replCtx st) objPos
                              (plain objPos)
                          else (Failed pos (ErrOpUnknown objPos op), st)
                      | _ => (Failed pos (ErrTypeError pos KBool), st)
                      end
                  end
                  end
              | _ => (Failed objPos (ErrTypeError objPos KBool), st)
              end
          end
      end.
Proof. reflexivity. Qed.

Lemma scalarComparisonToEvaluator_eq (scPos : Position) (scOp : string)
      (next : Comparison)
      (replCtx : ReplCtx) (st : State) :
  scalarComparisonToEvaluator ext ops host
    (mkScalarComparison scPos scOp next) replCtx st
  = comparisonToEvaluator ext ops host next replCtx st.
Proof. reflexivity. Qed.

Lemma bitOperationToEvaluator_eq (objPos : Position) (unary : Unary)
      (op : option string) (next : option BitOperation)
      (replCtx : ReplCtx) (st : State) :
  bitOperationToEvaluator ext ops host
    (mkBitOperation objPos unary op next) replCtx st
  =
      match unaryToEvaluator ext ops host unary replCtx st with
      | (Panicked, st) => (Panicked, st)
      | (Failed pos err, st) => (Failed pos err, st)
      | (Done unary pos, st) =>
          match op with
          | None => (Done unary objPos, st)
          | Some op =>
              match unary with
              | EInt bitInt =>
                  match next with
                  | None => (Panicked, st)
                  | Some next =>
                  match bitOperationToEvaluator ext ops host next replCtx st
                  with
                  | (Panicked, st) => (Panicked, st)
                  | (Failed pos err, st) => (Failed pos err, st)
                  | (Done next pos, st) =>
                      match next with
                      | EInt nextInt =>
                          let done :=
                            fun e (_ : State) => Done (EInt e) objPos in
                          if String.eqb op "&" then
                            emitInt (IntAnd ops bitInt nextInt replCtx st) pos
                              done
                          else if String.eqb op "|" then
                            emitInt (IntOr ops bitInt nextInt replCtx st) pos
                              done
                          else if String.eqb op "^" then
                            emitInt (IntXor ops bitInt nextInt replCtx st) pos
                              done
                          else (Failed pos (ErrOpUnknown objPos op), st)
                      | _ => (Failed pos (ErrTypeError pos KInt), st)
                      end
                  end
                  end
              | _ => (Failed objPos (ErrTypeError objPos KInt), st)
              end
          end
      end.
Proof. reflexivity. Qed.

Lemma unaryToEvaluator_eq (objPos : Position) (op : option string)
      (unary : option Unary) (primary : option Primary)
      (replCtx : ReplCtx) (st : State) :
  unaryToEvaluator ext ops host
    (mkUnary objPos op unary primary) replCtx st
  =
      match op with
      | Some op =>
          match unary with
          | None => (Panicked, st)
          | Some unary =>
          match unaryToEvaluator ext ops host unary replCtx st with
          | (Panicked, st) => (Panicked, st)
          | (Failed pos err, st) => (Failed pos err, st)
          | (Done unary pos, st) =>
              if String.eqb op "!" || String.eqb op "not" then
                match unary with
                | EBool unaryBool =>
                    (Done (EBool (Not unaryBool replCtx st)) objPos, st)
                | _ => (Failed pos (ErrTypeError pos KBool), st)
                end
              else if String.eqb op "-" then
                match unary with
                | EInt unaryInt =>
                    let '(e, st) := Minus ops unaryInt replCtx st in
                    (Done (EInt e) pos, st)
                | _ => (Failed pos (ErrTypeError pos KInt), st)
                end
              else if String.eqb op "^" then
                match unary with
                | EInt unaryInt =>
                    let '(e, st) := IntNot ops unaryInt replCtx st in
                    (Done (EInt e) pos, st)
                | _ => (Failed pos (ErrTypeError pos KInt), st)
                end
              else (Failed pos (ErrOpUnknown objPos op), st)
          end
          end
      | None =>
          match primary with
          | None => (Panicked, st)
          | Some primary => primaryToEvaluator ext ops host primary replCtx st
          end
      end.
Proof. reflexivity. Qed.

Lemma primaryToEvaluator_eq (pos : Position) (ident cidr ip : option string)
      (number : option Z) (variable str pattern regex : option string)
      (duration : option Z) (subExpression : option Expression)
      (replCtx : ReplCtx) (st : State) :
  primaryToEvaluator ext ops host
    (mkPrimary pos ident cidr ip number variable str pattern regex duration
       subExpression) replCtx st
  =
      match primaryLeaf ext pos ident cidr ip number variable str pattern regex
              duration replCtx st with
      | Some r => r
      | None =>
          match subExpression with
          | Some subExpression =>
              expressionToEvaluator ext ops host subExpression replCtx st
          | None =>
              (Failed pos
                 (ErrAstToEval pos "unknown primary '*ast.Primary'"), st)
          end
      end.
Proof. reflexivity. Qed.

(** [grows] is a preorder. *)
Lemma grows_refl (st : State) : grows st st.
Proof.
  split_grows; try reflexivity.
  - intros id. now left.
  - intros regID info H. exists info. repeat split; auto.
Qed.

Lemma grows_trans (st1 st2 st3 : State) :
  grows st1 st2 -> grows st2 st3 -> grows st1 st3.
Proof.
  intros (Hm1 & Hc1 & Hf1 & Hr1 & Hd1 & Hp1)
    (Hm2 & Hc2 & Hf2 & Hr2 & Hd2 & Hp2).
  split_grows.
  - congruence.
  - intros id.
    destruct (Hc1 id) as [E1 | (e1 & H0 & Hs1 & H1)],
          (Hc2 id) as [E2 | (e2 & H0' & Hs2 & H2)].
    + left. congruence.
    + right. exists e2. rewrite <- E1. repeat split; assumption.
    + right. exists e1. repeat split; [assumption | assumption | congruence].
    + exfalso. rewrite H1 in H0'. injection H0' as <-. discriminate Hs2.
  - now transitivity (fields st2).
  - intros regID info H.
    destruct (Hr1 regID info H) as (info1 & H1 & Hfield1 & Hit1 & Hsub1).
    destruct (Hr2 regID info1 H1) as (info2 & H2 & Hfield2 & Hit2 & Hsub2).
    exists info2. repeat split; try congruence.
    intros field Hfield. now apply Hsub2, Hsub1.
  - lia.
  - now transitivity (promotedConstants st2).
Qed.

(** A chain of states, each holding what the one before held. *)
Ltac grow :=
  repeat first [ eassumption
               | apply grows_refl
               | (eapply grows_trans; [eassumption|]) ].

Lemma extractField_grows (field : string) (st : State) :
  grows st (snd (extractField field st)).
Proof.
  destruct (extractField_state field st) as (Hm & Hc & Hr & Hf & Hd & Hp).
  cbv zeta in *. split_grows.
  - exact Hm.
  - intros id. left. now rewrite Hc.
  - now rewrite Hf.
  - intros regID info H. exists info. rewrite Hr. repeat split; auto.
  - lia.
  - now rewrite Hp.
Qed.

Lemma UpdateFields_grows (st : State) (field : Field) :
  grows st (UpdateFields st field).
Proof.
  split_grows; cbn; try reflexivity.
  - intros id. now left.
  - set_solver.
  - intros regID info H. exists info. repeat split; auto.
Qed.

Lemma set_randDraws_grows (st : State) :
  grows st (set_randDraws st (S (randDraws st))).
Proof.
  split_grows; cbn; try reflexivity; [| |lia].
  - intros id. now left.
  - intros regID info H. exists info. repeat split; auto.
Qed.

(** Binding a register keeps the registers that were bound: the register
    that is bound again gains a sub-field, a new register takes a free
    place. *)
Lemma bind_grows (st : State) (regID : RegisterID) (new : registerInfo) :
  (forall info,
     registersInfo st !! regID = Some info ->
     ri_field new = ri_field info /\ ri_iterator new = ri_iterator info
     /\ forall field, ri_subFields info !! field = Some true ->
                      ri_subFields new !! field = Some true) ->
  grows st (set_registersInfo st (<[regID := new]> (registersInfo st))).
Proof.
  intros Hnew. split_grows; cbn; try reflexivity; [intros id; now left|].
  intros id info H. destruct (decide (id = regID)) as [-> | Hne].
  - exists new. rewrite lookup_insert_eq. destruct (Hnew info H) as (? & ? & ?).
    repeat split; auto.
  - exists info. rewrite lookup_insert_ne by congruence.
    repeat split; auto.
Qed.

Lemma bindRegister_grows (pos : Position) (field itField : Field)
      (regID : RegisterID) (iterator : Iterator) (st : State) :
  grows st (snd (bindRegister ext pos field itField regID iterator st)).
Proof.
  unfold bindRegister.
  destruct (negb (String.eqb regID "") && negb (String.eqb regID "_"));
    [apply grows_refl|].
  assert (Hbind : forall regID st,
             grows st
               (snd (match registersInfo st !! regID with
                     | Some info =>
                         if negb (String.eqb (ri_field info) itField) then
                           (inr (ErrRegisterMultipleFields pos regID
                                   "used by multiple fields"), st)
                         else
                           (inl regID,
                            set_registersInfo st
                              (<[regID := mkRegisterInfo (ri_field info)
                                            (ri_iterator info)
                                            (<[field := true]>
                                               (ri_subFields info))]>
                                 (registersInfo st)))
                     | None =>
                         (inl regID,
                          set_registersInfo st
                            (<[regID := mkRegisterInfo itField iterator
                                          {[field := true]}]>
                               (registersInfo st)))
                     end : (RegisterID + error) * State))).
  { intros id st0. destruct (registersInfo st0 !! id) as [info|] eqn:E.
    - destruct (negb (String.eqb (ri_field info) itField));
        [apply grows_refl|].
      cbn [snd]. apply bind_grows. intros info' H.
      rewrite E in H. injection H as <-. cbn. repeat split.
      intros f Hf. destruct (decide (f = field)) as [-> | Hne].
      + now rewrite lookup_insert_eq.
      + now rewrite lookup_insert_ne by congruence.
    - cbn [snd]. apply bind_grows. intros info' H. congruence. }
  destruct (String.eqb regID "" || String.eqb regID "_").
  - eapply grows_trans; [apply set_randDraws_grows | apply Hbind].
  - apply Hbind.
Qed.

Lemma identToEvaluator_grows (pos : Position) (ident : string)
      (replCtx : ReplCtx) (st : State) :
  grows st (snd (identToEvaluator ext pos ident replCtx st)).
Proof.
  unfold identToEvaluator.
  destruct (Constants (Opts_ replCtx) !! ident); [apply grows_refl|].
  destruct (macros st !! ident); [apply grows_refl|].
  pose proof (extractField_grows ident st) as H1.
  destruct (extractField ident st) as [[[[field itField] regID] | err] st1];
    [|exact H1].
  cbn [snd] in H1.
  destruct (legacyRewrite _ field itField) as [field' itField'].
  destruct (negb (String.eqb itField' "")).
  - destruct (GetIterator (model st1) itField') as [it | err]; [|exact H1].
    pose proof (bindRegister_grows pos field' itField' regID it st1) as H2.
    destruct (bindRegister ext pos field' itField' regID it st1)
      as [[regID' | err] st2]; cbn [snd] in H2;
      [|eapply grows_trans; eassumption].
    destruct (GetEvaluator (model st2) field' regID');
      cbn [snd]; [|eapply grows_trans; eassumption].
    eapply grows_trans; [eassumption|].
    eapply grows_trans; [eassumption | apply UpdateFields_grows].
  - destruct (detectIterator (model st1) "" (Split "." field') None)
      as [it|].
    + pose proof (bindRegister_grows pos field' itField' regID it st1) as H2.
      destruct (bindRegister ext pos field' itField' regID it st1)
        as [[regID' | err] st2]; cbn [snd] in H2;
        [|eapply grows_trans; eassumption].
      destruct (GetEvaluator (model st2) field' regID');
        cbn [snd]; [|eapply grows_trans; eassumption].
      eapply grows_trans; [eassumption|].
      eapply grows_trans; [eassumption | apply UpdateFields_grows].
    + destruct (GetEvaluator (model st1) field' regID);
        cbn [snd]; [|exact H1].
      eapply grows_trans; [eassumption | apply UpdateFields_grows].
Qed.

Lemma arrayToEvaluator_grows (array : Array) (replCtx : ReplCtx) (st : State) :
  grows st (snd (arrayToEvaluator ext array replCtx st)).
Proof.
  unfold arrayToEvaluator.
  destruct (negb (Nat.eqb (length (arr_Numbers array)) 0));
    [apply grows_refl|].
  destruct (negb (Nat.eqb (length (arr_StringMembers array)) 0));
    [apply grows_refl|].
  destruct (arr_Ident array) as [ident|].
  { destruct (macros st !! ident);
      [apply grows_refl | apply identToEvaluator_grows]. }
  destruct (arr_Variable array) as [variable|].
  { destruct (isVariableName variable) as [varName []]; apply grows_refl. }
  destruct (arr_CIDR array) as [cidr|].
  { destruct (AppendCIDR ext _ cidr); apply grows_refl. }
  destruct (negb (Nat.eqb (length (arr_CIDRMembers array)) 0));
    [|apply grows_refl].
  destruct (appendCIDRMembers ext _ _ _); apply grows_refl.
Qed.

Lemma emit_snd (r : (@BoolEvaluator Context + error) * State)
      (errPos : Position) (k : @BoolEvaluator Context -> State -> Compiled) :
  snd (emit r errPos k) = snd r.
Proof. now destruct r as [[b | err] st']. Qed.

Lemma emitInt_snd (r : (@IntEvaluator Context + error) * State)
      (errPos : Position) (k : @IntEvaluator Context -> State -> Compiled) :
  snd (emitInt r errPos k) = snd r.
Proof. now destruct r as [[b | err] st']. Qed.

(** The force-pattern step adds the entry it writes to. *)
Lemma forcePattern_grows (nextString : @StringEvaluator Context) (st : State) :
  grows st (snd (forcePattern nextString st)).
Proof.
  unfold forcePattern.
  destruct (decide (s_ValueType nextString = ScalarValueType));
    [|apply grows_refl].
  cbn [snd]. unfold recordWrite.
  destruct (s_Ref nextString) as [[name | id]|]; [| |apply grows_refl].
  - split_grows; cbn; try reflexivity.
    + intros id. now left.
    + intros regID info H. exists info. repeat split; auto.
    + apply union_subseteq_r.
  - destruct (macros st !! id) as [[]|] eqn:E; try apply grows_refl.
    destruct (decide (s_ValueType e0 = ScalarValueType)) as [He|];
      [|apply grows_refl].
    split_grows; cbn; try reflexivity.
    + intros id'. destruct (decide (id' = id)) as [-> | Hne].
      * right. exists e0. rewrite lookup_insert_eq. now repeat split.
      * left. now rewrite lookup_insert_ne by congruence.
    + intros regID info H. exists info. repeat split; auto.
Qed.

Section Growing.

Hypothesis Hops : operatorsGrow ops.
Hypothesis Hhost : overridesGrow host.

Lemma wrappers_grow :
  combinatorGrows (StringEqualsWrapper ops host)
  /\ combinatorGrows (StringArrayContainsWrapper ops host)
  /\ combinatorGrows (StringValuesContainsWrapper ops host)
  /\ combinatorGrows (StringArrayMatchesWrapper ops host).
Proof.
  destruct Hhost as (H1 & H2 & H3 & H4).
  unfold operatorsGrow in Hops.
  split; [|split; [|split]]; intros x y replCtx st;
    unfold StringEqualsWrapper, StringArrayContainsWrapper,
      StringValuesContainsWrapper, StringArrayMatchesWrapper;
    repeat match goal with
           | |- context [match override ?o ?sel with _ => _ end] =>
               destruct (override o sel)
           end;
    first [ apply H1 | apply H2 | apply H3 | apply H4 | apply Hops ].
Qed.

Lemma compareArray_grows (objPos pos : Position) (op : string)
      (unary next : Evaluator) (replCtx : ReplCtx) (st : State) :
  grows st (snd (compareArray ops host objPos pos op unary next replCtx st)).
Proof.
  destruct wrappers_grow as (W1 & W2 & W3 & W4).
  unfold operatorsGrow in Hops.
  destruct unary, next; unfold compareArray;
    repeat match goal with
           | |- context [if ?c then _ else _] => destruct c
           end;
    rewrite ?emit_snd;
    first [ apply grows_refl | apply W1 | apply W2 | apply W3 | apply W4
          | apply Hops ].
Qed.

Lemma compareScalar_grows (objPos pos : Position) (op : string)
      (unary next : Evaluator) (replCtx : ReplCtx) (st : State) :
  grows st (snd (compareScalar ops host objPos pos op unary next replCtx st)).
Proof.
  destruct wrappers_grow as (W1 & W2 & W3 & W4).
  unfold operatorsGrow in Hops.
  destruct unary, next; unfold compareScalar;
    repeat match goal with
           | |- context [if ?c then _ else _] => destruct c
           | |- context [match s_EvalFnc ?e with _ => _ end] =>
               destruct (s_EvalFnc e)
           end;
    try match goal with
        | |- context [forcePattern ?e ?s] =>
            let H := fresh "H" in
            pose proof (forcePattern_grows e s) as H;
            destruct (forcePattern e s) as [promotedString st2];
            cbn [snd] in H;
            apply (grows_trans _ _ _ H)
        end;
    rewrite ?emit_snd;
    first [ apply grows_refl | apply W1 | apply W2 | apply W3 | apply W4
          | apply Hops ].
Qed.

Lemma primaryLeaf_grows (pos : Position) (ident cidr ip : option string)
      (number : option Z) (variable str pattern regex : option string)
      (duration : option Z) (replCtx : ReplCtx) (st : State)
      (r : Compiled * State) :
  primaryLeaf ext pos ident cidr ip number variable str pattern regex duration
    replCtx st = Some r ->
  grows st (snd r).
Proof.
  unfold primaryLeaf.
  destruct ident as [ident|];
    [intros [= <-]; apply identToEvaluator_grows|].
  destruct number; [intros [= <-]; apply grows_refl|].
  destruct variable as [variable|].
  { destruct (isVariableName variable) as [varname []];
      intros [= <-]; apply grows_refl. }
  destruct duration; [intros [= <-]; apply grows_refl|].
  destruct str as [str|].
  { destruct (Nat.ltb 0 _); intros [= <-]; apply grows_refl. }
  destruct pattern; [intros [= <-]; apply grows_refl|].
  destruct regex; [intros [= <-]; apply grows_refl|].
  destruct ip as [ip|].
  { destruct (ParseCIDR ext ip); intros [= <-]; apply grows_refl. }
  destruct cidr as [cidr|]; [|discriminate].
  destruct (ParseCIDR ext cidr); intros [= <-]; apply grows_refl.
Qed.

Lemma nodes_grow (n : nat) :
  (forall obj, sizeBooleanExpression obj < n -> forall replCtx st,
     grows st (snd (booleanExpressionToEvaluator ext ops host obj replCtx st)))
  /\ (forall obj, sizeExpression obj < n -> forall replCtx st,
        grows st (snd (expressionToEvaluator ext ops host obj replCtx st)))
  /\ (forall obj, sizeComparison obj < n -> forall replCtx st,
        grows st (snd (comparisonToEvaluator ext ops host obj replCtx st)))
  /\ (forall obj, sizeScalarComparison obj < n -> forall replCtx st,
        grows st
          (snd (scalarComparisonToEvaluator ext ops host obj replCtx st)))
  /\ (forall obj, sizeBitOperation obj < n -> forall replCtx st,
        grows st (snd (bitOperationToEvaluator ext ops host obj replCtx st)))
  /\ (forall obj, sizeUnary obj < n -> forall replCtx st,
        grows st (snd (unaryToEvaluator ext ops host obj replCtx st)))
  /\ (forall obj, sizePrimary obj < n -> forall replCtx st,
        grows st (snd (primaryToEvaluator ext ops host obj replCtx st))).
Proof.
  induction n as [|n (IHbe & IHe & IHc & IHsc & IHbo & IHu & IHp)];
    [split7; intros; lia|].
  pose proof Hops as Hops'. unfold operatorsGrow in Hops'.
  split7.
  - intros [expression] Hsize replCtx st.
    rewrite booleanExpressionToEvaluator_eq. apply IHe.
    change (S (sizeExpression expression) < S n) in Hsize. lia.
  - intros [objPos comparison op next] Hsize replCtx st.
    rewrite expressionToEvaluator_eq.
    change (S (sizeComparison comparison
               + match next with
                 | Some next => sizeBooleanExpression next
                 | None => 0
                 end) < S n) in Hsize.
    pose proof (IHc comparison ltac:(lia) replCtx st) as H1.
    destruct (comparisonToEvaluator ext ops host comparison replCtx st)
      as [[cmp pos | pos err | ] st1]; cbn [snd] in *; try exact H1.
    destruct op as [op|]; [|exact H1].
    destruct cmp; try exact H1.
    destruct next as [next|]; [|exact H1].
    pose proof (IHbe next ltac:(lia) replCtx st1) as H2.
    destruct (booleanExpressionToEvaluator ext ops host next replCtx st1)
      as [[nx p | p err | ] st2]; cbn [snd] in *; try grow.
    destruct nx; try grow.
    repeat match goal with
           | |- context [if ?c then _ else _] => destruct c
           end;
      rewrite ?emit_snd; grow; apply Hops'.
  - intros [objPos bitOperation sc ac] Hsize replCtx st.
    rewrite comparisonToEvaluator_eq.
    change (S (sizeBitOperation bitOperation
               + match sc with
                 | Some sc => sizeScalarComparison sc
                 | None => 0
                 end) < S n) in Hsize.
    pose proof (IHbo bitOperation ltac:(lia) replCtx st) as H1.
    destruct (bitOperationToEvaluator ext ops host bitOperation replCtx st)
      as [[unary pos | pos err | ] st1]; cbn [snd] in *; try exact H1.
    destruct ac as [ac|].
    + pose proof (arrayToEvaluator_grows (ac_Array ac) replCtx st1) as H2.
      destruct (arrayToEvaluator ext (ac_Array ac) replCtx st1)
        as [[nx p | p err | ] st2]; cbn [snd] in *; try grow.
      grow. apply compareArray_grows.
    + destruct sc as [[scPos op rhs]|]; [|exact H1].
      change (S (sizeBitOperation bitOperation + S (sizeComparison rhs))
              < S n) in Hsize.
      pose proof (IHc rhs ltac:(lia) replCtx st1) as H2.
      destruct (comparisonToEvaluator ext ops host rhs replCtx st1)
        as [[nx p | p err | ] st2]; cbn [snd] in *; try grow.
      grow. apply compareScalar_grows.
  - intros [scPos op next] Hsize replCtx st.
    rewrite scalarComparisonToEvaluator_eq. apply IHc.
    change (S (sizeComparison next) < S n) in Hsize. lia.
  - intros [objPos unary op next] Hsize replCtx st.
    rewrite bitOperationToEvaluator_eq.
    change (S (sizeUnary unary
               + match next with
                 | Some next => sizeBitOperation next
                 | None => 0
                 end) < S n) in Hsize.
    pose proof (IHu unary ltac:(lia) replCtx st) as H1.
    destruct (unaryToEvaluator ext ops host unary replCtx st)
      as [[u pos | pos err | ] st1]; cbn [snd] in *; try exact H1.
    destruct op as [op|]; [|exact H1].
    destruct u; try exact H1.
    destruct next as [next|]; [|exact H1].
    pose proof (IHbo next ltac:(lia) replCtx st1) as H2.
    destruct (bitOperationToEvaluator ext ops host next replCtx st1)
      as [[nx p | p err | ] st2]; cbn [snd] in *; try grow.
    destruct nx; try grow.
    cbv zeta.
    repeat match goal with
           | |- context [if ?c then _ else _] => destruct c
           end;
      rewrite ?emitInt_snd; grow; apply Hops'.
  - intros [objPos op unary primary] Hsize replCtx st.
    rewrite unaryToEvaluator_eq.
    change (S (match unary with
               | Some unary => sizeUnary unary
               | None => 0
               end
               + match primary with
                 | Some primary => sizePrimary primary
                 | None => 0
                 end) < S n) in Hsize.
    destruct op as [op|].
    + destruct unary as [unary|]; [|apply grows_refl].
      pose proof (IHu unary ltac:(lia) replCtx st) as H1.
      destruct (unaryToEvaluator ext ops host unary replCtx st)
        as [[u pos | pos err | ] st1]; cbn [snd] in *; try exact H1.
      repeat match goal with
             | |- context [if ?c then _ else _] => destruct c
             end;
        destruct u; try exact H1.
      * pose proof (proj1 (proj2 (proj2 (proj2 (proj2 (proj2 Hops')))))
                      e replCtx st1) as H2.
        destruct (Minus ops e replCtx st1) as [e' st2]. cbn [snd] in *. grow.
      * pose proof (proj1 (proj2 (proj2 (proj2 (proj2 (proj2 (proj2 Hops'))))))
                      e replCtx st1) as H2.
        destruct (IntNot ops e replCtx st1) as [e' st2]. cbn [snd] in *. grow.
    + destruct primary as [primary|]; [|apply grows_refl].
      apply IHp. lia.
  - intros [pos ident cidr ip number variable str pattern regex duration
              subExpression] Hsize replCtx st.
    rewrite primaryToEvaluator_eq.
    change (S (match subExpression with
               | Some subExpression => sizeExpression subExpression
               | None => 0
               end) < S n) in Hsize.
    destruct (primaryLeaf ext pos ident cidr ip number variable str pattern
                regex duration replCtx st) as [r|] eqn:E.
    + now apply primaryLeaf_grows in E.
    + destruct subExpression as [subExpression|]; [|apply grows_refl].
      apply IHe. lia.
Qed.

(** X17. Compiling a node only adds to the state, provided the operator
    combinators and the overrides do: the model stays the same, every macro
    holds what it held or, when it held a scalar string evaluator, that
    evaluator with the type pattern (the write of [=~] and [!~] through the
    pointer of the macro), every field recorded stays recorded, every
    register stays bound to its iterator field and to its iterator and keeps
    its sub-fields, the generator does not go back, and every constant that
    has been written to stays written.  This holds whether the compilation
    succeeds, fails or panics. *)
Theorem nodeToEvaluator_grows (obj : Node) (replCtx : ReplCtx) (st : State) :
  grows st (snd (nodeToEvaluator ext ops host obj replCtx st)).
Proof.
  destruct obj as [obj | obj | obj | obj | obj | obj | obj | obj | obj];
    unfold nodeToEvaluator.
  - apply (nodes_grow (S (sizeBooleanExpression obj))). lia.
  - apply (nodes_grow (S (sizeExpression obj))). lia.
  - apply (nodes_grow (S (sizeBitOperation obj))). lia.
  - apply (nodes_grow (S (sizeComparison obj))). lia.
  - apply arrayToEvaluator_grows.
  - apply (nodes_grow (S (sizeScalarComparison obj))). lia.
  - apply (nodes_grow (S (sizeUnary obj))). lia.
  - apply (nodes_grow (S (sizePrimary obj))). lia.
  - apply arrayToEvaluator_grows.
Qed.

End Growing.

(** Neither the resolution of an identifier, nor an array, nor a comparison
    of two compiled operands panics. *)
Lemma identToEvaluator_returns (pos : Position) (ident : string)
      (replCtx : ReplCtx) (st : State) :
  fst (identToEvaluator ext pos ident replCtx st) <> Panicked.
Proof.
  unfold identToEvaluator.
  destruct (Constants (Opts_ replCtx) !! ident); [discriminate|].
  destruct (macros st !! ident); [discriminate|].
  destruct (extractField ident st) as [[[[field itField] regID] | err] st1];
    [|discriminate].
  destruct (legacyRewrite _ field itField) as [field' itField'].
  destruct (negb (String.eqb itField' "")).
  - destruct (GetIterator (model st1) itField') as [it | err]; [|discriminate].
    destruct (bindRegister ext pos field' itField' regID it st1)
      as [[regID' | err] st2]; [|discriminate].
    destruct (GetEvaluator (model st2) field' regID'); discriminate.
  - destruct (detectIterator (model st1) "" (Split "." field') None)
      as [it|].
    + destruct (bindRegister ext pos field' itField' regID it st1)
        as [[regID' | err] st2]; [|discriminate].
      destruct (GetEvaluator (model st2) field' regID'); discriminate.
    + destruct (GetEvaluator (model st1) field' regID); discriminate.
Qed.

Lemma arrayToEvaluator_returns (array : Array) (replCtx : ReplCtx)
      (st : State) :
  fst (arrayToEvaluator ext array replCtx st) <> Panicked.
Proof.
  unfold arrayToEvaluator.
  destruct (negb (Nat.eqb (length (arr_Numbers array)) 0)); [discriminate|].
  destruct (negb (Nat.eqb (length (arr_StringMembers array)) 0));
    [discriminate|].
  destruct (arr_Ident array) as [ident|].
  { destruct (macros st !! ident);
      [discriminate | apply identToEvaluator_returns]. }
  destruct (arr_Variable array) as [variable|].
  { destruct (isVariableName variable) as [varName []]; [|discriminate].
    unfold evaluatorFromVariable.
    destruct (Variables (Opts_ replCtx) !! varName); discriminate. }
  destruct (arr_CIDR array) as [cidr|].
  { destruct (AppendCIDR ext _ cidr); discriminate. }
  destruct (negb (Nat.eqb (length (arr_CIDRMembers array)) 0));
    [|discriminate].
  destruct (appendCIDRMembers ext _ _ _); discriminate.
Qed.

Lemma compareArray_returns (objPos pos : Position) (op : string)
      (unary next : Evaluator) (replCtx : ReplCtx) (st : State) :
  fst (compareArray ops host objPos pos op unary next replCtx st) <> Panicked.
Proof.
  destruct unary, next; unfold compareArray, notinOrPlain;
    repeat match goal with
           | |- context [if ?c then _ else _] => destruct c
           end;
    unfold emit, plain, negated;
    try match goal with
        | |- context [match ?c with (_, _) => _ end] =>
            destruct c as [[be | err] st3]
        end;
    cbn; repeat match goal with
                | |- context [if ?c then _ else _] => destruct c
                end;
    discriminate.
Qed.

Lemma compareScalar_returns (objPos pos : Position) (op : string)
      (unary next : Evaluator) (replCtx : ReplCtx) (st : State) :
  fst (compareScalar ops host objPos pos op unary next replCtx st) <> Panicked.
Proof.
  destruct unary, next; unfold compareScalar, unknownEntity;
    repeat match goal with
           | |- context [if ?c then _ else _] => destruct c
           | |- context [match s_EvalFnc ?e with _ => _ end] =>
               destruct (s_EvalFnc e)
           end;
    try match goal with
        | |- context [forcePattern ?e ?s] =>
            destruct (forcePattern e s) as [promotedString st2]
        end;
    unfold emit, plain, negated;
    try match goal with
        | |- context [match ?c with (_, _) => _ end] =>
            destruct c as [[be | err] st3]
        end;
    discriminate.
Qed.

Lemma primaryLeaf_returns (pos : Position) (ident cidr ip : option string)
      (number : option Z) (variable str pattern regex : option string)
      (duration : option Z) (replCtx : ReplCtx) (st : State)
      (r : Compiled * State) :
  primaryLeaf ext pos ident cidr ip number variable str pattern regex duration
    replCtx st = Some r ->
  fst r <> Panicked.
Proof.
  unfold primaryLeaf.
  destruct ident as [ident|];
    [intros [= <-]; apply identToEvaluator_returns|].
  destruct number; [intros [= <-]; discriminate|].
  destruct variable as [variable|].
  { destruct (isVariableName variable) as [varname []];
      intros [= <-]; [|discriminate].
    unfold evaluatorFromVariable.
    destruct (Variables (Opts_ replCtx) !! varname); discriminate. }
  destruct duration; [intros [= <-]; discriminate|].
  destruct str as [str|].
  { destruct (Nat.ltb 0 _); intros [= <-]; [|discriminate].
    unfold stringEvaluatorFromVariable.
    destruct (locLoop _ _ _ _ _ _) as [[last evaluators] | err];
      [|discriminate].
    destruct (if Nat.ltb last (String.length str) then _ else _);
      discriminate. }
  destruct pattern; [intros [= <-]; discriminate|].
  destruct regex; [intros [= <-]; discriminate|].
  destruct ip as [ip|].
  { destruct (ParseCIDR ext ip); intros [= <-]; discriminate. }
  destruct cidr as [cidr|]; [|discriminate].
  destruct (ParseCIDR ext cidr); intros [= <-]; discriminate.
Qed.

Lemma nodes_return (n : nat) :
  (forall obj, sizeBooleanExpression obj < n ->
     wfBooleanExpression obj = true -> forall replCtx st,
     fst (booleanExpressionToEvaluator ext ops host obj replCtx st)
     <> Panicked)
  /\ (forall obj, sizeExpression obj < n ->
        wfExpression obj = true -> forall replCtx st,
        fst (expressionToEvaluator ext ops host obj replCtx st) <> Panicked)
  /\ (forall obj, sizeComparison obj < n ->
        wfComparison obj = true -> forall replCtx st,
        fst (comparisonToEvaluator ext ops host obj replCtx st) <> Panicked)
  /\ (forall obj, sizeScalarComparison obj < n ->
        wfScalarComparison obj = true -> forall replCtx st,
        fst (scalarComparisonToEvaluator ext ops host obj replCtx st)
        <> Panicked)
  /\ (forall obj, sizeBitOperation obj < n ->
        wfBitOperation obj = true -> forall replCtx st,
        fst (bitOperationToEvaluator ext ops host obj replCtx st)
        <> Panicked)
  /\ (forall obj, sizeUnary obj < n ->
        wfUnary obj = true -> forall replCtx st,
        fst (unaryToEvaluator ext ops host obj replCtx st) <> Panicked)
  /\ (forall obj, sizePrimary obj < n ->
        wfPrimary obj = true -> forall replCtx st,
        fst (primaryToEvaluator ext ops host obj replCtx st) <> Panicked).
Proof.
  induction n as [|n (IHbe & IHe & IHc & IHsc & IHbo & IHu & IHp)];
    [split7; intros; lia|].
  split7.
  - intros [expression] Hsize Hwf replCtx st.
    rewrite booleanExpressionToEvaluator_eq.
    change (S (sizeExpression expression) < S n) in Hsize.
    change (wfExpression expression = true) in Hwf.
    apply IHe; [lia | exact Hwf].
  - intros [objPos comparison op next] Hsize Hwf replCtx st.
    rewrite expressionToEvaluator_eq.
    change (S (sizeComparison comparison
               + match next with
                 | Some next => sizeBooleanExpression next
                 | None => 0
                 end) < S n) in Hsize.
    change (wfComparison comparison
            && match op with
               | Some _ =>
                   match next with
                   | Some next => wfBooleanExpression next
                   | None => false
                   end
               | None => true
               end = true) in Hwf.
    apply andb_prop in Hwf as [Hwf1 Hwf2].
    pose proof (IHc comparison ltac:(lia) Hwf1 replCtx st) as H1.
    destruct (comparisonToEvaluator ext ops host comparison replCtx st)
      as [[cmp pos | pos err | ] st1]; cbn [fst] in *; try congruence.
    destruct op as [op|]; [|discriminate].
    destruct cmp; try discriminate.
    destruct next as [next|]; [|discriminate].
    pose proof (IHbe next ltac:(lia) Hwf2 replCtx st1) as H2.
    destruct (booleanExpressionToEvaluator ext ops host next replCtx st1)
      as [[nx p | p err | ] st2]; cbn [fst] in *; try congruence.
    destruct nx; try discriminate.
    repeat match goal with
           | |- context [if ?c then _ else _] => destruct c
           end;
      unfold emit, plain;
      try match goal with
          | |- context [match ?c with (_, _) => _ end] =>
              destruct c as [[be | err] st3]
          end;
      discriminate.
  - intros [objPos bitOperation sc ac] Hsize Hwf replCtx st.
    rewrite comparisonToEvaluator_eq.
    change (S (sizeBitOperation bitOperation
               + match sc with
                 | Some sc => sizeScalarComparison sc
                 | None => 0
                 end) < S n) in Hsize.
    change (wfBitOperation bitOperation
            && match sc with
               | Some sc => wfScalarComparison sc
               | None => true
               end = true) in Hwf.
    apply andb_prop in Hwf as [Hwf1 Hwf2].
    pose proof (IHbo bitOperation ltac:(lia) Hwf1 replCtx st) as H1.
    destruct (bitOperationToEvaluator ext ops host bitOperation replCtx st)
      as [[unary pos | pos err | ] st1]; cbn [fst] in *; try congruence.
    destruct ac as [ac|].
    + pose proof (arrayToEvaluator_returns (ac_Array ac) replCtx st1) as H2.
      destruct (arrayToEvaluator ext (ac_Array ac) replCtx st1)
        as [[nx p | p err | ] st2]; cbn [fst] in *; try congruence.
      apply compareArray_returns.
    + destruct sc as [[scPos op rhs]|]; [|discriminate].
      change (S (sizeBitOperation bitOperation + S (sizeComparison rhs))
              < S n) in Hsize.
      change (wfComparison rhs = true) in Hwf2.
      pose proof (IHc rhs ltac:(lia) Hwf2 replCtx st1) as H2.
      destruct (comparisonToEvaluator ext ops host rhs replCtx st1)
        as [[nx p | p err | ] st2]; cbn [fst] in *; try congruence.
      apply compareScalar_returns.
  - intros [scPos op next] Hsize Hwf replCtx st.
    rewrite scalarComparisonToEvaluator_eq.
    change (S (sizeComparison next) < S n) in Hsize.
    change (wfComparison next = true) in Hwf.
    apply IHc; [lia | exact Hwf].
  - intros [objPos unary op next] Hsize Hwf replCtx st.
    rewrite bitOperationToEvaluator_eq.
    change (S (sizeUnary unary
               + match next with
                 | Some next => sizeBitOperation next
                 | None => 0
                 end) < S n) in Hsize.
    change (wfUnary unary
            && match op with
               | Some _ =>
                   match next with
                   | Some next => wfBitOperation next
                   | None => false
                   end
               | None => true
               end = true) in Hwf.
    apply andb_prop in Hwf as [Hwf1 Hwf2].
    pose proof (IHu unary ltac:(lia) Hwf1 replCtx st) as H1.
    destruct (unaryToEvaluator ext ops host unary replCtx st)
      as [[u pos | pos err | ] st1]; cbn [fst] in *; try congruence.
    destruct op as [op|]; [|discriminate].
    destruct u; try discriminate.
    destruct next as [next|]; [|discriminate].
    pose proof (IHbo next ltac:(lia) Hwf2 replCtx st1) as H2.
    destruct (bitOperationToEvaluator ext ops host next replCtx st1)
      as [[nx p | p err | ] st2]; cbn [fst] in *; try congruence.
    destruct nx; try discriminate.
    cbv zeta.
    repeat match goal with
           | |- context [if ?c then _ else _] => destruct c
           end;
      unfold emitInt;
      try match goal with
          | |- context [match ?c with (_, _) => _ end] =>
              destruct c as [[be | err] st3]
          end;
      discriminate.
  - intros [objPos op unary primary] Hsize Hwf replCtx st.
    rewrite unaryToEvaluator_eq.
    change (S (match unary with
               | Some unary => sizeUnary unary
               | None => 0
               end
               + match primary with
                 | Some primary => sizePrimary primary
                 | None => 0
                 end) < S n) in Hsize.
    change (match op with
            | Some _ =>
                match unary with
                | Some unary => wfUnary unary
                | None => false
                end
            | None =>
                match primary with
                | Some primary => wfPrimary primary
                | None => false
                end
            end = true) in Hwf.
    destruct op as [op|].
    + destruct unary as [unary|]; [|discriminate].
      pose proof (IHu unary ltac:(lia) Hwf replCtx st) as H1.
      destruct (unaryToEvaluator ext ops host unary replCtx st)
        as [[u pos | pos err | ] st1]; cbn [fst] in *; try congruence.
      repeat match goal with
             | |- context [if ?c then _ else _] => destruct c
             end;
        destruct u; try discriminate.
      * now destruct (Minus ops e replCtx st1).
      * now destruct (IntNot ops e replCtx st1).
    + destruct primary as [primary|]; [|discriminate].
      apply IHp; [lia | exact Hwf].
  - intros [pos ident cidr ip number variable str pattern regex duration
              subExpression] Hsize Hwf replCtx st.
    rewrite primaryToEvaluator_eq.
    change (S (match subExpression with
               | Some subExpression => sizeExpression subExpression
               | None => 0
               end) < S n) in Hsize.
    change (match subExpression with
            | Some subExpression => wfExpression subExpression
            | None => true
            end = true) in Hwf.
    destruct (primaryLeaf ext pos ident cidr ip number variable str pattern
                regex duration replCtx st) as [r|] eqn:E.
    + now apply primaryLeaf_returns in E.
    + destruct subExpression as [subExpression|]; [|discriminate].
      apply IHe; [lia | exact Hwf].
Qed.

(** X18. The trees of this file have the children and the operators that
    the grammar always fills (the comparison of an expression, the bit
    operation of a comparison, the unary of a bit operation, the right
    operand and the operator of a scalar comparison, the array and the
    operator of an array comparison): of the pointers that the compiler
    dereferences, three may be nil in them, the right operand of a binary
    operator, the operand of a unary operator and the primary of a unary
    without operator.  Compiling such a tree in which these three are
    present where the compiler looks for them does not panic: it returns an
    evaluator or an error, whatever the operator combinators, the overrides
    and the model answer. *)
Theorem nodeToEvaluator_returns (obj : Node) (replCtx : ReplCtx) (st : State) :
  wfNode obj = true ->
  fst (nodeToEvaluator ext ops host obj replCtx st) <> Panicked.
Proof.
  destruct obj as [obj | obj | obj | obj | obj | obj | obj | obj | obj];
    unfold nodeToEvaluator, wfNode; intros Hwf.
  - apply (nodes_return (S (sizeBooleanExpression obj))); [lia | exact Hwf].
  - apply (nodes_return (S (sizeExpression obj))); [lia | exact Hwf].
  - apply (nodes_return (S (sizeBitOperation obj))); [lia | exact Hwf].
  - apply (nodes_return (S (sizeComparison obj))); [lia | exact Hwf].
  - apply arrayToEvaluator_returns.
  - apply (nodes_return (S (sizeScalarComparison obj))); [lia | exact Hwf].
  - apply (nodes_return (S (sizeUnary obj))); [lia | exact Hwf].
  - apply (nodes_return (S (sizePrimary obj))); [lia | exact Hwf].
  - apply arrayToEvaluator_returns.
Qed.



(** X20. A field written without subscript, which is neither a constant nor a
    macro, for which the legacy rewriting gives the name [field] and no
    iterator field, and along whose path the model knows no iterator: the
    model is asked for the evaluator of [field] under the empty register,
    [field] is recorded when the model answers, and no register is bound. *)
Theorem identToEvaluator_plain_field (pos : Position) (ident : string)
    (field : Field) (replCtx : ReplCtx) (st : State) :
  cacheSound st ->
  Constants (Opts_ replCtx) !! ident = None ->
  macros st !! ident = None ->
  IndexByte "[" ident = None ->
  legacyRewrite (LegacyFields (Opts_ replCtx)) ident "" = (field, "") ->
  detectIterator (model st) "" (Split "." field) None = None ->
  let st1 := snd (extractField ident st) in
  identToEvaluator ext pos ident replCtx st
  = match GetEvaluator (model st) field "" with
    | inl accessor => (Done accessor pos, UpdateFields st1 field)
    | inr err => (Failed pos err, st1)
    end
  /\ registersInfo st1 = registersInfo st
  /\ fields st1 = fields st.
Proof.
  intros Hcache Hconst Hmacro Hplain Hlegacy Hiter st1.
  destruct (extractField_state ident st) as (Hm & _ & Hr & Hf & _).
  cbv zeta in Hm, Hr, Hf. fold st1 in Hm, Hr, Hf.
  split; [|now split].
  unfold identToEvaluator. rewrite Hconst, Hmacro.
  pose proof (extractField_no_bracket ident st Hcache Hplain) as Hfst.
  destruct (extractField ident st) as [r st1'] eqn:E.
  cbn [fst snd] in *. subst r st1.
  rewrite Hlegacy.
  change (negb (String.eqb "" "")) with false. cbv iota.
  rewrite Hm, Hiter. cbv beta iota zeta. rewrite Hm. reflexivity.
Qed.




End Compiling.

Lemma demoOps_grow : operatorsGrow Demo.demoOps.
Proof.
  unfold operatorsGrow, combinatorGrows, intCombinatorGrows,
    unaryCombinatorGrows.
  repeat match goal with |- _ /\ _ => split end;
    intros; apply grows_refl.
Qed.

Lemma demoHost_grow : overridesGrow Demo.demoHost.
Proof.
  unfold overridesGrow, combinatorGrows.
  repeat match goal with |- _ /\ _ => split end;
    intros f a b replCtx st; try apply grows_refl.
  - cbn [code_StringEquals Demo.demoHost].
    destruct (String.eqb f "caseInsensitive"); [apply grows_refl|].
    destruct (String.eqb f "reject"); apply grows_refl.
  - cbn [code_StringArrayContains Demo.demoHost].
    destruct (String.eqb f "ofString"); [apply grows_refl|].
    destruct (String.eqb f "ofArray"); apply grows_refl.
Qed.

Lemma nodeToEvaluator_grows_witness :
  grows Demo.st0
    (snd (nodeToEvaluator Demo.demoExt Demo.demoOps Demo.demoHost
            (NExpression (Demo.conflictRule "_")) Demo.replCtx0 Demo.st0)).
Proof.
  apply (nodeToEvaluator_grows Demo.demoExt Demo.demoOps Demo.demoHost
           demoOps_grow demoHost_grow).
Defined.

Lemma nodeToEvaluator_returns_witness :
  fst (nodeToEvaluator Demo.demoExt Demo.demoOps Demo.demoHost
         (NExpression (Demo.conflictRule "x")) Demo.replCtx0 Demo.st0)
  <> Panicked.
Proof.
  apply (nodeToEvaluator_returns Demo.demoExt Demo.demoOps Demo.demoHost
           (NExpression (Demo.conflictRule "x")) Demo.replCtx0 Demo.st0).
  reflexivity.
Defined.

Lemma identToEvaluator_plain_field_witness :
  let replCtx : Demo.ReplCtx :=
    mkEvalReplacementContext
      (mkOpts ∅ (<["fsize" := "file.size"]> ∅) ∅) tt in
  let st1 := snd (extractField "fsize" Demo.st0) in
  identToEvaluator Demo.demoExt (Demo.at_ 0) "fsize" replCtx Demo.st0
  = match GetEvaluator (model Demo.st0) "file.size" "" with
    | inl accessor =>
        (Done accessor (Demo.at_ 0), UpdateFields st1 "file.size")
    | inr err => (Failed (Demo.at_ 0) err, st1)
    end
  /\ registersInfo st1 = registersInfo Demo.st0
  /\ fields st1 = fields Demo.st0.
Proof.
  intros replCtx st1.
  apply (identToEvaluator_plain_field Demo.demoExt (Demo.at_ 0) "fsize"
           "file.size" replCtx Demo.st0).
  - split; left; reflexivity.
  - reflexivity.
  - reflexivity.
  - reflexivity.
  - reflexivity.
  - reflexivity.
Defined.

(** *** What the resolution of a subscripted field records *)

Section Registers.

Context {Context Iterator IPNet StringValues CIDRValues MacroStore : Type}.

#[local] Abbreviation State := (@State Context Iterator IPNet StringValues CIDRValues).
#[local] Abbreviation ReplCtx :=
  (@EvalReplacementContext Context IPNet StringValues CIDRValues MacroStore).
#[local] Abbreviation Evaluator := (@Evaluator Context IPNet StringValues CIDRValues).

Context (ext : @Externals IPNet StringValues CIDRValues).

(** X22. A field written with the subscript [_] on an iterator field that
    the model knows, [prefix[_]suffix], when the identifier drawn for the
    register is free and the model has an evaluator for the field under it:
    the evaluator of the model is returned, the register drawn is bound to
    the iterator field and to its iterator with the field as its only
    sub-field, the field is recorded, and one identifier has been drawn;
    nothing else of the state changes but the cache. *)
Theorem identToEvaluator_subscript (pos : Position) (prefix suffix : string)
    (field itField : Field) (it : Iterator) (accessor : Evaluator)
    (replCtx : ReplCtx) (st : State) :
  let ident := prefix ++ "[" ++ "_" ++ "]" ++ suffix in
  cacheSound st ->
  segment prefix = true -> prefix <> "" -> segment suffix = true ->
  Constants (Opts_ replCtx) !! ident = None ->
  macros st !! ident = None ->
  legacyRewrite (LegacyFields (Opts_ replCtx)) (prefix ++ suffix) prefix
  = (field, itField) ->
  itField <> "" ->
  GetIterator (model st) itField = inl it ->
  let r := RandString ext 8 (randDraws st) in
  registersInfo st !! r = None ->
  GetEvaluator (model st) field r = inl accessor ->
  let st' := snd (identToEvaluator ext pos ident replCtx st) in
  fst (identToEvaluator ext pos ident replCtx st) = Done accessor pos
  /\ registersInfo st'
     = <[r := mkRegisterInfo itField it {[field := true]}]> (registersInfo st)
  /\ fields st' = {[field]} ∪ fields st
  /\ randDraws st' = S (randDraws st)
  /\ model st' = model st
  /\ macros st' = macros st.
Proof.
  intros ident Hcache Hprefix Hprefix' Hsuffix Hconst Hmacro Hlegacy Hit Hiter
    r Hfree Haccessor st'.
  subst st'. unfold identToEvaluator. rewrite Hconst, Hmacro.
  pose proof (extractField_one_subscript prefix "_" suffix st Hcache Hprefix
                Hprefix' eq_refl ltac:(discriminate) Hsuffix) as Hfst.
  destruct (extractField_state ident st) as (Hm & Hc & Hr & Hf & Hd & _).
  cbv zeta in Hm, Hc, Hr, Hf, Hd. fold ident in Hfst.
  destruct (extractField ident st) as [res st1].
  cbn [fst snd] in Hfst, Hm, Hc, Hr, Hf, Hd. subst res.
  rewrite Hlegacy.
  assert (Hne : String.eqb itField "" = false) by now apply String.eqb_neq.
  rewrite Hne. cbn [negb]. rewrite Hm, Hiter.
  unfold bindRegister.
  change (negb (String.eqb "_" "") && negb (String.eqb "_" "_")) with false.
  change (String.eqb "_" "" || String.eqb "_" "_") with true.
  cbv iota. rewrite Hd. fold r.
  cbn [registersInfo set_randDraws]. rewrite Hr, Hfree.
  cbn [model set_registersInfo set_randDraws]. rewrite Hm, Haccessor.
  cbn [fst snd registersInfo fields randDraws model macros UpdateFields
         set_registersInfo set_randDraws].
  rewrite ?Hr, ?Hf, ?Hm, ?Hc. repeat split; reflexivity.
Qed.

End Registers.

Lemma identToEvaluator_subscript_witness :
  let ident := "p.a" ++ "[" ++ "_" ++ "]" ++ ".f" in
  let r := RandString Demo.demoExt 8 (randDraws Demo.st0) in
  let st' :=
    snd (identToEvaluator Demo.demoExt (Demo.at_ 0) ident Demo.replCtx0
           Demo.st0) in
  fst (identToEvaluator Demo.demoExt (Demo.at_ 0) ident Demo.replCtx0 Demo.st0)
  = Done (Demo.intField "p.a.f") (Demo.at_ 0)
  /\ registersInfo st'
     = <[r := mkRegisterInfo "p.a" "p.a" {["p.a.f" := true]}]>
         (registersInfo Demo.st0)
  /\ fields st' = {["p.a.f"]} ∪ fields Demo.st0
  /\ randDraws st' = S (randDraws Demo.st0)
  /\ model st' = model Demo.st0
  /\ macros st' = macros Demo.st0.
Proof.
  apply (identToEvaluator_subscript Demo.demoExt (Demo.at_ 0) "p.a" ".f"
           "p.a.f" "p.a" "p.a" (Demo.intField "p.a.f") Demo.replCtx0
           Demo.st0).
  - split; left; reflexivity.
  - reflexivity.
  - discriminate.
  - reflexivity.
  - reflexivity.
  - reflexivity.
  - reflexivity.
  - discriminate.
  - reflexivity.
  - reflexivity.
  - reflexivity.
Defined.
